(** * effective-robot: the kitchen scheduling core

    A shallow embedding of [kitchen/order.go] and [kitchen/shelf.go]:
    the order state machine, the static shelf container, the decay
    arithmetic, the placement routine and the kitchen lifecycle
    operations, followed by the properties established about them.

    Modelling conventions.
    - Go pointers ([*Order], [*staticShelf]) are locations into two heaps
      held by a [Store]; a [Shelf] interface value is [option sref]
      ([None] is the nil interface).  Go never hands out a dangling
      pointer, so reading an unallocated location yields the Go zero
      value of the struct and is never exercised by a run that starts
      from allocated objects.
    - [float64] is IEEE binary64 ([PrimFloat.float]); every arithmetic
      step is rounded on its own (no fused multiply-add).
    - [time.Time] is an integer count of nanoseconds, [time.Duration] an
      [int64]; [Time.Sub] saturates and [Duration] subtraction wraps.
    - The injectable clock [now func() time.Time] of an order or of the
      kitchen is modelled by the time it currently returns; an operation
      runs at one instant, and the passing of time is a change of that
      field between operations.
    - The read/write locks are not modelled: operations are atomic. *)

From Stdlib Require Import ZArith Floats Lia.
From stdpp Require Import gmap strings list sorting.

Local Open Scope Z_scope.

(** ** Numbers and time *)

Abbreviation Time := Z.
Abbreviation Duration := Z.

Definition minDuration : Duration := - 2 ^ 63.
Definition maxDuration : Duration := 2 ^ 63 - 1.

(** [time.Time{}]: January 1, year 1, 00:00:00 UTC, in nanoseconds
    relative to the Unix epoch. *)
Definition zeroTime : Time := - 62135596800 * 1000000000.

(** [t.Sub(u)]: the difference, or the minimum/maximum duration when it
    does not fit in an [int64] (package [time]). *)
Definition Time_Sub (t u : Time) : Duration :=
  Z.max minDuration (Z.min maxDuration (t - u)).

(** Two's complement wrap-around of [int64] arithmetic. *)
Definition wrap64 (z : Z) : Z := (z + 2 ^ 63) mod 2 ^ 64 - 2 ^ 63.

(** [float64(d)] for an [int64] [d]: the nearest binary64 value (ties to
    even).  [PrimFloat.of_uint63] converts 63-bit naturals; the magnitude
    [2^63] of the least [int64] is a power of two. *)
Definition float64_of_nonneg (n : Z) : float :=
  if n =? 2 ^ 63 then Z.ldexp PrimFloat.one 63
  else PrimFloat.of_uint63 (Uint63.of_Z n).

Definition float64_of_int64 (d : Z) : float :=
  if d <? 0 then PrimFloat.opp (float64_of_nonneg (- d))
  else float64_of_nonneg d.

(** ** Data model *)

(** Locations of orders and of shelves. *)
Abbreviation oref := nat.
Abbreviation sref := nat.

(** [OrderState]: the zero value [""] and the five declared constants. *)
Inductive OrderState :=
  | Uninit | Created | Ready | Enroute | PickedUp | Trashed.

Global Instance OrderState_eq_dec : EqDecision OrderState.
Proof. solve_decision. Defined.

(** The errors of the package, one constructor per message:
    - [WrongState]   "order %s in incorrect state %s, expected %s"
    - [Terminal]     "order %s was in terminal state %s, invalid transition"
    - [Expired]      "order %s expired"
    - [AtCapacity]   "failed to put order on shelf, staticShelf is at capacity %d"
    - [NotFound]     "order %s not present in shelf %s" and
                     "attempted to remove order %s that does not exist"
    - [Unsupported]  "no shelves available for this order type"
    - [NoShelf]      "failed to place order on a valid shelf"
    - [OtherErr]     any other error a caller's side effect returns. *)
Inductive Err :=
  | WrongState | Terminal | Expired | AtCapacity | NotFound
  | Unsupported | NoShelf | OtherErr (msg : string).

Global Instance Err_eq_dec : EqDecision Err.
Proof. solve_decision. Defined.

Record Order := mkOrder {
  order_id : string;
  order_name : string;
  temp : string;
  shelfLife : Duration;
  baseDecayRate : float;
  state : OrderState;
  prevDecayed : float;
  createdAt : Time;
  readyAt : Time;
  enrouteAt : Time;
  pickedUpAt : Time;
  trashedAt : Time;
  shelf : option sref;
  placedAt : Time;
  now : Time
}.

Record staticShelf := mkShelf {
  name : string;
  orders : gmap string oref;
  numOrders : Z;
  capacity : Z;
  supported : list string;
  decayRate : float
}.

Record Store := mkStore {
  order_heap : gmap oref Order;
  shelf_heap : gmap sref staticShelf
}.

Record Kitchen := mkKitchen {
  shelvesAsc : list sref;
  shelvesDesc : list sref;
  supportedIndex : gmap string (list sref);
  k_now : Time
}.

Record shelfConfig := mkShelfConfig {
  cfg_Name : string;
  cfg_Capacity : Z;
  cfg_Supported : list string;
  cfg_DecayRate : float;
  cfg_Type : string
}.

Record kitchenConfig := mkKitchenConfig {
  RunDecayMinimizer : bool;
  Topology : list shelfConfig
}.

(** The zero values [Order{}] and [staticShelf{}]. *)
Definition zeroOrder : Order :=
  mkOrder "" "" "" 0 PrimFloat.zero Uninit PrimFloat.zero
          zeroTime zeroTime zeroTime zeroTime zeroTime None zeroTime zeroTime.

Definition zeroShelf : staticShelf :=
  mkShelf "" ∅ 0 0 [] PrimFloat.zero.

(** Field updates. *)
Definition set_state (v : OrderState) (o : Order) : Order :=
  mkOrder (order_id o) (order_name o) (temp o) (shelfLife o) (baseDecayRate o)
          v (prevDecayed o) (createdAt o) (readyAt o) (enrouteAt o)
          (pickedUpAt o) (trashedAt o) (shelf o) (placedAt o) (now o).

Definition set_prevDecayed (v : float) (o : Order) : Order :=
  mkOrder (order_id o) (order_name o) (temp o) (shelfLife o) (baseDecayRate o)
          (state o) v (createdAt o) (readyAt o) (enrouteAt o)
          (pickedUpAt o) (trashedAt o) (shelf o) (placedAt o) (now o).

Definition set_createdAt (v : Time) (o : Order) : Order :=
  mkOrder (order_id o) (order_name o) (temp o) (shelfLife o) (baseDecayRate o)
          (state o) (prevDecayed o) v (readyAt o) (enrouteAt o)
          (pickedUpAt o) (trashedAt o) (shelf o) (placedAt o) (now o).

Definition set_readyAt (v : Time) (o : Order) : Order :=
  mkOrder (order_id o) (order_name o) (temp o) (shelfLife o) (baseDecayRate o)
          (state o) (prevDecayed o) (createdAt o) v (enrouteAt o)
          (pickedUpAt o) (trashedAt o) (shelf o) (placedAt o) (now o).

Definition set_enrouteAt (v : Time) (o : Order) : Order :=
  mkOrder (order_id o) (order_name o) (temp o) (shelfLife o) (baseDecayRate o)
          (state o) (prevDecayed o) (createdAt o) (readyAt o) v
          (pickedUpAt o) (trashedAt o) (shelf o) (placedAt o) (now o).

Definition set_pickedUpAt (v : Time) (o : Order) : Order :=
  mkOrder (order_id o) (order_name o) (temp o) (shelfLife o) (baseDecayRate o)
          (state o) (prevDecayed o) (createdAt o) (readyAt o) (enrouteAt o)
          v (trashedAt o) (shelf o) (placedAt o) (now o).

Definition set_trashedAt (v : Time) (o : Order) : Order :=
  mkOrder (order_id o) (order_name o) (temp o) (shelfLife o) (baseDecayRate o)
          (state o) (prevDecayed o) (createdAt o) (readyAt o) (enrouteAt o)
          (pickedUpAt o) v (shelf o) (placedAt o) (now o).

Definition set_shelf (v : option sref) (o : Order) : Order :=
  mkOrder (order_id o) (order_name o) (temp o) (shelfLife o) (baseDecayRate o)
          (state o) (prevDecayed o) (createdAt o) (readyAt o) (enrouteAt o)
          (pickedUpAt o) (trashedAt o) v (placedAt o) (now o).

Definition set_placedAt (v : Time) (o : Order) : Order :=
  mkOrder (order_id o) (order_name o) (temp o) (shelfLife o) (baseDecayRate o)
          (state o) (prevDecayed o) (createdAt o) (readyAt o) (enrouteAt o)
          (pickedUpAt o) (trashedAt o) (shelf o) v (now o).

Definition set_now (v : Time) (o : Order) : Order :=
  mkOrder (order_id o) (order_name o) (temp o) (shelfLife o) (baseDecayRate o)
          (state o) (prevDecayed o) (createdAt o) (readyAt o) (enrouteAt o)
          (pickedUpAt o) (trashedAt o) (shelf o) (placedAt o) v.

(** Heap access. *)
Definition getO (st : Store) (p : oref) : Order :=
  default zeroOrder (order_heap st !! p).

Definition setO (p : oref) (o : Order) (st : Store) : Store :=
  mkStore (<[p := o]> (order_heap st)) (shelf_heap st).

Definition getS (st : Store) (s : sref) : staticShelf :=
  default zeroShelf (shelf_heap st !! s).

Definition setS (s : sref) (sh : staticShelf) (st : Store) : Store :=
  mkStore (order_heap st) (<[s := sh]> (shelf_heap st)).

(** ** order.go *)

(** [NewOrder]; the fresh UUID and the clock reading are supplied by the
    caller. *)
Definition NewOrder (uuid name temp : string) (shelfLife : Duration)
    (decayRate : float) (clock : Time) : Order :=
  mkOrder uuid name temp shelfLife decayRate Uninit PrimFloat.zero
          zeroTime zeroTime zeroTime zeroTime zeroTime None zeroTime clock.

Definition age (o : Order) : Duration :=
  match state o with
  | PickedUp => Time_Sub (pickedUpAt o) (readyAt o)
  | Trashed => 0
  | _ => Time_Sub (now o) (readyAt o)
  end.

Definition rawValue (o : Order) : float :=
  match state o with
  | Uninit | Created | Trashed => PrimFloat.zero
  | _ => float64_of_int64 (wrap64 (shelfLife o - age o))
  end.

Definition decayed (st : Store) (o : Order) : float :=
  let decay :=
    match shelf o with
    | Some s =>
        let t := match state o with PickedUp => pickedUpAt o | _ => now o end in
        let timeAt := Time_Sub t (placedAt o) in
        PrimFloat.mul (decayRate (getS st s)) (float64_of_int64 timeAt)
    | None => PrimFloat.zero
    end in
  let decay :=
    PrimFloat.add decay
      (PrimFloat.mul (baseDecayRate o) (float64_of_int64 (age o))) in
  PrimFloat.add (prevDecayed o) decay.

Definition value (st : Store) (o : Order) : float :=
  PrimFloat.sub (rawValue o) (decayed st o).

Definition NormalizedValue (st : Store) (o : Order) : float :=
  PrimFloat.div (value st o) (float64_of_int64 (shelfLife o)).

Definition isExpired (st : Store) (o : Order) : bool :=
  match state o with
  | Uninit | Created | PickedUp | Trashed => false
  | _ => PrimFloat.leb (value st o) PrimFloat.zero
  end.

(** ** shelf.go: staticShelf *)

(** [Put(o)], with [oid = o.ID()]. *)
Definition Put (o : oref) (oid : string) (s : staticShelf)
    : option Err * staticShelf :=
  match orders s !! oid with
  | Some _ => (None, s)
  | None =>
      if capacity s <=? numOrders s then (Some AtCapacity, s)
      else (None, mkShelf (name s) (<[oid := o]> (orders s)) (numOrders s + 1)
                          (capacity s) (supported s) (decayRate s))
  end.

Definition Get (oid : string) (s : staticShelf) : option oref * option Err :=
  match orders s !! oid with
  | Some o => (Some o, None)
  | None => (None, Some NotFound)
  end.

Definition Remove (oid : string) (s : staticShelf)
    : option Err * staticShelf :=
  match orders s !! oid with
  | None => (Some NotFound, s)
  | Some _ =>
      (None, mkShelf (name s) (delete oid (orders s)) (numOrders s - 1)
                     (capacity s) (supported s) (decayRate s))
  end.

(** [Orders()]: the references held by the map, in no particular order. *)
Definition Orders (s : staticShelf) : list oref :=
  (map_to_list (orders s)).*2.

Definition NewStaticShelf (name : string) (capacity : Z)
    (supported : list string) (decayRate : float) : staticShelf :=
  mkShelf name ∅ 0 capacity supported decayRate.

(** ** order.go: mutators *)

(** [removeOrder]: credit the decay of the current shelf, take the order
    off that shelf (the error of [Remove] is dropped) and clear the
    back-reference. *)
Definition removeOrder (p : oref) (st : Store) : Store :=
  let o := getO st p in
  match shelf o with
  | Some s =>
      let timeAt := Time_Sub (now o) (placedAt o) in
      let decay :=
        PrimFloat.mul (decayRate (getS st s)) (float64_of_int64 timeAt) in
      let o1 := set_prevDecayed (PrimFloat.add (prevDecayed o) decay) o in
      let sh' := snd (Remove (order_id o) (getS st s)) in
      setO p (set_shelf None o1) (setS s sh' st)
  | None => st
  end.

Definition SetShelf (p : oref) (s : sref) (st : Store) : option Err * Store :=
  let o := getO st p in
  match Put p (order_id o) (getS st s) with
  | (Some err, _) => (Some err, st)
  | (None, sh') =>
      let st1 := removeOrder p (setS s sh' st) in
      let o1 := getO st1 p in
      (None, setO p (set_placedAt (now o1) (set_shelf (Some s) o1)) st1)
  end.

(** A side effect is a closure run on the order while the lock is held;
    it may touch anything it captured. *)
Definition SideEffect := oref → Store → option Err * Store.

Definition TransitionOrder (p : oref) (expectedState newState : OrderState)
    (sideEffect : SideEffect) (st : Store) : option Err * Store :=
  let o := getO st p in
  if negb (bool_decide (state o = expectedState)) then (Some WrongState, st)
  else
    match state o with
    | PickedUp | Trashed => (Some Terminal, st)
    | _ =>
        if isExpired st o then
          let o1 := set_trashedAt (now o) (set_state Trashed o) in
          (Some Expired, removeOrder p (setO p o1 st))
        else
          sideEffect p (setO p (set_state newState o) st)
    end.

(** ** shelf.go: the kitchen *)

(** [sort.Slice] belongs to Go's library.  It is modelled by the
    insertion sort the library runs on short slices: element [i] is
    swapped towards the front while [less] holds against its left
    neighbour.  [bubble x pre] takes the already sorted prefix in reverse
    order. *)
Fixpoint bubble {A} (less : A → A → bool) (x : A) (pre : list A) : list A :=
  match pre with
  | [] => [x]
  | y :: pre' => if less x y then y :: bubble less x pre' else x :: y :: pre'
  end.

Definition sort_Slice {A} (less : A → A → bool) (l : list A) : list A :=
  rev (fold_left (λ pre x, bubble less x pre) l []).

Definition Decay (st : Store) (s : sref) : float := decayRate (getS st s).

(** The inner loop of [optimizePlacement] over [shelf.Supported()];
    [true] stands for the [return true] of the enclosing function. *)
Fixpoint placeOnShelf (p : oref) (orderType : string)
    (currentShelf : option sref) (shelf : sref) (sup : list string)
    (st : Store) : bool * Store :=
  match sup with
  | [] => (false, st)
  | supported :: sup' =>
      if String.eqb orderType supported then
        if bool_decide (currentShelf = Some shelf) then
          placeOnShelf p orderType currentShelf shelf sup' st
        else if match currentShelf with
                | Some c => PrimFloat.leb (Decay st c) (Decay st shelf)
                | None => false
                end then
          placeOnShelf p orderType currentShelf shelf sup' st
        else
          match SetShelf p shelf st with
          | (None, st') => (true, st')
          | (Some _, st') =>
              placeOnShelf p orderType currentShelf shelf sup' st'
          end
      else placeOnShelf p orderType currentShelf shelf sup' st
  end.

(** The outer loop over the candidates. *)
Fixpoint placeLoop (p : oref) (orderType : string)
    (currentShelf : option sref) (candidates : list sref) (st : Store)
    : bool * Store :=
  match candidates with
  | [] => (false, st)
  | shelf :: candidates' =>
      match placeOnShelf p orderType currentShelf shelf
              (supported (getS st shelf)) st with
      | (true, st') => (true, st')
      | (false, st') => placeLoop p orderType currentShelf candidates' st'
      end
  end.

Definition noEffect : SideEffect := λ _ st, (None, st).

Definition optimizePlacement (p : oref) (candidates : list sref) (st : Store)
    : bool * Store :=
  let order := getO st p in
  if isExpired st order then
    (false, snd (TransitionOrder p (state order) Trashed noEffect st))
  else
    placeLoop p (temp order) (shelf order) candidates st.

(** [strings.ToLower] on ASCII letters; other bytes are kept. *)
Definition lower_ascii (c : Ascii.ascii) : Ascii.ascii :=
  let n := Ascii.nat_of_ascii c in
  if ((65 <=? n) && (n <=? 90))%nat then Ascii.ascii_of_nat (n + 32) else c.

Fixpoint ToLower (s : string) : string :=
  match s with
  | EmptyString => EmptyString
  | String c s' => String (lower_ascii c) (ToLower s')
  end.

(** Allocation of a new [staticShelf]. *)
Definition allocShelf (sh : staticShelf) (st : Store) : sref * Store :=
  let r := fresh (dom (shelf_heap st)) in (r, setS r sh st).

(** [buildShelf]: the [case "static":] clause has an empty body and Go
    does not fall through, so control leaves the switch and reaches
    [return nil]; every other type takes the [default:] clause. *)
Definition buildShelf (cfg : shelfConfig) (st : Store) : option sref * Store :=
  if String.eqb (ToLower (cfg_Type cfg)) "static" then (None, st)
  else
    let '(r, st') :=
      allocShelf (NewStaticShelf (cfg_Name cfg) (cfg_Capacity cfg)
                    (cfg_Supported cfg) (cfg_DecayRate cfg)) st in
    (Some r, st').

(** [index[supported] = append(index[supported], shelf)] for each
    supported temperature. *)
Fixpoint indexShelf (shelf : sref) (sup : list string)
    (index : gmap string (list sref)) : gmap string (list sref) :=
  match sup with
  | [] => index
  | supported :: sup' =>
      indexShelf shelf sup'
        (<[supported := default [] (index !! supported) ++ [shelf]]> index)
  end.

Fixpoint buildTopologyLoop (topology : list shelfConfig)
    (shelves : list sref) (index : gmap string (list sref)) (st : Store)
    : list sref * gmap string (list sref) * Store :=
  match topology with
  | [] => (shelves, index, st)
  | s :: topology' =>
      match buildShelf s st with
      | (None, st') => buildTopologyLoop topology' shelves index st'
      | (Some shelf, st') =>
          buildTopologyLoop topology' (shelves ++ [shelf])
            (indexShelf shelf (supported (getS st' shelf)) index) st'
      end
  end.

Definition buildTopology (cfg : kitchenConfig) (st : Store)
    : list sref * gmap string (list sref) * Store :=
  buildTopologyLoop (Topology cfg) [] ∅ st.

(** [NewKitchen], from the parsed configuration; [clock] is what
    [time.Now] returns.  The background optimizer it may start is a
    separate thread and is not part of the construction. *)
Definition NewKitchen (cfg : kitchenConfig) (clock : Time) (st : Store)
    : Kitchen * Store :=
  let '(shelves, index, st') := buildTopology cfg st in
  let shelvesAsc :=
    sort_Slice (λ a b, PrimFloat.ltb (Decay st' a) (Decay st' b)) shelves in
  let shelvesDesc :=
    sort_Slice (λ a b, PrimFloat.ltb (Decay st' b) (Decay st' a)) shelves in
  (mkKitchen shelvesAsc shelvesDesc index clock, st').

Definition GetOrders (k : Kitchen) (st : Store) : list oref :=
  concat (map (λ s, Orders (getS st s)) (shelvesAsc k)).

(** [SetOrderReady].  [supported] shares its backing array with the
    slice stored in the index, so sorting it in place reorders the
    stored list as well. *)
Definition SetOrderReady (k : Kitchen) (p : oref) (st : Store)
    : option Err * Kitchen * Store :=
  match supportedIndex k !! temp (getO st p) with
  | None =>
      let st' :=
        snd (TransitionOrder p Created Trashed
               (λ o s,
                  let s1 :=
                    setO o (set_trashedAt (k_now k)
                              (set_state Trashed (getO s o))) s in
                  (None, removeOrder p s1)) st) in
      (Some Unsupported, k, st')
  | Some supported =>
      let supported :=
        sort_Slice (λ a b, PrimFloat.ltb (Decay st a) (Decay st b)) supported in
      let k' :=
        mkKitchen (shelvesAsc k) (shelvesDesc k)
          (<[temp (getO st p) := supported]> (supportedIndex k)) (k_now k) in
      match optimizePlacement p supported st with
      | (true, st1) =>
          let st2 :=
            snd (TransitionOrder p Created Ready
                   (λ o s, (None, setO o (set_readyAt (k_now k) (getO s o)) s))
                   st1) in
          (None, k', st2)
      | (false, st1) =>
          let st2 :=
            snd (TransitionOrder p Created Trashed
                   (λ o s,
                      let s1 :=
                        setO o (set_trashedAt (k_now k) (getO s o)) s in
                      (None, removeOrder p s1)) st1) in
          (Some NoShelf, k', st2)
      end
  end.

Definition CreateOrder (k : Kitchen) (p : oref) (st : Store)
    : option Err * Kitchen * Store :=
  let st1 :=
    snd (TransitionOrder p Uninit Created
           (λ o s, (None, setO o (set_createdAt (k_now k) (getO s o)) s)) st) in
  SetOrderReady k p st1.

Definition SetOrderEnroute (k : Kitchen) (p : oref) (st : Store)
    : option Err * Store :=
  TransitionOrder p Ready Enroute
    (λ o s, (None, setO o (set_enrouteAt (k_now k) (getO s o)) s)) st.

Definition SetOrderPickedUp (k : Kitchen) (p : oref) (st : Store)
    : option Err * Store :=
  TransitionOrder p Enroute PickedUp
    (λ o s,
       let s1 := setO o (set_pickedUpAt (k_now k) (getO s o)) s in
       (None, removeOrder p s1)) st.

(** ** Auxiliary notions *)

(** What [removeOrder] leaves in the order. *)
Definition detached (st : Store) (o : Order) : Order :=
  match shelf o with
  | Some s =>
      set_shelf None
        (set_prevDecayed
           (PrimFloat.add (prevDecayed o)
              (PrimFloat.mul (decayRate (getS st s))
                 (float64_of_int64 (Time_Sub (now o) (placedAt o))))) o)
  | None => o
  end.

(** The counter agrees with the map and the map fits the capacity. *)
Definition shelfInv (s : staticShelf) : Prop :=
  numOrders s = Z.of_nat (size (orders s)) ∧
  Z.of_nat (size (orders s)) ≤ capacity s.

(** The guard of one attempt: the candidate is not the current shelf
    and the current shelf, if any, is not at most as fast-decaying. *)
Definition improves (st : Store) (cur : option sref) (s : sref) : Prop :=
  cur ≠ Some s ∧
  ∀ c, cur = Some c → PrimFloat.leb (Decay st c) (Decay st s) = false.

(** Shelf [s] is listed under temperature [t]. *)
Definition indexed (index : gmap string (list sref)) (t : string) (s : sref)
    : Prop :=
  ∃ l, index !! t = Some l ∧ s ∈ l.

(** What the loop of [buildTopology] maintains: the shelves built so far
    are allocated, the index lists exactly the built shelves under the
    temperatures they support, and no list of the index is empty. *)
Definition topologyInv (shelves : list sref)
    (index : gmap string (list sref)) (st : Store) : Prop :=
  (∀ s, s ∈ shelves → is_Some (shelf_heap st !! s)) ∧
  (∀ t s, indexed index t s ↔ s ∈ shelves ∧ t ∈ supported (getS st s)) ∧
  (∀ t l, index !! t = Some l → l ≠ []).

(** ** Reachable histories and the shelf/state relation *)

(** The operations a collaborator can apply to an order. *)
Inductive KitchenOp :=
  | OpCreateOrder (p : oref)
  | OpSetOrderReady (p : oref)
  | OpSetOrderEnroute (p : oref)
  | OpSetOrderPickedUp (p : oref)
  | OpTransitionOrder (p : oref) (expected next : OrderState) (eff : SideEffect)
  | OpSetShelf (p : oref) (s : sref).

Definition stepOp (op : KitchenOp) (w : Kitchen * Store) : Kitchen * Store :=
  let '(k, st) := w in
  match op with
  | OpCreateOrder p => let r := CreateOrder k p st in (r.1.2, r.2)
  | OpSetOrderReady p => let r := SetOrderReady k p st in (r.1.2, r.2)
  | OpSetOrderEnroute p => (k, (SetOrderEnroute k p st).2)
  | OpSetOrderPickedUp p => (k, (SetOrderPickedUp k p st).2)
  | OpTransitionOrder p e n eff => (k, (TransitionOrder p e n eff st).2)
  | OpSetShelf p s => (k, (SetShelf p s st).2)
  end.

Definition runOps (ops : list KitchenOp) (w : Kitchen * Store)
    : Kitchen * Store :=
  fold_left (λ w op, stepOp op w) ops w.

Definition isActive (s : OrderState) : bool :=
  match s with Ready | Enroute => true | _ => false end.

Definition isTerminal (s : OrderState) : bool :=
  match s with PickedUp | Trashed => true | _ => false end.

(** [shelf ≠ nil ⇔ state ∈ {Ready, Enroute}]. *)
Definition shelfIffActive (o : Order) : bool :=
  Bool.eqb (bool_decide (is_Some (shelf o))) (isActive (state o)).

(** The lifecycle operations applied where the state machine expects
    them: [CreateOrder] on an order that is not finished, [SetOrderReady]
    on a created, ready or enroute order, [SetOrderEnroute] and
    [SetOrderPickedUp] anywhere; the two primitives of [Order] are not
    lifecycle operations. *)
Definition lifecycleOp (st : Store) (op : KitchenOp) : bool :=
  match op with
  | OpCreateOrder p => negb (isTerminal (state (getO st p)))
  | OpSetOrderReady p =>
      match state (getO st p) with
      | Created | Ready | Enroute => true
      | _ => false
      end
  | OpSetOrderEnroute _ | OpSetOrderPickedUp _ => true
  | OpTransitionOrder _ _ _ _ | OpSetShelf _ _ => false
  end.

Fixpoint lifecycleRun (ops : list KitchenOp) (w : Kitchen * Store) : bool :=
  match ops with
  | [] => true
  | op :: ops' => lifecycleOp w.2 op && lifecycleRun ops' (stepOp op w)
  end.

(** Operations on one shelf, and a run of them. *)
Inductive ShelfOp :=
  | OpPut (o : oref) (oid : string)
  | OpRemove (oid : string).

Definition stepShelf (s : staticShelf) (op : ShelfOp) : staticShelf :=
  match op with
  | OpPut o oid => (Put o oid s).2
  | OpRemove oid => (Remove oid s).2
  end.

Definition runShelf (ops : list ShelfOp) (s : staticShelf) : staticShelf :=
  fold_left stepShelf ops s.

(** ** Concrete scenarios (from the package's tests) *)

Definition second : Duration := 1000000000.
Definition clock0 : Time := 1700000000 * second.
Definition emptyStore : Store := mkStore ∅ ∅.

(** The topology of [TestKitchenPlacement]: three one-slot shelves for
    hot orders, listed from worst to best decay. *)
Definition placementConfig : kitchenConfig :=
  mkKitchenConfig false
    [ mkShelfConfig "bad" 1 ["hot"] 1%float "";
      mkShelfConfig "good" 1 ["hot"] 0.5%float "";
      mkShelfConfig "best" 1 ["hot"] 0%float "" ].

Definition placementKitchen : Kitchen * Store :=
  NewKitchen placementConfig clock0 emptyStore.

(** Three hot orders, allocated at locations 0, 1 and 2. *)
Definition placementStart : Kitchen * Store :=
  let o i n := NewOrder i n "hot" (100 * second) 0.25%float clock0 in
  (placementKitchen.1,
   setO 2%nat (o "id3" "test3")
     (setO 1%nat (o "id2" "test2")
        (setO 0%nat (o "id1" "test1") placementKitchen.2))).

(** All three created (and so made ready). *)
Definition placementReady : Kitchen * Store :=
  runOps [OpCreateOrder 0%nat; OpCreateOrder 1%nat; OpCreateOrder 2%nat]
    placementStart.

(** The first order is delivered. *)
Definition placementDelivered : Kitchen * Store :=
  runOps [OpSetOrderEnroute 0%nat; OpSetOrderPickedUp 0%nat] placementReady.

(** Ten minutes later on every order's clock. *)
Definition advance (d : Duration) (st : Store) : Store :=
  mkStore ((λ o, set_now (now o + d) o) <$> order_heap st) (shelf_heap st).

Definition placementLater : Kitchen * Store :=
  (placementReady.1, advance (600 * second) placementReady.2).

(** The first step of [CreateOrder] alone: the order enters [Created]. *)
Definition markCreated (k : Kitchen) (p : oref) (st : Store) : Store :=
  (TransitionOrder p Uninit Created
     (λ o s, (None, setO o (set_createdAt (k_now k) (getO s o)) s)) st).2.

(** The first order created but not yet placed. *)
Definition placementCreated : Kitchen * Store :=
  (placementStart.1, markCreated placementStart.1 0%nat placementStart.2).

(** All shelves full; a fourth hot order and a frozen one arrive. *)
Definition placementFull : Kitchen * Store :=
  let k := placementReady.1 in
  let st :=
    setO 4%nat (NewOrder "id5" "test5" "frozen" (100 * second) 0.25%float clock0)
      (setO 3%nat (NewOrder "id4" "test4" "hot" (100 * second) 0.25%float clock0)
         placementReady.2) in
  (k, markCreated k 4%nat (markCreated k 3%nat st)).

(** The topology of [TestKitchenConstructor] with the documented shelf
    type written out. *)
Definition staticConfig : kitchenConfig :=
  mkKitchenConfig false
    [ mkShelfConfig "hot" 1 ["hot"] 1%float "static";
      mkShelfConfig "cold" 1 ["cold"] 0.5%float "static" ].

(** The same topology with the type left out, as in the tests. *)
Definition untypedConfig : kitchenConfig :=
  mkKitchenConfig false
    [ mkShelfConfig "hot" 1 ["hot"] 1%float "";
      mkShelfConfig "cold" 1 ["cold"] 0.5%float "" ].

(** ** Relations between kitchens *)

(** Two index entries hold the same shelves, in any order. *)
Definition sameShelves (a b : option (list sref)) : Prop :=
  match a, b with
  | Some l, Some l' => l ≡ₚ l'
  | None, None => True
  | _, _ => False
  end.

(** The kitchen fields agree except for the order inside the lists of
    the index. *)
Definition sameTopology (k k' : Kitchen) : Prop :=
  shelvesAsc k' = shelvesAsc k ∧
  shelvesDesc k' = shelvesDesc k ∧
  k_now k' = k_now k ∧
  ∀ t, sameShelves (supportedIndex k !! t) (supportedIndex k' !! t).

(** ** shelf.go: the slice built by [Orders] *)

(** The loop of [Orders]: [orders[count] = v; count++] for each value of
    the map.  A write past the end of the slice panics ([None]). *)
Fixpoint fillSlice (vs : list oref) (count : nat)
    (slice : list (option oref)) : option (list (option oref)) :=
  match vs with
  | [] => Some slice
  | v :: vs' =>
      if decide (count < length slice)%nat
      then fillSlice vs' (S count) (<[count := Some v]> slice)
      else None
  end.

(** [Orders()] as written: a slice of [numOrders] nil pointers (a
    negative length panics) filled from the map. *)
Definition OrdersSlice (s : staticShelf) : option (list (option oref)) :=
  if numOrders s <? 0 then None
  else fillSlice (map_to_list (orders s)).*2 0
         (replicate (Z.to_nat (numOrders s)) None).

(** ** The state machine *)

(** The edges of the order state machine. *)
Inductive legalStep : OrderState → OrderState → Prop :=
  | step_create : legalStep Uninit Created
  | step_ready : legalStep Created Ready
  | step_enroute : legalStep Ready Enroute
  | step_pickup : legalStep Enroute PickedUp
  | step_trash_created : legalStep Created Trashed
  | step_trash_ready : legalStep Ready Trashed
  | step_trash_enroute : legalStep Enroute Trashed.

(** Operations of the kitchen and [SetShelf]; [TransitionOrder] with a
    caller's own target state and side effect is left out. *)
Definition isKitchenOp (op : KitchenOp) : bool :=
  match op with
  | OpTransitionOrder _ _ _ _ => false
  | _ => true
  end.

(** ** Construction and placement: auxiliary notions *)

(** The shelf a descriptor describes. *)
Definition shelfOf (c : shelfConfig) : staticShelf :=
  NewStaticShelf (cfg_Name c) (cfg_Capacity c) (cfg_Supported c)
    (cfg_DecayRate c).

(** The descriptors [buildShelf] builds a shelf for. *)
Definition isBuilt (c : shelfConfig) : Prop :=
  ToLower (cfg_Type c) ≠ "static".

(** A candidate on which [optimizePlacement] attempts [SetShelf] and
    succeeds: it supports the temperature, passes the two guards and its
    [Put] accepts the order. *)
Definition eligible (st : Store) (p : oref) (s : sref) : Prop :=
  temp (getO st p) ∈ supported (getS st s) ∧
  improves st (shelf (getO st p)) s ∧
  (Put p (order_id (getO st p)) (getS st s)).1 = None.

(** Every shelf of [st'] is the shelf of [st] after some [Put]s and
    [Remove]s. *)
Definition shelvesEvolve (st st' : Store) : Prop :=
  ∀ s, ∃ sops, getS st' s = runShelf sops (getS st s).

(** ** Consistency of the back-references *)

Definition allocated (st : Store) (q : oref) : Prop :=
  is_Some (order_heap st !! q).

(** The shelves' maps and the orders' back-references agree: an entry
    of a shelf's map is stored under the id of the order it points to
    and that order refers back to the shelf; an order that refers to a
    shelf is in that shelf's map under its id; and the allocated orders
    have distinct ids. *)
Definition consistent (st : Store) : Prop :=
  (∀ s oid q, orders (getS st s) !! oid = Some q →
              order_id (getO st q) = oid ∧ shelf (getO st q) = Some s) ∧
  (∀ q s, shelf (getO st q) = Some s →
          orders (getS st s) !! order_id (getO st q) = Some q) ∧
  (∀ q q', allocated st q → allocated st q' →
           order_id (getO st q) = order_id (getO st q') → q = q').

(** What a step on order [p] does to the store: the same orders are
    allocated, ids are kept, the other orders keep their shelf, and the
    id of [p] is in the map of the shelf [p] now refers to and in no
    other. *)
Definition relocates (p : oref) (st st' : Store) : Prop :=
  (∀ q, allocated st' q ↔ allocated st q) ∧
  (∀ q, order_id (getO st' q) = order_id (getO st q)) ∧
  (∀ q, q ≠ p → shelf (getO st' q) = shelf (getO st q)) ∧
  (∀ x, orders (getS st' x) =
        if decide (shelf (getO st' p) = Some x)
        then <[order_id (getO st p) := p]> (orders (getS st x))
        else delete (order_id (getO st p)) (orders (getS st x))).

(** A step on the allocated order [p] keeps the store consistent and
    allocates nothing. *)
Definition keepsConsistent (p : oref) (st st' : Store) : Prop :=
  consistent st → allocated st p →
  consistent st' ∧ ∀ q, allocated st' q ↔ allocated st q.

(** The four operations of the kitchen on an order. *)
Definition isLifecycleOp (op : KitchenOp) : bool :=
  match op with
  | OpCreateOrder _ | OpSetOrderReady _
  | OpSetOrderEnroute _ | OpSetOrderPickedUp _ => true
  | _ => false
  end.

Definition opOrder (op : KitchenOp) : oref :=
  match op with
  | OpCreateOrder p | OpSetOrderReady p | OpSetOrderEnroute p
  | OpSetOrderPickedUp p | OpTransitionOrder p _ _ _ | OpSetShelf p _ => p
  end.

(** ** shelf.go: [GetOrder] *)

(** [GetOrder] starts one [getOrder] goroutine per shelf of
    [shelvesAsc]; each sends the result of [shelf.Get] (an order or nil)
    on a channel, and the receiving loop returns the first order that is
    not nil, or nil once every shelf has answered nil.  [arrival] is the
    order in which the answers are received, a rearrangement of
    [shelvesAsc] chosen by the scheduler. *)
Fixpoint GetOrder (arrival : list sref) (orderID : string) (st : Store)
    : option oref :=
  match arrival with
  | [] => None
  | s :: arrival' =>
      match (Get orderID (getS st s)).1 with
      | Some o => Some o
      | None => GetOrder arrival' orderID st
      end
  end.

(** ** server: the HTTP handlers *)

(** The handlers of package [server], as functions of the decoded
    request; the answer is the status code.  [json.Marshal] rejects a
    response with a float that is NaN or infinite. *)

Record CreateOrderRequest := mkCreateOrderRequest {
  req_Name : string;
  req_Temp : string;
  req_ShelfLife : float;
  req_DecayRate : float
}.

Record OrderResponse := mkOrderResponse {
  resp_OrderID : string;
  resp_Name : string;
  resp_ShelfLife : float;
  resp_State : string;
  resp_Shelf : string;
  resp_Value : float;
  resp_NormalValue : float;
  resp_Decay : float;
  resp_Age : float
}.

(** [string(order.State())]. *)
Definition stateString (s : OrderState) : string :=
  match s with
  | Uninit => ""
  | Created => "created"
  | Ready => "ready"
  | Enroute => "enroute"
  | PickedUp => "pickedup"
  | Trashed => "trashed"
  end.

(** Durations are divided by [time.Second] as integers (truncating),
    values as floats. *)
Definition orderToOrderResponse (st : Store) (p : oref) : OrderResponse :=
  let order := getO st p in
  let shelfName :=
    match shelf order with
    | Some s => name (getS st s)
    | None => ""
    end in
  mkOrderResponse (order_id order) (order_name order)
    (float64_of_int64 (Z.quot (shelfLife order) second))
    (stateString (state order)) shelfName
    (PrimFloat.div (value st order) (float64_of_int64 second))
    (NormalizedValue st order)
    (PrimFloat.div (decayed st order) (float64_of_int64 second))
    (float64_of_int64 (Z.quot (age order) second)).

Definition marshals (r : OrderResponse) : bool :=
  PrimFloat.is_finite (resp_ShelfLife r) &&
  PrimFloat.is_finite (resp_Value r) &&
  PrimFloat.is_finite (resp_NormalValue r) &&
  PrimFloat.is_finite (resp_Decay r) &&
  PrimFloat.is_finite (resp_Age r).

Definition writeOrderResponse (st : Store) (p : oref) : nat :=
  if marshals (orderToOrderResponse st p) then 200%nat else 500%nat.

Definition GetOrderHandler (arrival : list sref) (id : string) (st : Store)
    : nat :=
  match GetOrder arrival id st with
  | None => 404%nat
  | Some order => writeOrderResponse st order
  end.

(** [body] is the decoded [UpdateOrderRequest.State], [None] when the
    body does not decode.  A state that is none of the three names
    falls through every test and the handler writes nothing, which
    net/http answers with status 200. *)
Definition UpdateOrderHandler (arrival : list sref) (k : Kitchen)
    (id : string) (body : option string) (st : Store)
    : nat * Kitchen * Store :=
  match body with
  | None => (400%nat, k, st)
  | Some reqState =>
      match GetOrder arrival id st with
      | None => (404%nat, k, st)
      | Some order =>
          if String.eqb (ToLower reqState) "ready" then
            let r := SetOrderReady k order st in
            match r.1.1 with
            | Some _ => (500%nat, r.1.2, r.2)
            | None => (writeOrderResponse r.2 order, r.1.2, r.2)
            end
          else if String.eqb (ToLower reqState) "enroute" then
            let r := SetOrderEnroute k order st in
            match r.1 with
            | Some _ => (500%nat, k, r.2)
            | None => (writeOrderResponse r.2 order, k, r.2)
            end
          else if String.eqb (ToLower reqState) "pickedup" then
            let r := SetOrderPickedUp k order st in
            match r.1 with
            | Some _ => (500%nat, k, r.2)
            | None => (writeOrderResponse r.2 order, k, r.2)
            end
          else (200%nat, k, st)
      end
  end.

Section CreateOrderHandler.

(** [time.Duration(x)] for a [float64] [x]: truncation when the result
    fits an [int64], left to the implementation otherwise. *)
Variable duration_of_float64 : float → Z.

(** [body] is the decoded [CreateOrderRequest]; [uuid] is what
    [uuid.New()] returns.  The order is allocated at a new location and
    its clock, like the kitchen's, is the wall clock. *)
Definition CreateOrderHandler (k : Kitchen)
    (body : option CreateOrderRequest) (uuid : string) (st : Store)
    : nat * Kitchen * Store :=
  match body with
  | None => (400%nat, k, st)
  | Some req =>
      let p := fresh (dom (order_heap st)) in
      let order :=
        NewOrder uuid (req_Name req) (req_Temp req)
          (wrap64 (duration_of_float64 (req_ShelfLife req) * second))
          (req_DecayRate req) (k_now k) in
      let r := CreateOrder k p (setO p order st) in
      match r.1.1 with
      | Some _ => (500%nat, r.1.2, r.2)
      | None => (200%nat, r.1.2, r.2)
      end
  end.

(** What reaches the server: the two requests that change the kitchen,
    and the passing of time. *)
Inductive Event :=
  | EvCreate (body : option CreateOrderRequest) (uuid : string)
  | EvUpdate (arrival : list sref) (id : string) (body : option string)
  | EvTick (d : Duration).

Definition tick (d : Duration) (w : Kitchen * Store) : Kitchen * Store :=
  (mkKitchen (shelvesAsc w.1) (shelvesDesc w.1) (supportedIndex w.1)
     (k_now w.1 + d),
   advance d w.2).

Definition serve (ev : Event) (w : Kitchen * Store) : Kitchen * Store :=
  match ev with
  | EvCreate body uuid =>
      let r := CreateOrderHandler w.1 body uuid w.2 in (r.1.2, r.2)
  | EvUpdate arrival id body =>
      let r := UpdateOrderHandler arrival w.1 id body w.2 in (r.1.2, r.2)
  | EvTick d => tick d w
  end.

Definition serveAll (evs : list Event) (w : Kitchen * Store)
    : Kitchen * Store :=
  fold_left (λ w ev, serve ev w) evs w.

(** Every created order receives an id no allocated order has. *)
Fixpoint freshIds (evs : list Event) (w : Kitchen * Store) : Prop :=
  match evs with
  | [] => True
  | ev :: evs' =>
      match ev with
      | EvCreate _ uuid =>
          ∀ q, allocated w.2 q → order_id (getO w.2 q) ≠ uuid
      | _ => True
      end ∧ freshIds evs' (serve ev w)
  end.

End CreateOrderHandler.

(** The three invariants of a store together. *)
Definition sound (st : Store) : Prop :=
  consistent st ∧
  (∀ q, shelfIffActive (getO st q) = true) ∧
  (∀ s, shelfInv (getS st s)).

(** ** shelf.go: [decayMinimizer] *)

(** One pass of the background optimizer.  For each shelf of
    [shelvesDesc] it takes the shelf's orders, sorts them by decreasing
    decay, starts one [optimizePlacement] over [shelvesAsc] per order
    and waits for all of them before it turns to the next shelf.  The
    calls for one shelf are goroutines: each call is taken as one step
    here, and [sched] gives the order in which the calls started for a
    shelf take their step. *)
Definition wave (k : Kitchen) (orders : list oref) (st : Store) : Store :=
  fold_left (λ st o, (optimizePlacement o (shelvesAsc k) st).2) orders st.

Definition decayMinimizer (sched : list oref → list oref) (k : Kitchen)
    (st : Store) : Store :=
  fold_left
    (λ st shelf,
       let orders :=
         sort_Slice
           (λ a b, PrimFloat.ltb (decayed st (getO st b))
                                 (decayed st (getO st a)))
           (Orders (getS st shelf)) in
       wave k (sched orders) st)
    (shelvesDesc k) st.

(** * Properties *)

(** ** The store *)

Lemma getO_Some st p o : order_heap st !! p = Some o → getO st p = o.
Proof. unfold getO. by intros ->. Qed.

Lemma getS_Some st s sh : shelf_heap st !! s = Some sh → getS st s = sh.
Proof. unfold getS. by intros ->. Qed.

Lemma getO_setO st p o : getO (setO p o st) p = o.
Proof. unfold getO, setO; simpl. by rewrite lookup_insert_eq. Qed.

Lemma getO_setO_ne st p q o : p ≠ q → getO (setO p o st) q = getO st q.
Proof. intros. unfold getO, setO; simpl. by rewrite lookup_insert_ne. Qed.

Lemma getO_setS st s sh p : getO (setS s sh st) p = getO st p.
Proof. done. Qed.

Lemma getS_setO st p o s : getS (setO p o st) s = getS st s.
Proof. done. Qed.

Lemma getS_setS st s sh : getS (setS s sh st) s = sh.
Proof. unfold getS, setS; simpl. by rewrite lookup_insert_eq. Qed.

Lemma getS_setS_ne st s s' sh : s ≠ s' → getS (setS s sh st) s' = getS st s'.
Proof. intros. unfold getS, setS; simpl. by rewrite lookup_insert_ne. Qed.

Lemma lookup_setO st p o : order_heap (setO p o st) !! p = Some o.
Proof. unfold setO; simpl. by rewrite lookup_insert_eq. Qed.

(** ** Shelves *)

Lemma Remove_orders oid s :
  orders (Remove oid s).2 = delete oid (orders s).
Proof.
  unfold Remove. destruct (orders s !! oid) eqn:E; simpl; [done|].
  by rewrite delete_id.
Qed.

Lemma Remove_static oid s :
  name (Remove oid s).2 = name s ∧ capacity (Remove oid s).2 = capacity s ∧
  supported (Remove oid s).2 = supported s ∧
  decayRate (Remove oid s).2 = decayRate s.
Proof. unfold Remove. by destruct (orders s !! oid). Qed.

Lemma Put_static o oid s :
  name (Put o oid s).2 = name s ∧ capacity (Put o oid s).2 = capacity s ∧
  supported (Put o oid s).2 = supported s ∧
  decayRate (Put o oid s).2 = decayRate s.
Proof.
  unfold Put. destruct (orders s !! oid); [done|].
  by destruct (capacity s <=? numOrders s).
Qed.

Lemma Put_error o oid s e : (Put o oid s).1 = Some e → (Put o oid s).2 = s.
Proof.
  unfold Put. destruct (orders s !! oid); [done|].
  by destruct (capacity s <=? numOrders s).
Qed.

Lemma Put_ok_lookup o oid s :
  (Put o oid s).1 = None → is_Some (orders (Put o oid s).2 !! oid).
Proof.
  unfold Put. destruct (orders s !! oid) eqn:E; simpl.
  - intros _. rewrite E. by eexists.
  - destruct (capacity s <=? numOrders s); simpl; [done|].
    intros _. rewrite lookup_insert_eq. by eexists.
Qed.

(** ** Orders: [removeOrder] and [SetShelf] *)

Lemma removeOrder_order st p : getO (removeOrder p st) p = detached st (getO st p).
Proof.
  unfold removeOrder, detached. destruct (shelf (getO st p)); [|done].
  by rewrite getO_setO.
Qed.

Lemma removeOrder_other st p q : p ≠ q → getO (removeOrder p st) q = getO st q.
Proof.
  intros. unfold removeOrder. destruct (shelf (getO st p)); [|done].
  by rewrite getO_setO_ne.
Qed.

Lemma removeOrder_shelf st p s :
  shelf (getO st p) = Some s →
  getS (removeOrder p st) s = (Remove (order_id (getO st p)) (getS st s)).2.
Proof.
  intros E. unfold removeOrder. rewrite E.
  by rewrite getS_setO, getS_setS.
Qed.

Lemma removeOrder_shelf_ne st p s :
  shelf (getO st p) ≠ Some s → getS (removeOrder p st) s = getS st s.
Proof.
  intros E. unfold removeOrder. destruct (shelf (getO st p)) as [c|]; [|done].
  rewrite getS_setO, getS_setS_ne; [done|congruence].
Qed.

Lemma removeOrder_unshelved st p :
  shelf (getO st p) = None → removeOrder p st = st.
Proof. intros E. unfold removeOrder. by rewrite E. Qed.

Lemma detached_fields st o :
  shelf (detached st o) = None ∧ state (detached st o) = state o ∧
  order_id (detached st o) = order_id o ∧ temp (detached st o) = temp o ∧
  now (detached st o) = now o ∧ trashedAt (detached st o) = trashedAt o ∧
  readyAt (detached st o) = readyAt o ∧ pickedUpAt (detached st o) = pickedUpAt o.
Proof. unfold detached. by destruct (shelf o) eqn:E. Qed.

Lemma removeOrder_decay st p s : Decay (removeOrder p st) s = Decay st s.
Proof.
  unfold Decay. destruct (decide (shelf (getO st p) = Some s)) as [E|E].
  - rewrite (removeOrder_shelf _ _ _ E). apply Remove_static.
  - by rewrite removeOrder_shelf_ne.
Qed.

Lemma SetShelf_error st p s e :
  (Put p (order_id (getO st p)) (getS st s)).1 = Some e →
  SetShelf p s st = (Some e, st).
Proof.
  unfold SetShelf. destruct (Put _ _ _) as [[e'|] sh']; simpl; congruence.
Qed.

Lemma SetShelf_ok st p s :
  (Put p (order_id (getO st p)) (getS st s)).1 = None →
  let st1 := setS s (Put p (order_id (getO st p)) (getS st s)).2 st in
  SetShelf p s st =
    (None, setO p (set_placedAt (now (getO st p))
                     (set_shelf (Some s) (detached st1 (getO st p))))
             (removeOrder p st1)).
Proof.
  unfold SetShelf. destruct (Put _ _ _) as [[e'|] sh']; simpl; [done|].
  intros _. rewrite removeOrder_order, getO_setS.
  by destruct (detached_fields (setS s sh' st) (getO st p)) as (_&_&_&_&->&_).
Qed.

Lemma SetShelf_cases st p s :
  (∃ e, SetShelf p s st = (Some e, st)) ∨
  (∃ st', SetShelf p s st = (None, st') ∧
          shelf (getO st' p) = Some s ∧
          state (getO st' p) = state (getO st p) ∧
          temp (getO st' p) = temp (getO st p) ∧
          order_id (getO st' p) = order_id (getO st p) ∧
          now (getO st' p) = now (getO st p) ∧
          (∀ q, p ≠ q → getO st' q = getO st q)).
Proof.
  destruct (Put p (order_id (getO st p)) (getS st s)).1 as [e|] eqn:E.
  - left. exists e. by apply SetShelf_error.
  - right. eexists. split; [by apply SetShelf_ok|].
    rewrite getO_setO; simpl.
    set (st1 := setS s _ st).
    destruct (detached_fields st1 (getO st p)) as (_&?&?&?&?&_).
    repeat split; try done.
    intros q Hq. rewrite getO_setO_ne, removeOrder_other by done. done.
Qed.

(** ** [TransitionOrder] *)

Lemma TransitionOrder_mismatch p expected next eff st :
  state (getO st p) ≠ expected →
  TransitionOrder p expected next eff st = (Some WrongState, st).
Proof.
  intros H. unfold TransitionOrder.
  by rewrite (bool_decide_eq_false_2 _ H).
Qed.

Lemma TransitionOrder_terminal p next eff st :
  isTerminal (state (getO st p)) = true →
  TransitionOrder p (state (getO st p)) next eff st = (Some Terminal, st).
Proof.
  intros H. unfold TransitionOrder.
  rewrite bool_decide_eq_true_2 by done; simpl.
  by destruct (state (getO st p)).
Qed.

Lemma TransitionOrder_hijack p next eff st :
  isExpired st (getO st p) = true →
  TransitionOrder p (state (getO st p)) next eff st =
    (Some Expired,
     removeOrder p
       (setO p (set_trashedAt (now (getO st p))
                  (set_state Trashed (getO st p))) st)).
Proof.
  intros H. unfold TransitionOrder.
  rewrite bool_decide_eq_true_2 by done; simpl. rewrite H.
  unfold isExpired in H. by destruct (state (getO st p)).
Qed.

Lemma TransitionOrder_proceed p next eff st :
  isTerminal (state (getO st p)) = false →
  isExpired st (getO st p) = false →
  TransitionOrder p (state (getO st p)) next eff st =
    eff p (setO p (set_state next (getO st p)) st).
Proof.
  intros Ht He. unfold TransitionOrder.
  rewrite bool_decide_eq_true_2 by done; simpl. rewrite He.
  by destruct (state (getO st p)).
Qed.

(** C10.  A transition whose expected state is not the order's state
    fails with [WrongState] and changes nothing.  The terminal-state test
    comes second, so (for side effects that do not themselves return
    that error) [Terminal] is only returned when the expected state is
    the order's own terminal state; [SetOrderEnroute] and
    [SetOrderPickedUp], which expect [Ready] and [Enroute], answer
    [WrongState] on a picked-up or trashed order. *)
Theorem TransitionOrder_wrong_state (p : oref) (o : Order) (st : Store) :
  order_heap st !! p = Some o →
  (∀ expected next eff,
     state o ≠ expected →
     TransitionOrder p expected next eff st = (Some WrongState, st)) ∧
  (∀ expected next eff,
     (∀ q s, (eff q s).1 ≠ Some Terminal) →
     (TransitionOrder p expected next eff st).1 = Some Terminal →
     expected = state o ∧ (expected = PickedUp ∨ expected = Trashed)) ∧
  (∀ k,
     state o = PickedUp ∨ state o = Trashed →
     SetOrderEnroute k p st = (Some WrongState, st) ∧
     SetOrderPickedUp k p st = (Some WrongState, st)).
Proof.
  intros Ho. apply getO_Some in Ho. split; [|split].
  - intros expected next eff Hne. apply TransitionOrder_mismatch. by rewrite Ho.
  - intros expected next eff Heff. unfold TransitionOrder. rewrite Ho.
    case_bool_decide as Hs; simpl; [|done]. subst expected.
    destruct (state o) eqn:Es; try (intros; split; [done|]; auto; fail);
      (destruct (isExpired st o); simpl; [done|]; intros Hc; by apply Heff in Hc).
  - intros k Hs. unfold SetOrderEnroute, SetOrderPickedUp.
    split; apply TransitionOrder_mismatch; rewrite Ho;
      destruct Hs as [-> | ->]; done.
Qed.

Lemma TransitionOrder_wrong_state_witness :
  SetOrderEnroute placementDelivered.1 0%nat placementDelivered.2
    = (Some WrongState, placementDelivered.2) ∧
  SetOrderPickedUp placementDelivered.1 0%nat placementDelivered.2
    = (Some WrongState, placementDelivered.2).
Proof.
  refine (proj2 (proj2 (TransitionOrder_wrong_state 0%nat
            (getO placementDelivered.2 0%nat) placementDelivered.2 _))
            placementDelivered.1 _).
  - vm_compute. reflexivity.
  - left. vm_compute. reflexivity.
Defined.

(** C1.  When the order is in the expected state and expired at the
    call, [TransitionOrder] returns [Expired] and the order ends
    [Trashed] with [trashedAt] the clock reading, no shelf, and the decay
    of the shelf it was on credited to [prevDecayed]; it is gone from
    that shelf's map.  Neither [next] nor the side effect is used, every
    other shelf and every other order is as before. *)
Theorem TransitionOrder_expired (p : oref) (o : Order) (st : Store)
    (expected next : OrderState) (eff : SideEffect) :
  order_heap st !! p = Some o →
  state o = expected →
  isExpired st o = true →
  let r := TransitionOrder p expected next eff st in
  let o' := detached st (set_trashedAt (now o) (set_state Trashed o)) in
  r.1 = Some Expired ∧
  order_heap r.2 !! p = Some o' ∧
  state o' = Trashed ∧ trashedAt o' = now o ∧ shelf o' = None ∧
  prevDecayed o' =
    match shelf o with
    | Some s =>
        PrimFloat.add (prevDecayed o)
          (PrimFloat.mul (decayRate (getS st s))
             (float64_of_int64 (Time_Sub (now o) (placedAt o))))
    | None => prevDecayed o
    end ∧
  (∀ s, shelf o = Some s →
        orders (getS r.2 s) = delete (order_id o) (orders (getS st s)) ∧
        orders (getS r.2 s) !! order_id o = None) ∧
  (∀ s, shelf o ≠ Some s → getS r.2 s = getS st s) ∧
  (∀ q, p ≠ q → getO r.2 q = getO st q).
Proof.
  intros Ho <- He. apply getO_Some in Ho. simpl.
  pose proof (TransitionOrder_hijack p next eff st) as HT.
  rewrite Ho in HT. rewrite (HT He). clear HT. simpl.
  set (o1 := set_trashedAt (now o) (set_state Trashed o)).
  assert (H1 : getO (setO p o1 st) p = o1) by apply getO_setO.
  split; [done|]. split.
  { unfold removeOrder, detached. rewrite H1.
    destruct (shelf o1) eqn:E; [apply lookup_setO|].
    apply lookup_setO. }
  assert (Hd : state (detached st o1) = Trashed ∧
               trashedAt (detached st o1) = now o ∧
               shelf (detached st o1) = None).
  { unfold detached, o1; simpl. by destruct (shelf o) eqn:E. }
  destruct Hd as (? & ? & ?). do 3 (split; [done|]).
  split; [by unfold detached, o1; simpl; destruct (shelf o)|].
  split; [|split].
  - intros s Hs.
    assert (orders (getS (removeOrder p (setO p o1 st)) s)
            = delete (order_id o) (orders (getS st s))) as ->.
    { rewrite removeOrder_shelf by (by rewrite H1).
      rewrite H1, getS_setO. apply Remove_orders. }
    split; [done|apply lookup_delete_eq].
  - intros s Hs. rewrite removeOrder_shelf_ne by (by rewrite H1).
    apply getS_setO.
  - intros q Hq. rewrite removeOrder_other, getO_setO_ne by done. done.
Qed.

Lemma TransitionOrder_expired_witness :
  (TransitionOrder 1%nat Ready Enroute noEffect placementLater.2).1
    = Some Expired ∧
  state (getO (TransitionOrder 1%nat Ready Enroute noEffect
                 placementLater.2).2 1%nat) = Trashed.
Proof.
  pose proof (TransitionOrder_expired 1%nat (getO placementLater.2 1%nat)
                placementLater.2 Ready Enroute noEffect) as H.
  destruct H as (H1 & H2 & H3 & _).
  - vm_compute. reflexivity.
  - vm_compute. reflexivity.
  - vm_compute. reflexivity.
  - split; [exact H1|]. rewrite (getO_Some _ _ _ H2). exact H3.
Defined.

(** ** [SetShelf] *)

(** C5.  When the target shelf's [Put] rejects the order, [SetShelf]
    returns that error ([Put] only ever rejects with [AtCapacity]) and
    the store is untouched: the order's shelf, [placedAt] and
    [prevDecayed] and every shelf's map are as before the call. *)
Theorem SetShelf_rejected (p : oref) (o : Order) (s : sref) (st : Store)
    (e : Err) :
  order_heap st !! p = Some o →
  (Put p (order_id o) (getS st s)).1 = Some e →
  SetShelf p s st = (Some e, st) ∧ e = AtCapacity.
Proof.
  intros Ho HP. apply getO_Some in Ho. split.
  - apply SetShelf_error. by rewrite Ho.
  - revert HP. unfold Put. destruct (orders (getS st s) !! order_id o); [done|].
    destruct (capacity (getS st s) <=? numOrders (getS st s)); simpl; congruence.
Qed.

Lemma SetShelf_rejected_witness :
  SetShelf 2%nat 2%nat placementReady.2 = (Some AtCapacity, placementReady.2).
Proof.
  refine (proj1 (SetShelf_rejected 2%nat (getO placementReady.2 2%nat) 2%nat
                   placementReady.2 AtCapacity _ _)).
  - vm_compute. reflexivity.
  - vm_compute. reflexivity.
Defined.

(** C4.  After a successful [SetShelf] the order is on the target with
    [placedAt] the clock reading; if it was on a shelf [a] before, the
    product of [a]'s decay rate and the time spent there has been added
    to [prevDecayed] and the order is no longer in [a]'s map; if it was
    on no shelf, [prevDecayed] is unchanged. *)
Theorem SetShelf_credits_decay (p : oref) (o : Order) (s : sref)
    (st st' : Store) :
  order_heap st !! p = Some o →
  SetShelf p s st = (None, st') →
  ∃ o', order_heap st' !! p = Some o' ∧
    placedAt o' = now o ∧ shelf o' = Some s ∧
    match shelf o with
    | Some a =>
        prevDecayed o' =
          PrimFloat.add (prevDecayed o)
            (PrimFloat.mul (decayRate (getS st a))
               (float64_of_int64 (Time_Sub (now o) (placedAt o)))) ∧
        orders (getS st' a) !! order_id o = None
    | None => prevDecayed o' = prevDecayed o
    end ∧
    (shelf o ≠ Some s → is_Some (orders (getS st' s) !! order_id o)).
Proof.
  intros Ho HS. apply getO_Some in Ho.
  destruct (Put p (order_id (getO st p)) (getS st s)).1 as [e|] eqn:EP.
  { rewrite (SetShelf_error _ _ _ _ EP) in HS. done. }
  pose proof (SetShelf_ok st p s EP) as HK. simpl in HK.
  rewrite HK in HS. injection HS as <-. clear HK. rewrite Ho in *.
  set (sh' := (Put p (order_id o) (getS st s)).2) in *.
  set (st1 := setS s sh' st).
  eexists. split; [apply lookup_setO|]. simpl.
  split; [done|]. split; [done|].
  assert (Hsh : ∀ a, shelf o = Some a →
            getS (removeOrder p st1) a = (Remove (order_id o) (getS st1 a)).2).
  { intros a Ha. assert (Hg : getO st1 p = o) by done.
    rewrite removeOrder_shelf by (by rewrite Hg). by rewrite Hg. }
  split.
  - unfold detached. destruct (shelf o) as [a|] eqn:Ea; simpl; [|done]. split.
    + f_equal. f_equal. unfold st1. destruct (decide (s = a)) as [->|Hne].
      * rewrite getS_setS. apply Put_static.
      * by rewrite getS_setS_ne.
    + rewrite getS_setO, (Hsh a eq_refl), Remove_orders. apply lookup_delete_eq.
  - intros Hne. assert (Hg : getO st1 p = o) by done.
    rewrite getS_setO, removeOrder_shelf_ne by (by rewrite Hg).
    unfold st1. rewrite getS_setS. by apply Put_ok_lookup.
Qed.

Lemma SetShelf_credits_decay_witness :
  let st := advance (10 * second) placementDelivered.2 in
  ∃ o', order_heap (SetShelf 1%nat 2%nat st).2 !! 1%nat = Some o' ∧
        placedAt o' = clock0 + 10 * second ∧ shelf o' = Some 2%nat ∧
        prevDecayed o' = 5000000000%float.
Proof.
  intros st.
  destruct (SetShelf_credits_decay 1%nat (getO st 1%nat) 2%nat st
              (SetShelf 1%nat 2%nat st).2) as (o' & H1 & H2 & H3 & H4 & _).
  - vm_compute. reflexivity.
  - vm_compute. reflexivity.
  - exists o'. split; [exact H1|]. split; [exact H2|]. split; [exact H3|].
    vm_compute in H4. apply H4.
Defined.

(** ** Shelf occupancy *)

Lemma NewStaticShelf_shelfInv n c sup d :
  0 ≤ c → shelfInv (NewStaticShelf n c sup d).
Proof. intros. split; simpl; rewrite map_size_empty; lia. Qed.

Lemma Put_shelfInv o oid s : shelfInv s → shelfInv (Put o oid s).2.
Proof.
  intros [Hn Hc]. unfold Put. destruct (orders s !! oid) eqn:E; [done|].
  destruct (Z.leb_spec (capacity s) (numOrders s)); [done|].
  split; simpl; rewrite map_size_insert_None by done; lia.
Qed.

Lemma Remove_shelfInv oid s : shelfInv s → shelfInv (Remove oid s).2.
Proof.
  intros [Hn Hc]. unfold Remove. destruct (orders s !! oid) eqn:E; [|done].
  assert (size (orders s) ≠ 0%nat).
  { intros H0. apply map_size_empty_inv in H0. rewrite H0 in E.
    by rewrite lookup_empty in E. }
  split; simpl; rewrite map_size_delete_Some by done; lia.
Qed.

Lemma runShelf_shelfInv ops s : shelfInv s → shelfInv (runShelf ops s).
Proof.
  revert s. induction ops as [|op ops IH]; intros s Hs; [done|].
  simpl. apply IH. destruct op; [by apply Put_shelfInv|by apply Remove_shelfInv].
Qed.

Lemma runShelf_capacity ops s : capacity (runShelf ops s) = capacity s.
Proof.
  revert s. induction ops as [|op ops IH]; intros s; [done|].
  simpl. rewrite IH. destruct op; [apply Put_static|apply Remove_static].
Qed.

(** C7.  Starting from a shelf whose counter agrees with its map and
    whose map fits its capacity (such as a new shelf), every sequence of
    [Put] and [Remove] leaves a shelf with at most [capacity] orders and
    an unchanged capacity; on the resulting shelf a [Put] of an order
    that is not present fails with [AtCapacity] and changes nothing as
    soon as the shelf is full. *)
Theorem shelf_occupancy_bounded (s : staticShelf) (ops : list ShelfOp) :
  shelfInv s →
  let s' := runShelf ops s in
  Z.of_nat (size (orders s')) ≤ capacity s' ∧
  capacity s' = capacity s ∧
  numOrders s' = Z.of_nat (size (orders s')) ∧
  (∀ o oid, orders s' !! oid = None →
            Z.of_nat (size (orders s')) = capacity s' →
            Put o oid s' = (Some AtCapacity, s')).
Proof.
  intros Hs s'. destruct (runShelf_shelfInv ops s Hs) as [Hn Hc].
  fold s' in Hn, Hc. split; [done|]. split; [apply runShelf_capacity|].
  split; [done|]. intros o oid Hnone Hfull. unfold Put. rewrite Hnone.
  destruct (Z.leb_spec (capacity s') (numOrders s')); [done|lia].
Qed.

Lemma shelf_occupancy_bounded_witness :
  let s' := runShelf [OpPut 0%nat "a"; OpPut 1%nat "b"; OpPut 2%nat "c";
                      OpRemove "a"; OpPut 3%nat "d"; OpPut 0%nat "a"]
              (NewStaticShelf "hot" 2 ["hot"] 1%float) in
  Z.of_nat (size (orders s')) ≤ 2 ∧
  Put 4%nat "e" s' = (Some AtCapacity, s').
Proof.
  intros s'.
  destruct (shelf_occupancy_bounded (NewStaticShelf "hot" 2 ["hot"] 1%float)
              [OpPut 0%nat "a"; OpPut 1%nat "b"; OpPut 2%nat "c";
               OpRemove "a"; OpPut 3%nat "d"; OpPut 0%nat "a"])
    as (H1 & H2 & _ & H4).
  - apply NewStaticShelf_shelfInv. lia.
  - fold s' in H1, H2, H4. split.
    + rewrite H2 in H1. exact H1.
    + apply H4; vm_compute; reflexivity.
Defined.

(** ** Comparison of binary64 values *)

Lemma SFcompare_antisym (x y : spec_float) :
  SFcompare y x = option_map CompOpp (SFcompare x y).
Proof.
  destruct x as [sx|sx| |sx mx ex], y as [sy|sy| |sy my ey]; simpl;
    try reflexivity; try (destruct sx; reflexivity);
    try (destruct sy; reflexivity); try (destruct sx, sy; reflexivity).
  destruct sx, sy; simpl; try reflexivity.
  - rewrite (Z.compare_antisym ex ey).
    destruct (ex ?= ey)%Z; simpl; try reflexivity.
    rewrite (Pos.compare_cont_antisym my mx Eq). simpl.
    by destruct (Pos.compare_cont Eq mx my).
  - rewrite (Z.compare_antisym ex ey).
    destruct (ex ?= ey)%Z; simpl; try reflexivity.
    rewrite (Pos.compare_cont_antisym mx my Eq). done.
Qed.

Lemma is_nan_false_spec (x : float) :
  PrimFloat.is_nan x = false → Prim2SF x ≠ S754_nan.
Proof.
  unfold PrimFloat.is_nan. rewrite FloatAxioms.eqb_spec. unfold SFeqb.
  intros H E. rewrite E in H. simpl in H. done.
Qed.

(** Away from NaN, [not (a <= b)] is [b < a]. *)
Lemma leb_false_ltb (a b : float) :
  PrimFloat.is_nan a = false → PrimFloat.is_nan b = false →
  PrimFloat.leb a b = false → PrimFloat.ltb b a = true.
Proof.
  intros Ha%is_nan_false_spec Hb%is_nan_false_spec.
  rewrite FloatAxioms.leb_spec, FloatAxioms.ltb_spec. unfold SFleb, SFltb.
  rewrite (SFcompare_antisym (Prim2SF a) (Prim2SF b)).
  destruct (SFcompare (Prim2SF a) (Prim2SF b)) as [[]|] eqn:E; simpl; try done.
  intros _. destruct (Prim2SF a), (Prim2SF b); simpl in E; try done.
Qed.

(** ** The placement routine *)

Lemma SetShelf_error_store st p s e st' :
  SetShelf p s st = (Some e, st') → st' = st.
Proof.
  unfold SetShelf. destruct (Put _ _ _) as [[e'|] sh']; simpl; congruence.
Qed.

Lemma placeOnShelf_spec p ty cur s sup st :
  placeOnShelf p ty cur s sup st = (false, st) ∨
  ∃ st', placeOnShelf p ty cur s sup st = (true, st') ∧
         ty ∈ sup ∧ improves st cur s ∧ SetShelf p s st = (None, st').
Proof.
  induction sup as [|x sup IH]; simpl; [by left|].
  destruct (String.eqb_spec ty x) as [->|Hne].
  - case_bool_decide as Hc.
    { destruct IH as [IH|(st' & ? & ? & ?)]; [by left|right].
      exists st'. split; [done|]. split; [by right|done]. }
    destruct (match cur with
              | Some c => PrimFloat.leb (Decay st c) (Decay st s)
              | None => false end) eqn:Hd.
    { destruct IH as [IH|(st' & ? & ? & ?)]; [by left|right].
      exists st'. split; [done|]. split; [by right|done]. }
    destruct (SetShelf p s st) as [[e|] st'] eqn:ES.
    + apply SetShelf_error_store in ES as ->.
      destruct IH as [IH|(st' & ? & ? & ? & ?)]; [by left|congruence].
    + right. exists st'. split; [done|]. split; [by left|].
      split; [|done]. split; [done|]. by intros c ->.
  - destruct IH as [IH|(st' & ? & ? & ?)]; [by left|right].
    exists st'. split; [done|]. split; [by right|done].
Qed.

Lemma placeLoop_spec p ty cur cands st :
  placeLoop p ty cur cands st = (false, st) ∨
  ∃ s st', placeLoop p ty cur cands st = (true, st') ∧
           s ∈ cands ∧ ty ∈ supported (getS st s) ∧ improves st cur s ∧
           SetShelf p s st = (None, st').
Proof.
  induction cands as [|c cands IH]; simpl; [by left|].
  destruct (placeOnShelf_spec p ty cur c (supported (getS st c)) st)
    as [->|(st' & -> & ? & ? & ?)].
  - destruct IH as [IH|(s & st' & ? & ? & ?)]; [by left|right].
    exists s, st'. split; [done|]. split; [by right|done].
  - right. exists c, st'. split; [done|]. split; [by left|done].
Qed.

(** With no current shelf an attempt is made on every supporting
    candidate, in order, until a [Put] is accepted. *)
Lemma placeOnShelf_unshelved_fail p ty s sup st :
  (Put p (order_id (getO st p)) (getS st s)).1 ≠ None →
  placeOnShelf p ty None s sup st = (false, st).
Proof.
  intros HP. induction sup as [|x sup IH]; simpl; [done|].
  destruct (String.eqb ty x); [|done].
  destruct (Put p (order_id (getO st p)) (getS st s)).1 as [e|] eqn:E; [|done].
  by rewrite (SetShelf_error _ _ _ _ E).
Qed.

Lemma placeOnShelf_unshelved_ok p ty s sup st :
  ty ∈ sup →
  (Put p (order_id (getO st p)) (getS st s)).1 = None →
  ∃ st', placeOnShelf p ty None s sup st = (true, st').
Proof.
  intros Hin HP. induction sup as [|x sup IH]; [by apply elem_of_nil in Hin|].
  simpl. destruct (String.eqb_spec ty x) as [->|Hne].
  - rewrite (SetShelf_ok _ _ _ HP). by eexists.
  - apply IH. apply elem_of_cons in Hin as [?|?]; done.
Qed.

Lemma placeLoop_unshelved_fail p ty cands st :
  (∀ s, s ∈ cands → (Put p (order_id (getO st p)) (getS st s)).1 ≠ None) →
  placeLoop p ty None cands st = (false, st).
Proof.
  induction cands as [|c cands IH]; intros H; simpl; [done|].
  rewrite placeOnShelf_unshelved_fail by (apply H; by left).
  apply IH. intros s Hs. apply H. by right.
Qed.

Lemma placeLoop_unshelved_ok p ty cands st s :
  s ∈ cands → ty ∈ supported (getS st s) →
  (Put p (order_id (getO st p)) (getS st s)).1 = None →
  ∃ st', placeLoop p ty None cands st = (true, st').
Proof.
  induction cands as [|c cands IH]; intros Hin Hsup HP;
    [by apply elem_of_nil in Hin|].
  simpl.
  destruct (placeOnShelf p ty None c (supported (getS st c)) st)
    as [[|] st1] eqn:E1; [by eexists|].
  assert (st1 = st) as ->.
  { destruct (placeOnShelf_spec p ty None c (supported (getS st c)) st)
      as [E'|(st'' & E' & _)]; congruence. }
  apply elem_of_cons in Hin as [->|Hin]; [|by apply IH].
  destruct (placeOnShelf_unshelved_ok p ty c _ st Hsup HP) as [st' E].
  congruence.
Qed.

(** Decay rates never change. *)
Lemma Decay_setO st p o s : Decay (setO p o st) s = Decay st s.
Proof. done. Qed.

Lemma Decay_setS st s sh c :
  decayRate sh = decayRate (getS st s) → Decay (setS s sh st) c = Decay st c.
Proof.
  intros H. unfold Decay. destruct (decide (s = c)) as [->|Hne].
  - by rewrite getS_setS.
  - by rewrite getS_setS_ne.
Qed.

Lemma SetShelf_decay st p s c : Decay (SetShelf p s st).2 c = Decay st c.
Proof.
  destruct (SetShelf_cases st p s) as [[e ->]|(st' & E & _)]; [done|].
  destruct (Put p (order_id (getO st p)) (getS st s)).1 as [e|] eqn:EP.
  { rewrite (SetShelf_error _ _ _ _ EP) in E. done. }
  rewrite (SetShelf_ok _ _ _ EP). simpl.
  rewrite Decay_setO, removeOrder_decay. apply Decay_setS, Put_static.
Qed.

Lemma optimizePlacement_cases p cands st :
  let o := getO st p in
  (isExpired st o = true ∧
   optimizePlacement p cands st =
     (false, removeOrder p
               (setO p (set_trashedAt (now o) (set_state Trashed o)) st))) ∨
  (isExpired st o = false ∧ optimizePlacement p cands st = (false, st)) ∨
  (isExpired st o = false ∧
   ∃ s st', optimizePlacement p cands st = (true, st') ∧
            s ∈ cands ∧ temp o ∈ supported (getS st s) ∧
            improves st (shelf o) s ∧ SetShelf p s st = (None, st')).
Proof.
  intros o. unfold optimizePlacement. fold o.
  destruct (isExpired st o) eqn:He.
  - left. split; [done|]. unfold o in *. by rewrite TransitionOrder_hijack.
  - right. destruct (placeLoop_spec p (temp o) (shelf o) cands st)
      as [->|(s & st' & -> & ?)]; [by left|right].
    split; [done|]. by exists s, st'.
Qed.

(** C6.  For an order that has a shelf, [optimizePlacement] either
    leaves the store as it is, or (the order being expired) trashes and
    detaches it, or moves it to a candidate that supports its
    temperature, is not the current shelf, and for which the test
    [current.Decay() <= candidate.Decay()] failed; for decay rates that
    are numbers this says the candidate's rate is strictly smaller.  No
    shelf's decay rate changes, so the rate of the shelf holding the
    order never increases. *)
Theorem optimizePlacement_strict (p : oref) (o : Order) (cur : sref)
    (cands : list sref) (st : Store) :
  order_heap st !! p = Some o →
  shelf o = Some cur →
  let r := optimizePlacement p cands st in
  let o' := getO r.2 p in
  (∀ s, Decay r.2 s = Decay st s) ∧
  ((r.1 = false ∧ r.2 = st) ∨
   (r.1 = false ∧ isExpired st o = true ∧
    state o' = Trashed ∧ shelf o' = None) ∨
   (r.1 = true ∧
    ∃ s, shelf o' = Some s ∧ s ∈ cands ∧ s ≠ cur ∧
         temp o ∈ supported (getS st s) ∧
         PrimFloat.leb (Decay st cur) (Decay st s) = false ∧
         (PrimFloat.is_nan (Decay st cur) = false →
          PrimFloat.is_nan (Decay st s) = false →
          PrimFloat.ltb (Decay st s) (Decay st cur) = true))) ∧
  (∀ s, shelf o' = Some s →
        PrimFloat.is_nan (Decay st cur) = false →
        PrimFloat.is_nan (Decay st s) = false →
        PrimFloat.ltb (Decay st cur) (Decay st s) = false).
Proof.
  intros Ho Hcur r o'. apply getO_Some in Ho.
  assert (Hmain :
    (∀ s, Decay r.2 s = Decay st s) ∧
    ((r.1 = false ∧ r.2 = st) ∨
     (r.1 = false ∧ isExpired st o = true ∧
      state o' = Trashed ∧ shelf o' = None) ∨
     (r.1 = true ∧
      ∃ s, shelf o' = Some s ∧ s ∈ cands ∧ s ≠ cur ∧
           temp o ∈ supported (getS st s) ∧
           PrimFloat.leb (Decay st cur) (Decay st s) = false ∧
           (PrimFloat.is_nan (Decay st cur) = false →
            PrimFloat.is_nan (Decay st s) = false →
            PrimFloat.ltb (Decay st s) (Decay st cur) = true)))).
  { unfold o', r.
    destruct (optimizePlacement_cases p cands st)
      as [[He ->]|[[He ->]|(He & s & st' & -> & Hin & Hsup & [Hne Hd] & HS)]];
      rewrite Ho in *; simpl.
    - split; [intros s; by rewrite removeOrder_decay|]. right; left.
      do 2 (split; [done|]). rewrite removeOrder_order, getO_setO.
      destruct (detached_fields
                  (setO p (set_trashedAt (now o) (set_state Trashed o)) st)
                  (set_trashedAt (now o) (set_state Trashed o)))
        as (-> & -> & _). done.
    - split; [done|]. by left.
    - split.
      { intros c. replace st' with (SetShelf p s st).2 by (by rewrite HS).
        apply SetShelf_decay. }
      right; right. split; [done|]. exists s.
      destruct (SetShelf_cases st p s) as [[e E]|(st'' & E & Hsh & _)];
        [congruence|].
      assert (st'' = st') as -> by congruence.
      split; [done|]. split; [done|]. split; [congruence|]. split; [done|].
      specialize (Hd cur Hcur). split; [done|].
      intros Hn1 Hn2. by apply leb_false_ltb. }
  destruct Hmain as [HD Hc]. split; [done|]. split; [done|].
  intros s Hs Hn1 Hn2.
  assert (Hirr : PrimFloat.ltb (Decay st cur) (Decay st cur) = false).
  { rewrite FloatAxioms.ltb_spec. unfold SFltb.
    pose proof (SFcompare_antisym (Prim2SF (Decay st cur))
                  (Prim2SF (Decay st cur))) as Ha.
    destruct (SFcompare (Prim2SF (Decay st cur)) (Prim2SF (Decay st cur)))
      as [[]|]; simpl in Ha; done. }
  destruct Hc as [[_ E]|[(_ & _ & _ & E)|(_ & s' & E & _ & _ & _ & Hle & _)]].
  - unfold o' in Hs. rewrite E, Ho, Hcur in Hs. by injection Hs as <-.
  - congruence.
  - assert (s' = s) as -> by congruence.
    rewrite FloatAxioms.ltb_spec. rewrite FloatAxioms.leb_spec in Hle.
    unfold SFltb, SFleb in *.
    destruct (SFcompare (Prim2SF (Decay st cur)) (Prim2SF (Decay st s)))
      as [[]|]; done.
Qed.

Lemma optimizePlacement_strict_witness :
  let st := placementDelivered.2 in
  PrimFloat.ltb (Decay st 1%nat) (Decay st 2%nat) = false.
Proof.
  intros st.
  refine (proj2 (proj2 (optimizePlacement_strict 1%nat (getO st 1%nat) 1%nat
                          [2; 1; 0]%nat st _ _)) 2%nat _ _ _);
    vm_compute; reflexivity.
Defined.

(** ** [sort.Slice] *)

Lemma bubble_Permutation {A} (less : A → A → bool) x pre :
  bubble less x pre ≡ₚ x :: pre.
Proof.
  induction pre as [|y pre IH]; simpl; [done|].
  destruct (less x y); [|done].
  rewrite IH. apply Permutation_swap.
Qed.

Lemma sort_Slice_Permutation {A} (less : A → A → bool) l :
  sort_Slice less l ≡ₚ l.
Proof.
  unfold sort_Slice. rewrite <- Permutation_rev.
  assert (H : ∀ acc, fold_left (λ pre x, bubble less x pre) l acc ≡ₚ l ++ acc).
  { induction l as [|x l IH]; intros acc; simpl; [done|].
    rewrite IH, bubble_Permutation. by rewrite Permutation_middle. }
  rewrite H. by rewrite app_nil_r.
Qed.

Lemma elem_of_sort_Slice {A} (less : A → A → bool) l x :
  x ∈ sort_Slice less l ↔ x ∈ l.
Proof. by rewrite sort_Slice_Permutation. Qed.

(** ** [SetOrderReady] on a created order *)

Lemma isExpired_inactive st o : isActive (state o) = false → isExpired st o = false.
Proof. unfold isExpired. by destruct (state o). Qed.

Lemma placeOnShelf_skip_fail p ty s sup st :
  (ty ∈ sup → (Put p (order_id (getO st p)) (getS st s)).1 ≠ None) →
  placeOnShelf p ty None s sup st = (false, st).
Proof.
  induction sup as [|x sup IH]; intros HP; simpl; [done|].
  destruct (String.eqb_spec ty x) as [->|Hne].
  - destruct (Put p (order_id (getO st p)) (getS st s)).1 as [e|] eqn:E.
    + rewrite (SetShelf_error _ _ _ _ E). apply IH. intros _.
      apply HP. by left.
    + exfalso. apply HP; [by left|done].
  - apply IH. intros Hin. apply HP. by right.
Qed.

Lemma placeLoop_skip_fail p ty cands st :
  (∀ s, s ∈ cands → ty ∈ supported (getS st s) →
        (Put p (order_id (getO st p)) (getS st s)).1 ≠ None) →
  placeLoop p ty None cands st = (false, st).
Proof.
  induction cands as [|c cands IH]; intros H; simpl; [done|].
  rewrite placeOnShelf_skip_fail by (apply H; by left).
  apply IH. intros s Hs. apply H. by right.
Qed.

Lemma Put_full p oid sh :
  orders sh !! oid = None → capacity sh ≤ numOrders sh →
  (Put p oid sh).1 ≠ None.
Proof.
  intros E Hc. unfold Put. rewrite E.
  by destruct (Z.leb_spec (capacity sh) (numOrders sh)); [|lia].
Qed.

Lemma Put_free p oid sh :
  orders sh !! oid = None → numOrders sh < capacity sh →
  (Put p oid sh).1 = None ∧ orders (Put p oid sh).2 !! oid = Some p.
Proof.
  intros E Hc. unfold Put. rewrite E.
  destruct (Z.leb_spec (capacity sh) (numOrders sh)); [lia|].
  simpl. by rewrite lookup_insert_eq.
Qed.

Lemma Put_accepted_fresh p oid sh :
  orders sh !! oid = None → (Put p oid sh).1 = None →
  numOrders sh < capacity sh.
Proof.
  intros E. unfold Put. rewrite E.
  by destruct (Z.leb_spec (capacity sh) (numOrders sh)).
Qed.

(** C3.  For an order in state [Created] (which, by the data model,
    is on no shelf): when the index has no entry for its temperature,
    the order is trashed with [trashedAt] set, stays off every shelf and
    the result is [Unsupported]; when every indexed shelf that supports
    the temperature is at capacity, the order is trashed likewise and the
    result is [NoShelf]; when some indexed supporting shelf has room, the
    order ends [Ready] with [readyAt] set on such a shelf, is recorded in
    that shelf's map, and the result is ok.  (The order's id is taken not
    to be in the candidates' maps already.) *)
Theorem SetOrderReady_created (k : Kitchen) (p : oref) (o : Order)
    (st : Store) :
  order_heap st !! p = Some o →
  state o = Created →
  shelf o = None →
  let r := SetOrderReady k p st in
  let o' := getO r.2 p in
  match supportedIndex k !! temp o with
  | None =>
      r.1.1 = Some Unsupported ∧ state o' = Trashed ∧
      trashedAt o' = k_now k ∧ shelf o' = None ∧
      shelf_heap r.2 = shelf_heap st
  | Some cands =>
      (∀ s, s ∈ cands → orders (getS st s) !! order_id o = None) →
      ((∀ s, s ∈ cands → temp o ∈ supported (getS st s) →
             capacity (getS st s) ≤ numOrders (getS st s)) →
       r.1.1 = Some NoShelf ∧ state o' = Trashed ∧
       trashedAt o' = k_now k ∧ shelf o' = None ∧
       shelf_heap r.2 = shelf_heap st) ∧
      ((∃ s, s ∈ cands ∧ temp o ∈ supported (getS st s) ∧
             numOrders (getS st s) < capacity (getS st s)) →
       r.1.1 = None ∧ state o' = Ready ∧ readyAt o' = k_now k ∧
       ∃ s, s ∈ cands ∧ temp o ∈ supported (getS st s) ∧
            numOrders (getS st s) < capacity (getS st s) ∧
            shelf o' = Some s ∧
            orders (getS r.2 s) !! order_id o = Some p)
  end.
Proof.
  intros Ho Hst Hsh r o'. apply getO_Some in Ho.
  assert (Hne : isExpired st o = false) by (apply isExpired_inactive; by rewrite Hst).
  assert (Htrash : ∀ eff, TransitionOrder p Created Trashed eff st
                          = eff p (setO p (set_state Trashed o) st)).
  { intros eff. pose proof (TransitionOrder_proceed p Trashed eff st) as H.
    rewrite Ho, Hst in H. by apply H. }
  unfold o', r, SetOrderReady. rewrite Ho.
  destruct (supportedIndex k !! temp o) as [cands|] eqn:Ei.
  - intros Hfresh.
    set (sorted := sort_Slice _ cands).
    assert (Hperm : ∀ s, s ∈ sorted ↔ s ∈ cands)
      by (intros s; apply elem_of_sort_Slice).
    assert (Hopt : optimizePlacement p sorted st
                   = placeLoop p (temp o) None sorted st).
    { unfold optimizePlacement. by rewrite Ho, Hne, Hsh. }
    rewrite Hopt. split.
    + intros Hfull.
      rewrite placeLoop_skip_fail.
      2:{ intros s Hs Hsup. rewrite Ho. apply Put_full.
          - apply Hfresh. by apply Hperm.
          - apply Hfull; [by apply Hperm|done]. }
      rewrite Htrash. simpl. rewrite !getO_setO.
      rewrite removeOrder_unshelved by (by rewrite getO_setO).
      rewrite getO_setO. simpl. done.
    + intros (s & Hs & Hsup & Hroom).
      destruct (Put_free p (order_id o) (getS st s) (Hfresh s Hs) Hroom)
        as [HP _].
      destruct (placeLoop_unshelved_ok p (temp o) sorted st s) as [st' E];
        [by apply Hperm|done|by rewrite Ho|].
      destruct (placeLoop_spec p (temp o) None sorted st)
        as [E'|(s' & st'' & E' & Hs' & Hsup' & _ & HS)]; [congruence|].
      rewrite E'. apply Hperm in Hs'.
      destruct (Put p (order_id (getO st p)) (getS st s')).1 as [e|] eqn:EP.
      { rewrite (SetShelf_error _ _ _ _ EP) in HS. done. }
      pose proof (SetShelf_ok st p s' EP) as HK. simpl in HK.
      rewrite HK in HS. injection HS as <-. clear HK E E'.
      rewrite Ho in *.
      set (sh' := (Put p (order_id o) (getS st s')).2) in *.
      assert (Hdet : detached (setS s' sh' st) o = o)
        by (unfold detached; by rewrite Hsh).
      rewrite Hdet.
      rewrite (removeOrder_unshelved (setS s' sh' st))
        by (by rewrite getO_setS, Ho).
      set (o1 := set_placedAt (now o) (set_shelf (Some s') o)).
      set (st1 := setO p o1 (setS s' sh' st)).
      assert (H1 : getO st1 p = o1) by apply getO_setO.
      pose proof (TransitionOrder_proceed p Ready
        (λ o0 s0, (None, setO o0 (set_readyAt (k_now k) (getO s0 o0)) s0))
        st1) as HT.
      rewrite H1 in HT. simpl in HT. rewrite Hst in HT.
      rewrite HT by (try done; apply isExpired_inactive; simpl; by rewrite Hst).
      simpl. rewrite !getO_setO. simpl.
      do 3 (split; [done|]). exists s'.
      pose proof (Put_accepted_fresh p (order_id o) (getS st s')
                    (Hfresh s' Hs') EP) as Hroom'.
      do 3 (split; [done|]). split; [done|].
      unfold st1. rewrite !getS_setO, getS_setS.
      by destruct (Put_free p (order_id o) (getS st s') (Hfresh s' Hs') Hroom').
  - rewrite Htrash. simpl. rewrite !getO_setO.
    rewrite removeOrder_unshelved by (by rewrite getO_setO).
    rewrite getO_setO. simpl. done.
Qed.

(** Membership in a literal list, case by case. *)
Ltac each_member H :=
  repeat (apply elem_of_cons in H as [->|H]);
  [..|exact (False_ind _ (proj1 (elem_of_nil _) H))].

Lemma SetOrderReady_created_witness :
  (SetOrderReady placementCreated.1 0%nat placementCreated.2).1.1 = None ∧
  (SetOrderReady placementFull.1 3%nat placementFull.2).1.1 = Some NoShelf ∧
  (SetOrderReady placementFull.1 4%nat placementFull.2).1.1 = Some Unsupported.
Proof.
  split; [|split].
  - assert (E : supportedIndex placementCreated.1
                  !! temp (getO placementCreated.2 0%nat)
                = Some [0; 1; 2]%nat) by (vm_compute; reflexivity).
    assert (Hfresh : ∀ s, s ∈ [0; 1; 2]%nat →
              orders (getS placementCreated.2 s)
                !! order_id (getO placementCreated.2 0%nat) = None).
    { intros s Hs. each_member Hs; vm_compute; reflexivity. }
    assert (Hroom : ∃ s, s ∈ [0; 1; 2]%nat ∧
              temp (getO placementCreated.2 0%nat)
                ∈ supported (getS placementCreated.2 s) ∧
              numOrders (getS placementCreated.2 s)
                < capacity (getS placementCreated.2 s)).
    { exists 0%nat. split; [by left|]. split; [by left|].
      vm_compute. reflexivity. }
    pose proof (SetOrderReady_created placementCreated.1 0%nat
                  (getO placementCreated.2 0%nat) placementCreated.2) as H.
    cbv zeta in H. rewrite E in H.
    refine (proj1 (proj2 (H _ _ _ Hfresh) Hroom)); vm_compute; reflexivity.
  - assert (E : supportedIndex placementFull.1
                  !! temp (getO placementFull.2 3%nat)
                = Some [2; 1; 0]%nat) by (vm_compute; reflexivity).
    assert (Hfresh : ∀ s, s ∈ [2; 1; 0]%nat →
              orders (getS placementFull.2 s)
                !! order_id (getO placementFull.2 3%nat) = None).
    { intros s Hs. each_member Hs; vm_compute; reflexivity. }
    assert (Hfull : ∀ s, s ∈ [2; 1; 0]%nat →
              temp (getO placementFull.2 3%nat)
                ∈ supported (getS placementFull.2 s) →
              capacity (getS placementFull.2 s)
                ≤ numOrders (getS placementFull.2 s)).
    { intros s Hs _. each_member Hs; vm_compute; discriminate. }
    pose proof (SetOrderReady_created placementFull.1 3%nat
                  (getO placementFull.2 3%nat) placementFull.2) as H.
    cbv zeta in H. rewrite E in H.
    refine (proj1 (proj1 (H _ _ _ Hfresh) Hfull)); vm_compute; reflexivity.
  - assert (E : supportedIndex placementFull.1
                  !! temp (getO placementFull.2 4%nat) = None)
      by (vm_compute; reflexivity).
    pose proof (SetOrderReady_created placementFull.1 4%nat
                  (getO placementFull.2 4%nat) placementFull.2) as H.
    cbv zeta in H. rewrite E in H.
    refine (proj1 (H _ _ _)); vm_compute; reflexivity.
Defined.

(** ** The shelf reference and the state *)

Lemma shelfIffActive_unshelved o :
  shelf o = None → isActive (state o) = false → shelfIffActive o = true.
Proof. unfold shelfIffActive. by intros -> ->. Qed.

Lemma shelfIffActive_shelved o s :
  shelf o = Some s → isActive (state o) = true → shelfIffActive o = true.
Proof.
  unfold shelfIffActive. intros -> ->.
  by rewrite bool_decide_eq_true_2 by (by eexists).
Qed.

Lemma shelfIffActive_inactive o :
  shelfIffActive o = true → isActive (state o) = false → shelf o = None.
Proof.
  unfold shelfIffActive. intros H Ha. rewrite Ha in H.
  destruct (shelf o) as [s|]; [|done].
  by rewrite bool_decide_eq_true_2 in H by (by eexists).
Qed.

Lemma shelfIffActive_active o :
  shelfIffActive o = true → isActive (state o) = true → is_Some (shelf o).
Proof.
  unfold shelfIffActive. intros H Ha. rewrite Ha in H.
  destruct (shelf o) as [s|]; [by eexists|].
  rewrite bool_decide_eq_false_2 in H; [done|]. by intros [? ?].
Qed.

(** The four ways a transition can go. *)
Lemma TransitionOrder_cases p expected next eff st :
  let o := getO st p in
  (state o ≠ expected ∧
   TransitionOrder p expected next eff st = (Some WrongState, st)) ∨
  (state o = expected ∧ isTerminal (state o) = true ∧
   TransitionOrder p expected next eff st = (Some Terminal, st)) ∨
  (state o = expected ∧ isExpired st o = true ∧
   TransitionOrder p expected next eff st =
     (Some Expired,
      removeOrder p
        (setO p (set_trashedAt (now o) (set_state Trashed o)) st))) ∨
  (state o = expected ∧ isTerminal (state o) = false ∧
   isExpired st o = false ∧
   TransitionOrder p expected next eff st =
     eff p (setO p (set_state next o) st)).
Proof.
  intros o. destruct (decide (state o = expected)) as [<-|Hne].
  - right. destruct (isTerminal (state o)) eqn:Ht.
    { left. do 2 (split; [done|]). by apply TransitionOrder_terminal. }
    right. destruct (isExpired st o) eqn:He.
    { left. do 2 (split; [done|]). by apply TransitionOrder_hijack. }
    right. do 3 (split; [done|]). by apply TransitionOrder_proceed.
  - left. split; [done|]. by apply TransitionOrder_mismatch.
Qed.

(** The order a hijacked transition leaves behind. *)
Lemma hijacked_order st p :
  let o := getO st p in
  let st' := removeOrder p
               (setO p (set_trashedAt (now o) (set_state Trashed o)) st) in
  state (getO st' p) = Trashed ∧ shelf (getO st' p) = None ∧
  (∀ q, p ≠ q → getO st' q = getO st q).
Proof.
  intros o st'. unfold st'. rewrite removeOrder_order, getO_setO.
  destruct (detached_fields
              (setO p (set_trashedAt (now o) (set_state Trashed o)) st)
              (set_trashedAt (now o) (set_state Trashed o)))
    as (-> & -> & _).
  do 2 (split; [done|]).
  intros q Hq. by rewrite removeOrder_other, getO_setO_ne.
Qed.

(** A transition whose side effect only rewrites fields other than the
    shelf reference and the state. *)
Lemma TransitionOrder_stamp p expected next (stamp : Order → Order) st :
  (∀ o, shelf (stamp o) = shelf o ∧ state (stamp o) = state o) →
  let r := TransitionOrder p expected next
             (λ o s, (None, setO o (stamp (getO s o)) s)) st in
  let o := getO st p in
  let o' := getO r.2 p in
  (∀ q, p ≠ q → getO r.2 q = getO st q) ∧
  (((state o ≠ expected ∨ isTerminal (state o) = true) ∧ r.2 = st) ∨
   (state o = expected ∧ isActive (state o) = true ∧
    state o' = Trashed ∧ shelf o' = None) ∨
   (state o = expected ∧ state o' = next ∧ shelf o' = shelf o)).
Proof.
  intros Hstamp r o o'. unfold o', r.
  destruct (TransitionOrder_cases p expected next
              (λ o s, (None, setO o (stamp (getO s o)) s)) st)
    as [[? ->]|[(_ & ? & ->)|[(? & He & ->)|(? & _ & ? & ->)]]]; simpl.
  - split; [done|]. left. split; [by left|done].
  - split; [done|]. left. split; [by right|done].
  - destruct (hijacked_order st p) as (? & ? & ?). split; [done|].
    right; left. split; [done|]. split; [|done].
    unfold isExpired in He. unfold o. by destruct (state (getO st p)).
  - split. { intros q Hq. by rewrite !getO_setO_ne. }
    right; right. rewrite !getO_setO.
    destruct (Hstamp (set_state next (getO st p))) as [-> ->]. done.
Qed.

(** A transition whose side effect rewrites such fields, possibly the
    state too, and then detaches the order. *)
Lemma TransitionOrder_detach p expected next (stamp : Order → Order) st :
  let r := TransitionOrder p expected next
             (λ o s, (None, removeOrder p (setO o (stamp (getO s o)) s))) st in
  let o := getO st p in
  let o' := getO r.2 p in
  (∀ q, p ≠ q → getO r.2 q = getO st q) ∧
  (((state o ≠ expected ∨ isTerminal (state o) = true) ∧ r.2 = st) ∨
   (state o = expected ∧ isActive (state o) = true ∧
    state o' = Trashed ∧ shelf o' = None) ∨
   (state o = expected ∧
    state o' = state (stamp (set_state next o)) ∧ shelf o' = None)).
Proof.
  intros r o o'. unfold o', r.
  destruct (TransitionOrder_cases p expected next
              (λ o s, (None, removeOrder p (setO o (stamp (getO s o)) s))) st)
    as [[? ->]|[(_ & ? & ->)|[(? & He & ->)|(? & _ & ? & ->)]]]; simpl.
  - split; [done|]. left. split; [by left|done].
  - split; [done|]. left. split; [by right|done].
  - destruct (hijacked_order st p) as (? & ? & ?). split; [done|].
    right; left. split; [done|]. split; [|done].
    unfold isExpired in He. unfold o. by destruct (state (getO st p)).
  - split. { intros q Hq. by rewrite removeOrder_other, !getO_setO_ne. }
    right; right. rewrite removeOrder_order, !getO_setO.
    set (o1 := stamp (set_state next (getO st p))).
    destruct (detached_fields
                (setO p o1 (setO p (set_state next (getO st p)) st)) o1)
      as (-> & -> & _). done.
Qed.

(** [optimizePlacement]: nothing happens, or the expired order is
    trashed and detached, or the order is put on a shelf in its state. *)
Lemma optimizePlacement_order p cands st :
  let r := optimizePlacement p cands st in
  let o := getO st p in
  let o' := getO r.2 p in
  (∀ q, p ≠ q → getO r.2 q = getO st q) ∧
  ((r.1 = false ∧ r.2 = st) ∨
   (r.1 = false ∧ isActive (state o) = true ∧
    state o' = Trashed ∧ shelf o' = None) ∨
   (r.1 = true ∧ state o' = state o ∧ is_Some (shelf o'))).
Proof.
  intros r o o'. unfold o', r.
  destruct (optimizePlacement_cases p cands st)
    as [[He ->]|[[He ->]|(He & s & st' & -> & _ & _ & _ & HS)]]; simpl.
  - destruct (hijacked_order st p) as (? & ? & ?). split; [done|].
    right; left. split; [done|]. split; [|done].
    unfold isExpired in He. unfold o. by destruct (state (getO st p)).
  - split; [done|by left].
  - destruct (SetShelf_cases st p s)
      as [[e E]|(st'' & E & Hsh & Hs & _ & _ & _ & Hfr)]; [congruence|].
    assert (st'' = st') as -> by congruence.
    split; [done|]. right; right. do 2 (split; [done|]). by eexists.
Qed.

(** The invariant carried through the three shapes of outcome. *)
Lemma shelfIffActive_trashed o :
  state o = Trashed → shelf o = None → shelfIffActive o = true.
Proof. intros Hs Hh. apply shelfIffActive_unshelved; [done|by rewrite Hs]. Qed.

Lemma SetOrderReady_keeps_invariant k p st :
  let o := getO st p in
  let r := SetOrderReady k p st in
  shelfIffActive o = true →
  state o = Created ∨ isActive (state o) = true →
  shelfIffActive (getO r.2 p) = true ∧
  (∀ q, p ≠ q → getO r.2 q = getO st q).
Proof.
  intros o r Hinv Hst. unfold r, SetOrderReady. fold o.
  destruct (supportedIndex k !! temp o) as [cands|]; simpl.
  - set (sorted := sort_Slice _ cands).
    destruct (optimizePlacement_order p sorted st) as [Hfr Hc].
    destruct (optimizePlacement p sorted st) as [b st1] eqn:Eo. simpl in *.
    fold o in Hc.
    destruct Hc as [[-> ->]|[(-> & Ha & Hs1 & Hh1)|(-> & Hs1 & Hh1)]]; simpl.
    + (* not placed, store unchanged *)
      destruct (TransitionOrder_detach p Created Trashed
                  (set_trashedAt (k_now k)) st) as [Hfr2 Hc2].
      simpl in *. split; [|done].
      destruct Hc2 as [[_ ->]|[(_ & _ & Hs & Hh)|(_ & Hs & Hh)]];
        [done|by apply shelfIffActive_trashed..].
    + (* expired and trashed: the second transition finds [Trashed] *)
      rewrite TransitionOrder_mismatch by (by rewrite Hs1). simpl.
      split; [|done]. by apply shelfIffActive_trashed.
    + (* placed *)
      destruct (TransitionOrder_stamp p Created Ready
                  (set_readyAt (k_now k)) st1) as [Hfr2 Hc2]; [done|].
      simpl in *. split; [|intros q Hq; by rewrite Hfr2, Hfr].
      destruct Hh1 as [s Hh1].
      destruct Hc2 as [[Hne ->]|[(_ & _ & Hs & Hh)|(_ & Hs & Hh)]].
      * apply (shelfIffActive_shelved _ s); [done|]. rewrite Hs1. fold o.
        rewrite Hs1 in Hne. fold o in Hne.
        destruct Hst as [Hcr|Hact]; [|done].
        rewrite Hcr in Hne. by destruct Hne.
      * by apply shelfIffActive_trashed.
      * apply (shelfIffActive_shelved _ s); [congruence|by rewrite Hs].
  - destruct (TransitionOrder_detach p Created Trashed
                (λ o0, set_trashedAt (k_now k) (set_state Trashed o0)) st)
      as [Hfr2 Hc2].
    simpl in *. split; [|done].
    destruct Hc2 as [[_ ->]|[(_ & _ & Hs & Hh)|(_ & Hs & Hh)]];
      [done|by apply shelfIffActive_trashed..].
Qed.

Lemma CreateOrder_keeps_invariant k p st :
  let o := getO st p in
  let r := CreateOrder k p st in
  shelfIffActive o = true →
  isTerminal (state o) = false →
  shelfIffActive (getO r.2 p) = true ∧
  (∀ q, p ≠ q → getO r.2 q = getO st q).
Proof.
  intros o r Hinv Hterm. unfold r, CreateOrder.
  destruct (TransitionOrder_stamp p Uninit Created
              (set_createdAt (k_now k)) st) as [Hfr Hc]; [done|].
  simpl in *. fold o in Hc.
  set (st1 := (TransitionOrder p Uninit Created _ st).2) in *.
  assert (H1 : shelfIffActive (getO st1 p) = true ∧
               (state (getO st1 p) = Created ∨
                isActive (state (getO st1 p)) = true)).
  { destruct Hc as [[Hne ->]|[(Hu & Ha & _)|(Hu & Hs & Hh)]].
    - split; [done|]. fold o.
      destruct Hne as [Hne|Ht]; [|congruence].
      destruct (state o); try done; auto.
    - rewrite Hu in Ha. done.
    - split; [|by left].
      apply shelfIffActive_unshelved; [|by rewrite Hs].
      rewrite Hh. apply shelfIffActive_inactive; [done|by rewrite Hu]. }
  destruct H1 as [Hi Hs].
  destruct (SetOrderReady_keeps_invariant k p st1 Hi Hs) as [? Hfr2].
  split; [done|]. intros q Hq. by rewrite Hfr2, Hfr.
Qed.

Lemma SetOrderEnroute_keeps_invariant k p st :
  let r := SetOrderEnroute k p st in
  shelfIffActive (getO st p) = true →
  shelfIffActive (getO r.2 p) = true ∧
  (∀ q, p ≠ q → getO r.2 q = getO st q).
Proof.
  intros r Hinv. unfold r, SetOrderEnroute.
  destruct (TransitionOrder_stamp p Ready Enroute
              (set_enrouteAt (k_now k)) st) as [Hfr Hc]; [done|].
  simpl in *. split; [|done].
  destruct Hc as [[_ ->]|[(_ & _ & Hs & Hh)|(Hr & Hs & Hh)]];
    [done|by apply shelfIffActive_trashed|].
  destruct (shelfIffActive_active _ Hinv) as [s Hsh]; [by rewrite Hr|].
  apply (shelfIffActive_shelved _ s); [congruence|by rewrite Hs].
Qed.

Lemma SetOrderPickedUp_keeps_invariant k p st :
  let r := SetOrderPickedUp k p st in
  shelfIffActive (getO st p) = true →
  shelfIffActive (getO r.2 p) = true ∧
  (∀ q, p ≠ q → getO r.2 q = getO st q).
Proof.
  intros r Hinv. unfold r, SetOrderPickedUp.
  destruct (TransitionOrder_detach p Enroute PickedUp
              (set_pickedUpAt (k_now k)) st) as [Hfr Hc].
  simpl in *. split; [|done].
  destruct Hc as [[_ ->]|[(_ & _ & Hs & Hh)|(_ & Hs & Hh)]];
    [done|by apply shelfIffActive_trashed|].
  apply shelfIffActive_unshelved; [done|by rewrite Hs].
Qed.

Lemma stepOp_keeps_invariant op w :
  (∀ p, shelfIffActive (getO w.2 p) = true) →
  lifecycleOp w.2 op = true →
  ∀ p, shelfIffActive (getO (stepOp op w).2 p) = true.
Proof.
  destruct w as [k st]. simpl. intros Hall Hop q.
  assert (Hsplit : ∀ p (st' : Store),
            shelfIffActive (getO st' p) = true ∧
            (∀ q, p ≠ q → getO st' q = getO st q) →
            shelfIffActive (getO st' q) = true).
  { intros p st' [Hp Hfr]. destruct (decide (p = q)) as [<-|Hne]; [done|].
    by rewrite Hfr. }
  destruct op as [p|p|p|p|p e n eff|p s]; simpl in *; try done.
  - apply (Hsplit p). apply CreateOrder_keeps_invariant; [done|].
    by destruct (isTerminal (state (getO st p))).
  - apply (Hsplit p). apply SetOrderReady_keeps_invariant; [done|].
    destruct (state (getO st p)); try done; auto.
  - apply (Hsplit p). by apply SetOrderEnroute_keeps_invariant.
  - apply (Hsplit p). by apply SetOrderPickedUp_keeps_invariant.
Qed.

Lemma lifecycleRun_take n ops w :
  lifecycleRun ops w = true → lifecycleRun (take n ops) w = true.
Proof.
  revert n w. induction ops as [|op ops IH]; intros [|n] w; simpl; try done.
  intros [? ?]%andb_prop. apply andb_true_intro. split; [done|by apply IH].
Qed.

Lemma runOps_keeps_invariant ops w :
  (∀ p, shelfIffActive (getO w.2 p) = true) →
  lifecycleRun ops w = true →
  ∀ p, shelfIffActive (getO (runOps ops w).2 p) = true.
Proof.
  revert w. induction ops as [|op ops IH]; intros w Hall Hrun; [done|].
  simpl in Hrun. apply andb_prop in Hrun as [Hop Hrun].
  simpl. apply IH; [|done]. by apply stepOp_keeps_invariant.
Qed.

(** C2, as the code has it.  Along a history of lifecycle operations
    ([CreateOrder] never applied to a picked-up or trashed order,
    [SetOrderReady] only to a created, ready or enroute one) that starts
    from a store in which every order has a shelf exactly when it is
    [Ready] or [Enroute], the same holds of every order at the
    completion of each operation; in particular an order that has
    entered [PickedUp] or [Trashed] has no shelf. *)
Theorem lifecycle_keeps_shelf_iff_active (ops : list KitchenOp)
    (w : Kitchen * Store) (n : nat) (p : oref) :
  (∀ q, shelfIffActive (getO w.2 q) = true) →
  lifecycleRun ops w = true →
  let o := getO (runOps (take n ops) w).2 p in
  shelfIffActive o = true ∧
  (isTerminal (state o) = true → shelf o = None).
Proof.
  intros Hall Hrun o.
  assert (Ho : shelfIffActive o = true).
  { apply runOps_keeps_invariant; [done|by apply lifecycleRun_take]. }
  split; [done|]. intros Ht. apply shelfIffActive_inactive; [done|].
  by destruct (state o).
Qed.

Lemma placementStart_invariant q :
  shelfIffActive (getO placementStart.2 q) = true.
Proof.
  destruct q as [|[|[|q]]]; [vm_compute; reflexivity..|].
  unfold placementStart; cbn [snd]. rewrite !getO_setO_ne by done.
  unfold getO.
  assert (order_heap placementKitchen.2 = ∅) as -> by (vm_compute; reflexivity).
  by rewrite lookup_empty.
Qed.

Lemma lifecycle_keeps_shelf_iff_active_witness :
  let ops := [OpCreateOrder 0%nat; OpCreateOrder 1%nat; OpCreateOrder 2%nat;
              OpSetOrderEnroute 0%nat; OpSetOrderPickedUp 0%nat] in
  let o := getO (runOps (take 5 ops) placementStart).2 0%nat in
  shelfIffActive o = true ∧ (isTerminal (state o) = true → shelf o = None).
Proof.
  intros ops.
  apply (lifecycle_keeps_shelf_iff_active ops placementStart 5 0%nat).
  - apply placementStart_invariant.
  - vm_compute. reflexivity.
Defined.

Lemma NewOrder_invariant uuid n t life rate clock :
  shelfIffActive (NewOrder uuid n t life rate clock) = true.
Proof. done. Qed.

(** C2 does not hold of every history.  [SetShelf] puts an order on a
    shelf in whatever state it is: applied to a created order (as
    [SetOrderReady] itself does before the transition to [Ready]) it
    leaves the order [Created] on a shelf.  And [SetOrderReady] applied
    to an order that has been picked up puts it back on a free shelf
    while its state stays [PickedUp]. *)
Lemma shelf_iff_active_counterexample :
  (let w := runOps [OpTransitionOrder 0%nat Uninit Created noEffect;
                    OpSetShelf 0%nat 2%nat] placementStart in
   state (getO w.2 0%nat) = Created ∧
   shelf (getO w.2 0%nat) = Some 2%nat ∧
   shelfIffActive (getO w.2 0%nat) = false) ∧
  (let w := runOps [OpCreateOrder 0%nat; OpCreateOrder 1%nat;
                    OpCreateOrder 2%nat; OpSetOrderEnroute 0%nat;
                    OpSetOrderPickedUp 0%nat; OpSetOrderReady 0%nat]
              placementStart in
   state (getO w.2 0%nat) = PickedUp ∧
   shelf (getO w.2 0%nat) = Some 2%nat ∧
   orders (getS w.2 2%nat) !! "id1" = Some 0%nat ∧
   shelfIffActive (getO w.2 0%nat) = false).
Proof. vm_compute. repeat split; reflexivity. Qed.

(** ** The kitchen's fields *)

Lemma sameShelves_refl a : sameShelves a a.
Proof. destruct a; simpl; [reflexivity|exact I]. Qed.

Lemma sameShelves_trans a b c :
  sameShelves a b → sameShelves b c → sameShelves a c.
Proof.
  destruct a, b, c; simpl; try done. intros ? ?. by etrans.
Qed.

Lemma sameTopology_refl k : sameTopology k k.
Proof. repeat split. intros t. apply sameShelves_refl. Qed.

Lemma sameTopology_trans k1 k2 k3 :
  sameTopology k1 k2 → sameTopology k2 k3 → sameTopology k1 k3.
Proof.
  intros (?&?&?&H12) (?&?&?&H23). repeat split; try congruence.
  intros t. by eapply sameShelves_trans.
Qed.

Lemma SetOrderReady_index k p st :
  let k' := (SetOrderReady k p st).1.2 in
  let t0 := temp (getO st p) in
  sameTopology k k' ∧
  (∀ t, t ≠ t0 → supportedIndex k' !! t = supportedIndex k !! t) ∧
  (∀ l, supportedIndex k !! t0 = Some l →
        supportedIndex k' !! t0 =
          Some (sort_Slice (λ a b, PrimFloat.ltb (Decay st a) (Decay st b)) l)).
Proof.
  intros k' t0. unfold k', SetOrderReady. fold t0.
  destruct (supportedIndex k !! t0) as [l|] eqn:Ei.
  - set (sorted := sort_Slice _ l).
    set (K := mkKitchen (shelvesAsc k) (shelvesDesc k)
                (<[t0 := sorted]> (supportedIndex k)) (k_now k)).
    assert (HK : sameTopology k K ∧
                 (∀ t, t ≠ t0 → supportedIndex K !! t = supportedIndex k !! t) ∧
                 (∀ l', Some l = Some l' →
                        supportedIndex K !! t0 =
                          Some (sort_Slice
                                  (λ a b, PrimFloat.ltb (Decay st a) (Decay st b))
                                  l'))).
    { unfold K; simpl. split; [|split].
      + repeat split. intros t. simpl. destruct (decide (t = t0)) as [->|Hne].
        * rewrite Ei, lookup_insert_eq. simpl.
          symmetry. apply sort_Slice_Permutation.
        * rewrite lookup_insert_ne by done. apply sameShelves_refl.
      + intros t Hne. by rewrite lookup_insert_ne.
      + intros l' [= <-]. by rewrite lookup_insert_eq. }
    by destruct (optimizePlacement p sorted st) as [[|] st1].
  - simpl. split; [apply sameTopology_refl|]. split; [done|]. by rewrite Ei.
Qed.

Lemma stepOp_sameTopology op w : sameTopology w.1 (stepOp op w).1.
Proof.
  destruct w as [k st].
  destruct op as [p|p|p|p|p e n eff|p s]; simpl;
    try apply sameTopology_refl.
  - unfold CreateOrder. apply SetOrderReady_index.
  - apply SetOrderReady_index.
Qed.

(** C8, as the code has it.  No operation changes [shelvesAsc],
    [shelvesDesc] or [now], and the index keeps its keys and, for each
    temperature, the same shelves.  The order inside a per-temperature
    list is not kept: [SetOrderReady] (and [CreateOrder] through it)
    leaves the lists of the other temperatures alone and replaces the
    list of the order's own temperature by its sorted version. *)
Theorem kitchen_fields_kept (ops : list KitchenOp) (w : Kitchen * Store)
    (k : Kitchen) (p : oref) (st : Store) :
  sameTopology w.1 (runOps ops w).1 ∧
  (let k' := (SetOrderReady k p st).1.2 in
   let t0 := temp (getO st p) in
   sameTopology k k' ∧
   (∀ t, t ≠ t0 → supportedIndex k' !! t = supportedIndex k !! t) ∧
   (∀ l, supportedIndex k !! t0 = Some l →
         supportedIndex k' !! t0 =
           Some (sort_Slice
                   (λ a b, PrimFloat.ltb (Decay st a) (Decay st b)) l))).
Proof.
  split; [|apply SetOrderReady_index].
  revert w. induction ops as [|op ops IH]; intros w; simpl.
  - apply sameTopology_refl.
  - eapply sameTopology_trans; [apply stepOp_sameTopology|apply IH].
Qed.

(** C8 does not hold as stated: the kitchen lists the three hot shelves
    in configuration order, and the first [SetOrderReady] of a hot order
    leaves them in the index sorted by decay rate. *)
Lemma supportedIndex_counterexample :
  let k := placementCreated.1 in
  let k' := (SetOrderReady k 0%nat placementCreated.2).1.2 in
  k = (NewKitchen placementConfig clock0 emptyStore).1 ∧
  supportedIndex k !! "hot" = Some [0; 1; 2]%nat ∧
  supportedIndex k' !! "hot" = Some [2; 1; 0]%nat ∧
  supportedIndex k' ≠ supportedIndex k.
Proof.
  intros k k'.
  assert (E1 : supportedIndex k !! "hot" = Some [0; 1; 2]%nat)
    by (vm_compute; reflexivity).
  assert (E2 : supportedIndex k' !! "hot" = Some [2; 1; 0]%nat)
    by (vm_compute; reflexivity).
  split; [vm_compute; reflexivity|]. split; [exact E1|]. split; [exact E2|].
  intros Heq. rewrite Heq, E1 in E2. discriminate.
Qed.

(** ** Construction of the topology *)

Lemma buildShelf_static cfg st :
  ToLower (cfg_Type cfg) = "static" → buildShelf cfg st = (None, st).
Proof. intros H. unfold buildShelf. by rewrite H. Qed.

(** C9 fails on the code: a descriptor of type "static" reaches the
    empty [case "static":] clause, [buildShelf] returns nil and
    [buildTopology] skips the descriptor, so the kitchen has no shelf at
    all and a hot order is trashed as unsupported; the same descriptors
    without a type are built. *)
Theorem static_shelf_not_built :
  buildShelf (mkShelfConfig "hot" 1 ["hot"] 1%float "static") emptyStore
    = (None, emptyStore) ∧
  NewKitchen staticConfig clock0 emptyStore
    = (mkKitchen [] [] ∅ clock0, emptyStore) ∧
  (let k := (NewKitchen staticConfig clock0 emptyStore).1 in
   let st := setO 0%nat (NewOrder "id1" "test1" "hot" (100 * second)
                           0.25%float clock0) emptyStore in
   (CreateOrder k 0%nat st).1.1 = Some Unsupported ∧
   state (getO (CreateOrder k 0%nat st).2 0%nat) = Trashed) ∧
  (let w := NewKitchen untypedConfig clock0 emptyStore in
   shelvesAsc w.1 = [1; 0]%nat ∧
   name (getS w.2 0%nat) = "hot" ∧ name (getS w.2 1%nat) = "cold" ∧
   supportedIndex w.1 !! "hot" = Some [0%nat]).
Proof. vm_compute. repeat split; reflexivity. Qed.

(** *** What the index of a new kitchen contains *)

Lemma indexed_insert index x l t s :
  indexed (<[x := l]> index) t s ↔
  (t = x ∧ s ∈ l) ∨ (t ≠ x ∧ indexed index t s).
Proof.
  unfold indexed. destruct (decide (t = x)) as [->|Hne].
  - rewrite lookup_insert_eq. split.
    + intros (l' & [= <-] & Hs). by left.
    + intros [[_ Hs]|[Hc _]]; [by exists l|done].
  - rewrite lookup_insert_ne by done. split.
    + intros H. by right.
    + intros [[Hc _]|[_ H]]; done.
Qed.

Lemma indexShelf_indexed shelf sup index t s :
  indexed (indexShelf shelf sup index) t s ↔
  indexed index t s ∨ (s = shelf ∧ t ∈ sup).
Proof.
  revert index. induction sup as [|x sup IH]; intros index; simpl.
  - split; [by left|]. intros [?|[_ H]]; [done|by apply elem_of_nil in H].
  - rewrite IH, indexed_insert, elem_of_app, list_elem_of_singleton, elem_of_cons.
    unfold indexed. destruct (decide (t = x)) as [->|Hne].
    + destruct (index !! x) as [l|] eqn:E; simpl.
      * split.
        -- intros [[[_ [H| ->]]|[Hc _]]|[-> H]]; try done; eauto.
        -- intros [(l' & [= <-] & H)|[-> _]]; eauto.
      * split.
        -- intros [[[_ [H| ->]]|[Hc _]]|[-> H]]; try done; eauto.
           by apply elem_of_nil in H.
        -- intros [(l' & ? & H)|[-> _]]; [done|eauto].
    + split.
      * intros [[[Hc _]|[_ H]]|[-> H]]; try done; eauto.
      * intros [H|[-> [Hc|H]]]; try done; eauto.
Qed.

Lemma indexShelf_nonempty shelf sup index :
  (∀ t l, index !! t = Some l → l ≠ []) →
  ∀ t l, indexShelf shelf sup index !! t = Some l → l ≠ [].
Proof.
  revert index. induction sup as [|x sup IH]; intros index H; [done|].
  simpl. apply IH. intros t l. destruct (decide (t = x)) as [->|Hne].
  - rewrite lookup_insert_eq. intros [= <-]. by destruct (default [] _).
  - rewrite lookup_insert_ne by done. apply H.
Qed.

Lemma buildTopologyLoop_inv topology shelves index st :
  topologyInv shelves index st →
  let r := buildTopologyLoop topology shelves index st in
  topologyInv r.1.1 r.1.2 r.2.
Proof.
  revert shelves index st.
  induction topology as [|c topology IH]; intros shelves index st Hinv; [done|].
  simpl. unfold buildShelf.
  destruct (String.eqb (ToLower (cfg_Type c)) "static"); [by apply IH|].
  unfold allocShelf.
  set (r := fresh (dom (shelf_heap st))).
  set (sh := NewStaticShelf _ _ _ _).
  apply IH. destruct Hinv as (Hal & Hix & Hne).
  assert (Hfresh : shelf_heap st !! r = None).
  { apply not_elem_of_dom. apply is_fresh. }
  assert (Hold : ∀ s, s ∈ shelves → getS (setS r sh st) s = getS st s).
  { intros s Hs. apply getS_setS_ne. intros ->.
    destruct (Hal _ Hs) as [? E]. congruence. }
  split; [|split].
  - intros s [Hs| ->%list_elem_of_singleton]%elem_of_app.
    + destruct (decide (r = s)) as [->|Hrs].
      * unfold setS; simpl. rewrite lookup_insert_eq. by eexists.
      * unfold setS; simpl. rewrite lookup_insert_ne by done. by apply Hal.
    + unfold setS; simpl. rewrite lookup_insert_eq. by eexists.
  - intros t s. rewrite indexShelf_indexed, Hix, elem_of_app,
      list_elem_of_singleton, getS_setS. split.
    + intros [[Hs Ht]|[-> Ht]].
      * split; [by left|]. by rewrite Hold.
      * split; [by right|]. by rewrite getS_setS.
    + intros [[Hs| ->] Ht].
      * left. split; [done|]. by rewrite Hold in Ht.
      * right. split; [done|]. by rewrite getS_setS in Ht.
  - by apply indexShelf_nonempty.
Qed.

(** X24.  The index of a new kitchen has an entry for a temperature
    exactly when one of the kitchen's shelves supports it, and the entry
    lists exactly those shelves; [shelvesDesc] holds the shelves of
    [shelvesAsc]. *)
Lemma NewKitchen_index cfg clock st :
  let w := NewKitchen cfg clock st in
  (∀ t s, indexed (supportedIndex w.1) t s ↔
          s ∈ shelvesAsc w.1 ∧ t ∈ supported (getS w.2 s)) ∧
  (∀ t, supportedIndex w.1 !! t = None ↔
        ∀ s, s ∈ shelvesAsc w.1 → t ∉ supported (getS w.2 s)) ∧
  shelvesDesc w.1 ≡ₚ shelvesAsc w.1.
Proof.
  unfold NewKitchen, buildTopology.
  pose proof (buildTopologyLoop_inv (Topology cfg) [] ∅ st) as Hinv.
  destruct (buildTopologyLoop (Topology cfg) [] ∅ st)
    as [[shelves index] st'] eqn:E.
  simpl in *.
  destruct Hinv as (_ & Hix & Hne).
  { split; [|split].
    - intros s Hs. by apply elem_of_nil in Hs.
    - intros t s. split.
      + intros (l & Hl & _). by rewrite lookup_empty in Hl.
      + intros [Hs _]. by apply elem_of_nil in Hs.
    - intros t l Hl. by rewrite lookup_empty in Hl. }
  split; [|split].
  - intros t s. rewrite Hix. by rewrite elem_of_sort_Slice.
  - intros t. split.
    + intros Hnone s Hs Ht. apply elem_of_sort_Slice in Hs.
      destruct (proj2 (Hix t s) (conj Hs Ht)) as (l & Hl & _). congruence.
    + intros Hno. destruct (index !! t) as [l|] eqn:El; [|done].
      exfalso. destruct l as [|s l]; [by apply (Hne t [])|].
      destruct (proj1 (Hix t s)) as [Hs Ht]; [exists (s :: l); split; [done|by left]|].
      apply (Hno s); [by apply elem_of_sort_Slice|done].
  - by rewrite !sort_Slice_Permutation.
Qed.

(** * Further properties of the package *)

(** ** The static shelf as a container *)

(** X1.  Once a [Put] of an id has been accepted, any further [Put] of
    that id, with the same or another order, is accepted and leaves the
    shelf exactly as it is: the occupancy does not grow and the stored
    order is not replaced. *)
Theorem Put_idempotent (o o' : oref) (oid : string) (s : staticShelf) :
  (Put o oid s).1 = None →
  Put o' oid (Put o oid s).2 = (None, (Put o oid s).2).
Proof.
  intros H. destruct (Put_ok_lookup o oid s H) as [x Hx].
  unfold Put at 1. by rewrite Hx.
Qed.

Lemma Put_idempotent_witness :
  let s := NewStaticShelf "hot" 1 ["hot"] 1%float in
  Put 7%nat "a" (Put 0%nat "a" s).2 = (None, (Put 0%nat "a" s).2).
Proof.
  intros s. apply (Put_idempotent 0%nat 7%nat "a" s).
  vm_compute. reflexivity.
Defined.

(** X2.  After an accepted [Put], [Get] of that id succeeds; it returns
    the order just put when the id was absent and the order already
    stored otherwise.  [Get] of any other id answers as before, and
    [Get] of an id that is not on the shelf returns no order and
    [NotFound]. *)
Theorem Put_then_Get (o : oref) (oid : string) (s : staticShelf) :
  (Put o oid s).1 = None →
  Get oid (Put o oid s).2 = (Some (default o (orders s !! oid)), None) ∧
  (∀ oid', oid' ≠ oid → Get oid' (Put o oid s).2 = Get oid' s) ∧
  (∀ oid', orders s !! oid' = None → Get oid' s = (None, Some NotFound)).
Proof.
  intros H. split; [|split].
  - revert H. unfold Put, Get. destruct (orders s !! oid) as [x|] eqn:E; simpl.
    + intros _. by rewrite E.
    + destruct (capacity s <=? numOrders s); simpl; [done|].
      intros _. by rewrite lookup_insert_eq.
  - intros oid' Hne. unfold Put, Get.
    destruct (orders s !! oid) as [x|] eqn:E; simpl; [done|].
    destruct (capacity s <=? numOrders s); simpl; [done|].
    by rewrite lookup_insert_ne.
  - intros oid' E. unfold Get. by rewrite E.
Qed.

Lemma Put_then_Get_witness :
  let s := NewStaticShelf "hot" 1 ["hot"] 1%float in
  Get "a" (Put 3%nat "a" s).2 = (Some 3%nat, None).
Proof.
  intros s. refine (proj1 (Put_then_Get 3%nat "a" s _)).
  vm_compute. reflexivity.
Defined.

(** X3.  [Remove] reports [NotFound] exactly when the id is not on the
    shelf, and then changes nothing; in every case the id is not found
    afterwards, the other ids are found as before, and the counter drops
    by one exactly when an entry was removed. *)
Theorem Remove_then_Get (oid : string) (s : staticShelf) :
  ((Remove oid s).1 = Some NotFound ↔ orders s !! oid = None) ∧
  ((Remove oid s).1 = None ↔ is_Some (orders s !! oid)) ∧
  (orders s !! oid = None → (Remove oid s).2 = s) ∧
  Get oid (Remove oid s).2 = (None, Some NotFound) ∧
  (∀ oid', oid' ≠ oid → Get oid' (Remove oid s).2 = Get oid' s) ∧
  numOrders (Remove oid s).2 =
    match orders s !! oid with
    | Some _ => numOrders s - 1
    | None => numOrders s
    end.
Proof.
  unfold Remove, Get. destruct (orders s !! oid) as [x|] eqn:E; simpl.
  - split; [split; done|]. split; [split; [by eexists|done]|].
    split; [done|]. rewrite lookup_delete_eq. split; [done|]. split; [|done].
    intros oid' Hne. by rewrite lookup_delete_ne.
  - split; [done|]. split; [split; [done|by intros [? ?]]|].
    split; [done|]. rewrite E. done.
Qed.

(** X4.  A [Put] of a new id on a shelf with room followed by the
    [Remove] of that id gives back the shelf as it was, counter
    included. *)
Theorem Put_Remove_roundtrip (o : oref) (oid : string) (s : staticShelf) :
  orders s !! oid = None →
  numOrders s < capacity s →
  (Put o oid s).1 = None ∧ Remove oid (Put o oid s).2 = (None, s).
Proof.
  intros E Hc. unfold Put. rewrite E.
  destruct (Z.leb_spec (capacity s) (numOrders s)); [lia|]. simpl.
  split; [done|]. unfold Remove; simpl. rewrite lookup_insert_eq.
  rewrite delete_insert_id by done.
  replace (numOrders s + 1 - 1) with (numOrders s) by lia.
  by destruct s.
Qed.

Lemma Put_Remove_roundtrip_witness :
  let s := (Put 0%nat "a" (NewStaticShelf "hot" 2 ["hot"] 1%float)).2 in
  Remove "b" (Put 1%nat "b" s).2 = (None, s).
Proof.
  intros s. refine (proj2 (Put_Remove_roundtrip 1%nat "b" s _ _)).
  - vm_compute. reflexivity.
  - vm_compute. reflexivity.
Defined.

Lemma fillSlice_exact vs pre :
  fillSlice vs (length pre) (pre ++ replicate (length vs) None)
  = Some (pre ++ (Some <$> vs)).
Proof.
  revert pre. induction vs as [|v vs IH]; intros pre; simpl.
  - by rewrite !app_nil_r.
  - rewrite length_app; simpl. rewrite length_replicate.
    destruct (decide (length pre < length pre + S (length vs))%nat); [|lia].
    replace (<[length pre:=Some v]> (pre ++ None :: replicate (length vs) None))
      with ((pre ++ [Some v]) ++ replicate (length vs) None).
    + replace (S (length pre)) with (length (pre ++ [Some v]))
        by (rewrite length_app; simpl; lia).
      rewrite IH. by rewrite <- app_assoc.
    + rewrite <- app_assoc. simpl.
      rewrite insert_app_r_alt by lia. by rewrite Nat.sub_diag.
Qed.

(** X5.  On a shelf whose counter agrees with its map (every shelf
    reached by [Put] and [Remove] from a new one), [Orders] does not
    panic and returns a slice of exactly [numOrders] entries, none of
    them nil: the orders stored in the map. *)
Theorem Orders_exact (s : staticShelf) :
  numOrders s = Z.of_nat (size (orders s)) →
  OrdersSlice s = Some (Some <$> Orders s) ∧
  Z.of_nat (length (Orders s)) = numOrders s ∧
  (∀ o, o ∈ Orders s ↔ ∃ oid, orders s !! oid = Some o).
Proof.
  intros Hn. unfold OrdersSlice, Orders.
  assert (Hlen : length (map_to_list (orders s)).*2 = size (orders s)).
  { by rewrite length_fmap, length_map_to_list. }
  split; [|split].
  - destruct (Z.ltb_spec (numOrders s) 0); [lia|].
    rewrite Hn, Nat2Z.id, <- Hlen.
    apply (fillSlice_exact _ []).
  - rewrite Hlen. lia.
  - intros o. rewrite list_elem_of_fmap. split.
    + intros ([oid x] & -> & Hin). exists oid. by apply elem_of_map_to_list.
    + intros (oid & Hin). exists (oid, o). split; [done|].
      by apply elem_of_map_to_list.
Qed.

Lemma Orders_exact_witness :
  let s := runShelf [OpPut 0%nat "a"; OpPut 1%nat "b"; OpRemove "a"]
             (NewStaticShelf "hot" 2 ["hot"] 1%float) in
  OrdersSlice s = Some [Some 1%nat].
Proof.
  intros s. destruct (Orders_exact s) as [H _].
  - vm_compute. reflexivity.
  - rewrite H. vm_compute. reflexivity.
Defined.

(** ** The order state machine *)






Lemma legal_refl_or_step a b :
  a = b ∨ legalStep a b → rtc legalStep a b.
Proof. intros [->|H]; [done|by apply rtc_once]. Qed.





(** ** Lifecycle operations, case by case *)

Lemma SetShelf_unshelved st p s st' :
  shelf (getO st p) = None →
  SetShelf p s st = (None, st') →
  (Put p (order_id (getO st p)) (getS st s)).1 = None ∧
  st' = setO p (set_placedAt (now (getO st p))
                  (set_shelf (Some s) (getO st p)))
          (setS s (Put p (order_id (getO st p)) (getS st s)).2 st).
Proof.
  intros Hsh HS.
  destruct (Put p (order_id (getO st p)) (getS st s)).1 as [e|] eqn:EP.
  { rewrite (SetShelf_error _ _ _ _ EP) in HS. done. }
  split; [done|].
  pose proof (SetShelf_ok st p s EP) as HK. simpl in HK.
  rewrite HK in HS. injection HS as <-.
  rewrite removeOrder_unshelved by (by rewrite getO_setS).
  unfold detached. by rewrite Hsh.
Qed.

Lemma SetOrderReady_created_outcome k p st :
  let o := getO st p in
  let r := SetOrderReady k p st in
  let o' := getO r.2 p in
  state o = Created → shelf o = None →
  order_heap r.2 !! p = Some o' ∧
  createdAt o' = createdAt o ∧ order_id o' = order_id o ∧
  (r.1.1 = Some Unsupported ↔ supportedIndex k !! temp o = None) ∧
  ((r.1.1 = None ∧ state o' = Ready ∧ readyAt o' = k_now k ∧
    placedAt o' = now o ∧
    ∃ s, shelf o' = Some s ∧
         s ∈ default [] (supportedIndex k !! temp o) ∧
         temp o ∈ supported (getS st s) ∧
         is_Some (orders (getS r.2 s) !! order_id o)) ∨
   ((r.1.1 = Some Unsupported ∨ r.1.1 = Some NoShelf) ∧
    state o' = Trashed ∧ trashedAt o' = k_now k ∧ shelf o' = None ∧
    shelf_heap r.2 = shelf_heap st)).
Proof.
  intros o r o' Hst Hsh.
  assert (Hne : isExpired st o = false)
    by (apply isExpired_inactive; by rewrite Hst).
  assert (Htrash : ∀ eff, TransitionOrder p Created Trashed eff st
                          = eff p (setO p (set_state Trashed o) st)).
  { intros eff. pose proof (TransitionOrder_proceed p Trashed eff st) as H.
    fold o in H. rewrite Hst in H. by apply H. }
  unfold o', r, SetOrderReady. fold o.
  destruct (supportedIndex k !! temp o) as [cands|] eqn:Ei.
  - set (sorted := sort_Slice _ cands).
    assert (Hopt : optimizePlacement p sorted st
                   = placeLoop p (temp o) None sorted st).
    { unfold optimizePlacement. fold o. by rewrite Hne, Hsh. }
    rewrite Hopt.
    destruct (placeLoop_spec p (temp o) None sorted st)
      as [->|(s & st' & -> & Hs & Hsup & _ & HS)].
    + rewrite Htrash. simpl. rewrite !getO_setO.
      rewrite removeOrder_unshelved by (by rewrite getO_setO).
      rewrite getO_setO. simpl.
      split; [first [apply lookup_setO|apply lookup_insert_eq]|]. do 2 (split; [done|]).
      split; [done|]. right. split; [by right|done].
    + destruct (SetShelf_unshelved st p s st' Hsh HS) as [HP ->]. fold o in HP |- *.
      set (o1 := set_placedAt (now o) (set_shelf (Some s) o)).
      set (st1 := setO p o1 _).
      assert (H1 : getO st1 p = o1) by apply getO_setO.
      pose proof (TransitionOrder_proceed p Ready
        (λ o0 s0, (None, setO o0 (set_readyAt (k_now k) (getO s0 o0)) s0))
        st1) as HT.
      rewrite H1 in HT. simpl in HT. rewrite Hst in HT.
      rewrite HT by (try done; apply isExpired_inactive; simpl; by rewrite Hst).
      simpl. rewrite !getO_setO. simpl.
      split; [first [apply lookup_setO|apply lookup_insert_eq]|]. do 2 (split; [done|]).
      split; [done|]. left. do 4 (split; [done|]). exists s.
      split; [done|]. split; [by apply elem_of_sort_Slice in Hs|].
      split; [done|].
      unfold st1. rewrite !getS_setO, getS_setS. by apply Put_ok_lookup.
  - rewrite Htrash. simpl. rewrite !getO_setO.
    rewrite removeOrder_unshelved by (by rewrite getO_setO).
    rewrite getO_setO. simpl.
    split; [first [apply lookup_setO|apply lookup_insert_eq]|]. do 2 (split; [done|]).
    split; [done|]. right. split; [by left|done].
Qed.

(** X7.  [CreateOrder] on a new order (uninitialised, on no shelf) never
    leaves it [Created]: [createdAt] is stamped with the kitchen clock
    and the order ends either [Ready], with [readyAt] stamped, on a
    shelf listed for its temperature that holds its id, and the result
    is ok; or [Trashed], with [trashedAt] stamped, on no shelf, the
    shelves untouched, and the result is [Unsupported] (exactly when the
    index has no entry for the temperature) or [NoShelf]. *)
Theorem CreateOrder_fresh (k : Kitchen) (p : oref) (o : Order) (st : Store) :
  order_heap st !! p = Some o →
  state o = Uninit →
  shelf o = None →
  let r := CreateOrder k p st in
  ∃ o', order_heap r.2 !! p = Some o' ∧
    createdAt o' = k_now k ∧ order_id o' = order_id o ∧
    (r.1.1 = Some Unsupported ↔ supportedIndex k !! temp o = None) ∧
    ((r.1.1 = None ∧ state o' = Ready ∧ readyAt o' = k_now k ∧
      placedAt o' = now o ∧
      ∃ s, shelf o' = Some s ∧
           s ∈ default [] (supportedIndex k !! temp o) ∧
           temp o ∈ supported (getS st s) ∧
           is_Some (orders (getS r.2 s) !! order_id o)) ∨
     ((r.1.1 = Some Unsupported ∨ r.1.1 = Some NoShelf) ∧
      state o' = Trashed ∧ trashedAt o' = k_now k ∧ shelf o' = None ∧
      shelf_heap r.2 = shelf_heap st)).
Proof.
  intros Ho Hst Hsh r. apply getO_Some in Ho. unfold r, CreateOrder.
  pose proof (TransitionOrder_proceed p Created
    (λ o0 s0, (None, setO o0 (set_createdAt (k_now k) (getO s0 o0)) s0))
    st) as HT.
  rewrite Ho, Hst in HT. rewrite HT; [|done|].
  2:{ apply isExpired_inactive. by rewrite Hst. }
  simpl. rewrite getO_setO.
  set (o1 := set_createdAt (k_now k) (set_state Created o)).
  set (st1 := setO p o1 _).
  assert (H1 : getO st1 p = o1) by apply getO_setO.
  pose proof (SetOrderReady_created_outcome k p st1) as HR.
  simpl in HR. rewrite H1 in HR.
  destruct HR as (Hl & Hc & Hid & Hun & Hcases); [done|done|].
  eexists. split; [exact Hl|]. split; [by rewrite Hc|].
  split; [by rewrite Hid|]. split; [exact Hun|].
  destruct Hcases as [(?&?&?&?&s&?&?&?&?)|(?&?&?&?&?)].
  - left. do 4 (split; [done|]). exists s. done.
  - right. done.
Qed.

Lemma CreateOrder_fresh_witness :
  ∃ o', order_heap (CreateOrder placementStart.1 0%nat placementStart.2).2
          !! 0%nat = Some o' ∧ createdAt o' = clock0.
Proof.
  destruct (CreateOrder_fresh placementStart.1 0%nat
              (getO placementStart.2 0%nat) placementStart.2)
    as (o' & H1 & H2 & _).
  - vm_compute. reflexivity.
  - vm_compute. reflexivity.
  - vm_compute. reflexivity.
  - exists o'. split; [exact H1|]. rewrite H2. vm_compute. reflexivity.
Defined.

(** X8.  [SetOrderEnroute] has exactly three outcomes: [WrongState]
    with nothing changed when the order is not [Ready]; [Expired],
    with the order trashed and detached, when it is [Ready] and expired;
    and ok when it is [Ready] and not expired, in which case only the
    state (now [Enroute]) and [enrouteAt] (the kitchen clock) of that
    order change: it stays on its shelf and no shelf is touched. *)
Theorem SetOrderEnroute_outcomes (k : Kitchen) (p : oref) (o : Order)
    (st : Store) :
  order_heap st !! p = Some o →
  let r := SetOrderEnroute k p st in
  (state o ≠ Ready → r = (Some WrongState, st)) ∧
  (state o = Ready → isExpired st o = true →
   r = (Some Expired,
        removeOrder p
          (setO p (set_trashedAt (now o) (set_state Trashed o)) st))) ∧
  (state o = Ready → isExpired st o = false →
   r = (None, setO p (set_enrouteAt (k_now k) (set_state Enroute o)) st)).
Proof.
  intros Ho r. apply getO_Some in Ho. unfold r, SetOrderEnroute.
  split; [|split].
  - intros Hne. apply TransitionOrder_mismatch. by rewrite Ho.
  - intros Hs He.
    pose proof (TransitionOrder_hijack p Enroute
      (λ o0 s0, (None, setO o0 (set_enrouteAt (k_now k) (getO s0 o0)) s0))
      st) as HT.
    rewrite Ho, Hs in HT. by apply HT.
  - intros Hs He.
    pose proof (TransitionOrder_proceed p Enroute
      (λ o0 s0, (None, setO o0 (set_enrouteAt (k_now k) (getO s0 o0)) s0))
      st) as HT.
    rewrite Ho, Hs in HT. rewrite HT by done. simpl.
    rewrite getO_setO. f_equal. unfold setO; simpl.
    by rewrite insert_insert_eq.
Qed.

Lemma SetOrderEnroute_outcomes_witness :
  (SetOrderEnroute placementReady.1 0%nat placementReady.2).1 = None ∧
  (SetOrderEnroute placementLater.1 0%nat placementLater.2).1 = Some Expired.
Proof.
  split.
  - pose proof (SetOrderEnroute_outcomes placementReady.1 0%nat
                  (getO placementReady.2 0%nat) placementReady.2) as H.
    destruct H as (_ & _ & H); [vm_compute; reflexivity|].
    rewrite H; [done|vm_compute; reflexivity..].
  - pose proof (SetOrderEnroute_outcomes placementLater.1 0%nat
                  (getO placementLater.2 0%nat) placementLater.2) as H.
    destruct H as (_ & H & _); [vm_compute; reflexivity|].
    rewrite H; [done|vm_compute; reflexivity..].
Defined.

(** X9.  [SetOrderPickedUp] likewise: [WrongState] with nothing changed
    unless the order is [Enroute]; [Expired] with the order trashed when
    it is expired; otherwise ok, and the order is [PickedUp] with
    [pickedUpAt] the kitchen clock, has no shelf, has the decay of the
    shelf it leaves credited up to the order's own clock, and is gone
    from that shelf's map. *)
Theorem SetOrderPickedUp_outcomes (k : Kitchen) (p : oref) (o : Order)
    (st : Store) :
  order_heap st !! p = Some o →
  let r := SetOrderPickedUp k p st in
  (state o ≠ Enroute → r = (Some WrongState, st)) ∧
  (state o = Enroute → isExpired st o = true →
   r.1 = Some Expired ∧ state (getO r.2 p) = Trashed ∧
   shelf (getO r.2 p) = None) ∧
  (state o = Enroute → isExpired st o = false →
   r.1 = None ∧
   getO r.2 p =
     detached st (set_pickedUpAt (k_now k) (set_state PickedUp o)) ∧
   state (getO r.2 p) = PickedUp ∧ pickedUpAt (getO r.2 p) = k_now k ∧
   shelf (getO r.2 p) = None ∧
   (∀ s, shelf o = Some s →
         orders (getS r.2 s) = delete (order_id o) (orders (getS st s)) ∧
         prevDecayed (getO r.2 p) =
           PrimFloat.add (prevDecayed o)
             (PrimFloat.mul (decayRate (getS st s))
                (float64_of_int64 (Time_Sub (now o) (placedAt o)))))).
Proof.
  intros Ho r. apply getO_Some in Ho. unfold r, SetOrderPickedUp.
  split; [|split].
  - intros Hne. apply TransitionOrder_mismatch. by rewrite Ho.
  - intros Hs He.
    pose proof (TransitionOrder_hijack p PickedUp
      (λ o0 s0,
         (None, removeOrder p
                  (setO o0 (set_pickedUpAt (k_now k) (getO s0 o0)) s0)))
      st) as HT.
    rewrite Ho, Hs in HT. rewrite HT by done. simpl.
    pose proof (hijacked_order st p) as HH. simpl in HH. rewrite Ho in HH.
    destruct HH as (? & ? & _). done.
  - intros Hs He.
    pose proof (TransitionOrder_proceed p PickedUp
      (λ o0 s0,
         (None, removeOrder p
                  (setO o0 (set_pickedUpAt (k_now k) (getO s0 o0)) s0)))
      st) as HT.
    rewrite Ho, Hs in HT. rewrite HT by done. simpl.
    rewrite getO_setO.
    set (o1 := set_pickedUpAt (k_now k) (set_state PickedUp o)).
    set (st1 := setO p o1 _).
    assert (H1 : getO st1 p = o1) by apply getO_setO.
    split; [done|]. rewrite removeOrder_order, H1.
    assert (Hd : detached st1 o1 = detached st o1) by done.
    rewrite Hd. split; [done|].
    split; [by unfold detached, o1; simpl; destruct (shelf o)|].
    split; [by unfold detached, o1; simpl; destruct (shelf o)|].
    split; [by unfold detached, o1; simpl; destruct (shelf o) eqn:E|].
    intros s Hsh. split.
    + rewrite removeOrder_shelf by (by rewrite H1).
      rewrite H1. unfold st1. rewrite !getS_setO. apply Remove_orders.
    + unfold detached, o1; simpl. by rewrite Hsh.
Qed.

Lemma SetOrderPickedUp_outcomes_witness :
  let w := runOps [OpSetOrderEnroute 0%nat] placementReady in
  (SetOrderPickedUp w.1 0%nat w.2).1 = None ∧
  state (getO (SetOrderPickedUp w.1 0%nat w.2).2 0%nat) = PickedUp.
Proof.
  intros w.
  pose proof (SetOrderPickedUp_outcomes w.1 0%nat (getO w.2 0%nat) w.2) as H.
  destruct H as (_ & _ & H); [vm_compute; reflexivity|].
  destruct H as (H1 & _ & H2 & _); [vm_compute; reflexivity..|].
  split; [exact H1|exact H2].
Defined.

(** ** Value of a finished order; [SetShelf] onto the current shelf *)

(** X10.  The age and the value of a picked-up order, and of a trashed
    order that is on no shelf, do not depend on the clock any more, and
    such an order is never expired. *)
Theorem finished_value_frozen (st : Store) (o : Order) (t : Time) :
  state o = PickedUp ∨ (state o = Trashed ∧ shelf o = None) →
  age (set_now t o) = age o ∧
  value st (set_now t o) = value st o ∧
  isExpired st (set_now t o) = false.
Proof.
  intros [Hs|[Hs Hh]]; unfold value, rawValue, decayed, isExpired, age;
    simpl; rewrite Hs; [done|]. by rewrite Hh.
Qed.

Lemma finished_value_frozen_witness :
  let st := placementDelivered.2 in
  value st (set_now (clock0 + 600 * second) (getO st 0%nat))
    = value st (getO st 0%nat).
Proof.
  intros st.
  refine (proj1 (proj2 (finished_value_frozen st (getO st 0%nat)
                          (clock0 + 600 * second) _))).
  left. vm_compute. reflexivity.
Defined.

(** X11.  [SetShelf] onto the shelf the order is already on succeeds,
    but the idempotent [Put] is followed by the removal from the
    previous shelf, which is the same shelf: the order keeps its
    back-reference and is no longer in the shelf's map, whose counter
    has dropped by one. *)
Theorem SetShelf_onto_current_shelf (p : oref) (o : Order) (s : sref)
    (st : Store) :
  order_heap st !! p = Some o →
  shelf o = Some s →
  is_Some (orders (getS st s) !! order_id o) →
  let r := SetShelf p s st in
  r.1 = None ∧
  shelf (getO r.2 p) = Some s ∧
  orders (getS r.2 s) !! order_id o = None ∧
  numOrders (getS r.2 s) = numOrders (getS st s) - 1.
Proof.
  intros Ho Hsh [x Hx] r. apply getO_Some in Ho.
  assert (HP : Put p (order_id o) (getS st s) = (None, getS st s)).
  { unfold Put. by rewrite Hx. }
  assert (EP : (Put p (order_id (getO st p)) (getS st s)).1 = None)
    by (by rewrite Ho, HP).
  unfold r. rewrite (SetShelf_ok st p s EP). simpl.
  rewrite Ho, HP. simpl. rewrite getO_setO. simpl.
  split; [done|]. split; [done|].
  rewrite getS_setO.
  set (st1 := setS s (getS st s) st).
  assert (Hg : getO st1 p = o) by done.
  rewrite removeOrder_shelf by (by rewrite Hg).
  rewrite Hg. unfold st1. rewrite getS_setS.
  unfold Remove. rewrite Hx. simpl. by rewrite lookup_delete_eq.
Qed.

Lemma SetShelf_onto_current_shelf_witness :
  let st := placementReady.2 in
  shelf (getO (SetShelf 0%nat 2%nat st).2 0%nat) = Some 2%nat ∧
  orders (getS (SetShelf 0%nat 2%nat st).2 2%nat) !! "id1" = None.
Proof.
  intros st.
  destruct (SetShelf_onto_current_shelf 0%nat (getO st 0%nat) 2%nat st)
    as (_ & H1 & H2 & _).
  - vm_compute. reflexivity.
  - vm_compute. reflexivity.
  - vm_compute. by eexists.
  - split; [exact H1|]. exact H2.
Defined.

(** ** Construction of the kitchen *)

Lemma buildTopologyLoop_exact topology shelves index st :
  let r := buildTopologyLoop topology shelves index st in
  ∃ new, r.1.1 = shelves ++ new ∧
    getS r.2 <$> new = shelfOf <$> filter isBuilt topology ∧
    NoDup new ∧
    (∀ s, s ∈ new → shelf_heap st !! s = None) ∧
    (∀ s, s ∉ new → shelf_heap r.2 !! s = shelf_heap st !! s) ∧
    order_heap r.2 = order_heap st.
Proof.
  revert shelves index st.
  induction topology as [|c topology IH]; intros shelves index st; simpl.
  { exists []. rewrite app_nil_r. split; [done|]. split; [done|].
    split; [apply NoDup_nil_2|]. split; [|done].
    intros s Hs. by apply elem_of_nil in Hs. }
  unfold buildShelf.
  destruct (String.eqb_spec (ToLower (cfg_Type c)) "static") as [Hs|Hs].
  { rewrite filter_cons_False by (by intros Hb; apply Hb). apply IH. }
  rewrite filter_cons_True by done.
  unfold allocShelf.
  set (r := fresh (dom (shelf_heap st))).
  set (sh := NewStaticShelf _ _ _ _).
  assert (Hfresh : shelf_heap st !! r = None).
  { apply not_elem_of_dom. apply is_fresh. }
  pose proof (IH (shelves ++ [r])
                (indexShelf r (supported (getS (setS r sh st) r)) index)
                (setS r sh st)) as HI.
  cbv zeta in HI.
  set (res := buildTopologyLoop topology (shelves ++ [r]) _ (setS r sh st))
    in *.
  destruct HI as (new & E1 & E2 & Hnd & Hnew & Hold & Hord).
  assert (Hr : r ∉ new).
  { intros Hin. specialize (Hnew r Hin).
    unfold setS in Hnew; simpl in Hnew. by rewrite lookup_insert_eq in Hnew. }
  exists (r :: new). split; [by rewrite E1, <- app_assoc|].
  split; [|split; [|split; [|split]]].
  - rewrite !fmap_cons. f_equal; [|done].
    unfold getS. rewrite (Hold r Hr). unfold setS; simpl.
    by rewrite lookup_insert_eq.
  - by constructor.
  - intros s [->|Hin]%elem_of_cons; [done|].
    specialize (Hnew s Hin). unfold setS in Hnew; simpl in Hnew.
    destruct (decide (r = s)) as [->|Hne].
    + by rewrite lookup_insert_eq in Hnew.
    + by rewrite lookup_insert_ne in Hnew.
  - intros s Hs'. apply not_elem_of_cons in Hs' as [Hne Hs'].
    rewrite (Hold s Hs'). unfold setS; simpl. by rewrite lookup_insert_ne.
  - done.
Qed.


(** ** Sorted shelves *)

Lemma bubble_Sorted {A} (less : A → A → bool) x pre :
  (∀ a b, less a b = true → less b a = false) →
  Sorted (λ a b, less a b = false) pre →
  Sorted (λ a b, less a b = false) (bubble less x pre) ∧
  (∀ z, less z x = false → HdRel (λ a b, less a b = false) z pre →
        HdRel (λ a b, less a b = false) z (bubble less x pre)).
Proof.
  intros Hasym. induction pre as [|y pre IH]; intros Hs; simpl.
  - split; [repeat constructor|]. intros z Hz _. by constructor.
  - apply Sorted_inv in Hs as [Hs Hhd].
    destruct (less x y) eqn:E.
    + destruct (IH Hs) as [IH1 IH2]. split.
      * constructor; [done|]. apply IH2; [by apply Hasym|done].
      * intros z Hz Hzy. constructor. by apply HdRel_inv in Hzy.
    + split.
      * constructor; [by constructor|by constructor].
      * intros z Hz _. by constructor.
Qed.

Lemma sort_Slice_Sorted {A} (less : A → A → bool) l :
  (∀ a b, less a b = true → less b a = false) →
  Sorted (λ a b, less b a = false) (sort_Slice less l).
Proof.
  intros Hasym. unfold sort_Slice. rewrite rev_alt.
  change (rev_append ?x []) with (reverse x).
  apply (Sorted_reverse (λ a b, less a b = false)).
  assert (H : ∀ acc, Sorted (λ a b, less a b = false) acc →
            Sorted (λ a b, less a b = false)
              (fold_left (λ pre x, bubble less x pre) l acc)).
  { induction l as [|x l IH]; intros acc Hacc; [done|].
    simpl. apply IH. by apply bubble_Sorted. }
  apply H. constructor.
Qed.

Lemma ltb_asym (a b : float) :
  PrimFloat.ltb a b = true → PrimFloat.ltb b a = false.
Proof.
  rewrite !FloatAxioms.ltb_spec. unfold SFltb.
  rewrite (SFcompare_antisym (Prim2SF a) (Prim2SF b)).
  by destruct (SFcompare (Prim2SF a) (Prim2SF b)) as [[]|].
Qed.

(** X13.  In a new kitchen no shelf of [shelvesAsc] is followed by a
    shelf of strictly smaller decay rate and no shelf of [shelvesDesc]
    by one of strictly greater decay rate; and after [SetOrderReady] the
    index entry of the order's temperature, if there is one, is in
    ascending order in the same sense. *)
Theorem shelves_sorted (cfg : kitchenConfig) (clock : Time) (st : Store)
    (k : Kitchen) (p : oref) :
  (let w := NewKitchen cfg clock st in
   Sorted (λ a b, PrimFloat.ltb (Decay w.2 b) (Decay w.2 a) = false)
     (shelvesAsc w.1) ∧
   Sorted (λ a b, PrimFloat.ltb (Decay w.2 a) (Decay w.2 b) = false)
     (shelvesDesc w.1)) ∧
  (∀ l, supportedIndex (SetOrderReady k p st).1.2 !! temp (getO st p)
          = Some l →
        Sorted (λ a b, PrimFloat.ltb (Decay st b) (Decay st a) = false) l).
Proof.
  split.
  - unfold NewKitchen. destruct (buildTopology cfg st) as [[shelves index] st'].
    simpl. split.
    + apply (sort_Slice_Sorted
               (λ a b, PrimFloat.ltb (Decay st' a) (Decay st' b))).
      intros a b. apply ltb_asym.
    + apply (sort_Slice_Sorted
               (λ a b, PrimFloat.ltb (Decay st' b) (Decay st' a))).
      intros a b. apply ltb_asym.
  - intros l Hl.
    destruct (SetOrderReady_index k p st) as (_ & _ & Hsort). simpl in Hsort.
    destruct (supportedIndex k !! temp (getO st p)) as [l0|] eqn:E.
    + rewrite (Hsort l0 eq_refl) in Hl. injection Hl as <-.
      apply (sort_Slice_Sorted
               (λ a b, PrimFloat.ltb (Decay st a) (Decay st b))).
      intros a b. apply ltb_asym.
    + exfalso. revert Hl. unfold SetOrderReady. rewrite E. simpl.
      by rewrite E.
Qed.

(** ** The candidate chosen by the placement routine *)

Lemma placeOnShelf_eligible p s sup st :
  temp (getO st p) ∈ sup →
  improves st (shelf (getO st p)) s →
  (Put p (order_id (getO st p)) (getS st s)).1 = None →
  ∃ st', placeOnShelf p (temp (getO st p)) (shelf (getO st p)) s sup st
         = (true, st').
Proof.
  intros Hin [Hne Hd] HP.
  induction sup as [|x sup IH]; [by apply elem_of_nil in Hin|].
  simpl. destruct (String.eqb_spec (temp (getO st p)) x) as [E|E].
  - rewrite bool_decide_eq_false_2 by done.
    destruct (shelf (getO st p)) as [c|] eqn:Ec.
    + rewrite (Hd c eq_refl). rewrite (SetShelf_ok _ _ _ HP). by eexists.
    + rewrite (SetShelf_ok _ _ _ HP). by eexists.
  - apply IH. apply elem_of_cons in Hin as [?|?]; done.
Qed.

Lemma placeLoop_first p cands st :
  let ty := temp (getO st p) in
  let cur := shelf (getO st p) in
  (placeLoop p ty cur cands st = (false, st) ∧
   ∀ s, s ∈ cands → ¬ eligible st p s) ∨
  (∃ l1 s l2, cands = l1 ++ s :: l2 ∧
     (∀ s', s' ∈ l1 → ¬ eligible st p s') ∧ eligible st p s ∧
     placeLoop p ty cur cands st = (true, (SetShelf p s st).2) ∧
     (SetShelf p s st).1 = None).
Proof.
  intros ty cur. induction cands as [|c cands IH]; simpl.
  { left. split; [done|]. intros s Hs. by apply elem_of_nil in Hs. }
  destruct (placeOnShelf_spec p ty cur c (supported (getS st c)) st)
    as [E|(st' & E & Hsup & Himp & HS)]; rewrite E.
  - assert (Hc : ¬ eligible st p c).
    { intros (H1 & H2 & H3).
      destruct (placeOnShelf_eligible p c _ st H1 H2 H3) as [st' E'].
      fold ty cur in E'. congruence. }
    destruct IH as [[IH1 IH2]|(l1 & s & l2 & -> & Hl1 & Hel & Hres & Hok)].
    + left. split; [done|].
      intros s [->|Hs]%elem_of_cons; [done|by apply IH2].
    + right. exists (c :: l1), s, l2. split; [done|].
      split; [|done]. intros s' [->|Hs']%elem_of_cons; [done|by apply Hl1].
  - right. exists [], c, cands. split; [done|].
    split; [intros s' Hs'; by apply elem_of_nil in Hs'|].
    assert (HP : (Put p (order_id (getO st p)) (getS st c)).1 = None).
    { destruct (Put p (order_id (getO st p)) (getS st c)).1 as [e|] eqn:EP;
        [|done].
      rewrite (SetShelf_error _ _ _ _ EP) in HS. done. }
    split; [done|]. by rewrite HS.
Qed.

(** X14.  On an order that is not expired, [optimizePlacement] returns
    true exactly when some candidate is eligible (it supports the
    order's temperature, is not the current shelf, is not refused by the
    decay test, and its [Put] accepts the order), and it then moves the
    order to the first eligible candidate of the list, by one
    [SetShelf]; otherwise it returns false and changes nothing. *)
Theorem optimizePlacement_first_eligible (p : oref) (o : Order)
    (cands : list sref) (st : Store) :
  order_heap st !! p = Some o →
  isExpired st o = false →
  (optimizePlacement p cands st = (false, st) ∧
   ∀ s, s ∈ cands → ¬ eligible st p s) ∨
  (∃ l1 s l2, cands = l1 ++ s :: l2 ∧
     (∀ s', s' ∈ l1 → ¬ eligible st p s') ∧ eligible st p s ∧
     optimizePlacement p cands st = (true, (SetShelf p s st).2) ∧
     shelf (getO (SetShelf p s st).2 p) = Some s).
Proof.
  intros Ho He. apply getO_Some in Ho.
  unfold optimizePlacement. rewrite Ho, He.
  destruct (placeLoop_first p cands st)
    as [[E Hno]|(l1 & s & l2 & Hc & Hl1 & Hel & E & Hok)];
    simpl in E; rewrite Ho in E.
  - left. done.
  - right. exists l1, s, l2. do 3 (split; [done|]).
    rewrite E.
    destruct (SetShelf_cases st p s) as [[e Ee]|(st' & Ee & Hsh & _)].
    + rewrite Ee in Hok. done.
    + rewrite Ee. done.
Qed.

Lemma optimizePlacement_first_eligible_witness :
  let st := placementDelivered.2 in
  (optimizePlacement 2%nat [2; 1; 0]%nat st).1 = true.
Proof.
  intros st.
  destruct (optimizePlacement_first_eligible 2%nat (getO st 2%nat)
              [2; 1; 0]%nat st) as [[H _]|(l1 & s & l2 & _ & _ & _ & H & _)].
  - vm_compute. reflexivity.
  - vm_compute. reflexivity.
  - exfalso. revert H. vm_compute. discriminate.
  - rewrite H. reflexivity.
Defined.

(** ** Shelves change only through [Put] and [Remove] *)

Lemma shelvesEvolve_refl st : shelvesEvolve st st.
Proof. intros s. by exists []. Qed.

Lemma shelvesEvolve_trans st1 st2 st3 :
  shelvesEvolve st1 st2 → shelvesEvolve st2 st3 → shelvesEvolve st1 st3.
Proof.
  intros H12 H23 s. destruct (H12 s) as [a Ha], (H23 s) as [b Hb].
  exists (a ++ b). rewrite Hb, Ha. unfold runShelf. by rewrite fold_left_app.
Qed.

Lemma shelvesEvolve_setO st p o : shelvesEvolve st (setO p o st).
Proof. intros s. by exists []. Qed.

Lemma shelvesEvolve_removeOrder st p : shelvesEvolve st (removeOrder p st).
Proof.
  intros s. destruct (decide (shelf (getO st p) = Some s)) as [E|E].
  - exists [OpRemove (order_id (getO st p))]. by rewrite removeOrder_shelf.
  - exists []. by rewrite removeOrder_shelf_ne.
Qed.

Lemma shelvesEvolve_Put st p oid s :
  shelvesEvolve st (setS s (Put p oid (getS st s)).2 st).
Proof.
  intros x. destruct (decide (s = x)) as [->|Hne].
  - exists [OpPut p oid]. by rewrite getS_setS.
  - exists []. by rewrite getS_setS_ne.
Qed.

Lemma shelvesEvolve_SetShelf st p s : shelvesEvolve st (SetShelf p s st).2.
Proof.
  destruct (Put p (order_id (getO st p)) (getS st s)).1 as [e|] eqn:EP.
  - rewrite (SetShelf_error _ _ _ _ EP). apply shelvesEvolve_refl.
  - rewrite (SetShelf_ok _ _ _ EP). simpl.
    eapply shelvesEvolve_trans; [apply shelvesEvolve_Put|].
    eapply shelvesEvolve_trans; [apply shelvesEvolve_removeOrder|].
    apply shelvesEvolve_setO.
Qed.

Lemma shelvesEvolve_TransitionOrder p e n eff st :
  (∀ s0, shelvesEvolve s0 (eff p s0).2) →
  shelvesEvolve st (TransitionOrder p e n eff st).2.
Proof.
  intros Heff.
  destruct (TransitionOrder_cases p e n eff st)
    as [[_ ->]|[(_ & _ & ->)|[(_ & _ & ->)|(_ & _ & _ & ->)]]]; simpl.
  - apply shelvesEvolve_refl.
  - apply shelvesEvolve_refl.
  - eapply shelvesEvolve_trans; [apply shelvesEvolve_setO|].
    apply shelvesEvolve_removeOrder.
  - eapply shelvesEvolve_trans; [apply shelvesEvolve_setO|]. apply Heff.
Qed.

Lemma shelvesEvolve_optimizePlacement p cands st :
  shelvesEvolve st (optimizePlacement p cands st).2.
Proof.
  destruct (optimizePlacement_cases p cands st)
    as [[_ ->]|[[_ ->]|(_ & s & st' & -> & _ & _ & _ & HS)]]; simpl.
  - eapply shelvesEvolve_trans; [apply shelvesEvolve_setO|].
    apply shelvesEvolve_removeOrder.
  - apply shelvesEvolve_refl.
  - replace st' with (SetShelf p s st).2 by (by rewrite HS).
    apply shelvesEvolve_SetShelf.
Qed.

Lemma shelvesEvolve_stamp s0 (o : oref) (f : Order → Order) :
  shelvesEvolve s0 (setO o (f (getO s0 o)) s0).
Proof. apply shelvesEvolve_setO. Qed.

Lemma shelvesEvolve_stamp_detach s0 (p o : oref) (f : Order → Order) :
  shelvesEvolve s0 (removeOrder p (setO o (f (getO s0 o)) s0)).
Proof.
  eapply shelvesEvolve_trans; [apply shelvesEvolve_setO|].
  apply shelvesEvolve_removeOrder.
Qed.

Lemma shelvesEvolve_SetOrderReady k p st :
  shelvesEvolve st (SetOrderReady k p st).2.
Proof.
  unfold SetOrderReady.
  destruct (supportedIndex k !! temp (getO st p)) as [cands|]; simpl.
  - set (sorted := sort_Slice _ cands).
    pose proof (shelvesEvolve_optimizePlacement p sorted st) as Ho.
    destruct (optimizePlacement p sorted st) as [[|] st1]; simpl in *.
    + eapply shelvesEvolve_trans; [exact Ho|].
      apply shelvesEvolve_TransitionOrder. intros s0.
      apply (shelvesEvolve_stamp s0 p (set_readyAt (k_now k))).
    + eapply shelvesEvolve_trans; [exact Ho|].
      apply shelvesEvolve_TransitionOrder. intros s0.
      apply (shelvesEvolve_stamp_detach s0 p p (set_trashedAt (k_now k))).
  - apply shelvesEvolve_TransitionOrder. intros s0.
    apply (shelvesEvolve_stamp_detach s0 p p
             (λ o0, set_trashedAt (k_now k) (set_state Trashed o0))).
Qed.

Lemma shelvesEvolve_stepOp op w :
  isKitchenOp op = true → shelvesEvolve w.2 (stepOp op w).2.
Proof.
  destruct w as [k st]. intros Hop.
  destruct op as [q|q|q|q|q e n eff|q s]; simpl in *; try done.
  - unfold CreateOrder.
    eapply shelvesEvolve_trans; [|apply shelvesEvolve_SetOrderReady].
    apply shelvesEvolve_TransitionOrder. intros s0.
    apply (shelvesEvolve_stamp s0 q (set_createdAt (k_now k))).
  - apply shelvesEvolve_SetOrderReady.
  - apply shelvesEvolve_TransitionOrder. intros s0.
    apply (shelvesEvolve_stamp s0 q (set_enrouteAt (k_now k))).
  - apply shelvesEvolve_TransitionOrder. intros s0.
    apply (shelvesEvolve_stamp_detach s0 q q (set_pickedUpAt (k_now k))).
  - apply shelvesEvolve_SetShelf.
Qed.

Lemma runShelf_static ops s :
  name (runShelf ops s) = name s ∧
  supported (runShelf ops s) = supported s ∧
  decayRate (runShelf ops s) = decayRate s.
Proof.
  revert s. induction ops as [|op ops IH]; intros s; [done|].
  simpl. destruct (IH (stepShelf s op)) as (-> & -> & ->).
  destruct op; simpl.
  - by destruct (Put_static o oid s) as (? & _ & ? & ?).
  - by destruct (Remove_static oid s) as (? & _ & ? & ?).
Qed.

(** X15.  Every kitchen operation acts on the shelves only through
    [Put] and [Remove].  Hence along any history of kitchen operations,
    starting from shelves whose counters agree with their maps and fit
    their capacities, every shelf keeps its name, capacity, supported
    temperatures and decay rate, its counter stays equal to the size of
    its map, and it never holds more orders than its capacity. *)
Theorem kitchen_shelves_bounded (ops : list KitchenOp) (w : Kitchen * Store)
    (s : sref) :
  forallb isKitchenOp ops = true →
  shelfInv (getS w.2 s) →
  let sh := getS w.2 s in
  let sh' := getS (runOps ops w).2 s in
  (∃ sops, sh' = runShelf sops sh) ∧
  Z.of_nat (size (orders sh')) ≤ capacity sh' ∧
  numOrders sh' = Z.of_nat (size (orders sh')) ∧
  name sh' = name sh ∧ capacity sh' = capacity sh ∧
  supported sh' = supported sh ∧ decayRate sh' = decayRate sh.
Proof.
  intros Hops Hinv sh sh'.
  assert (Hev : shelvesEvolve w.2 (runOps ops w).2).
  { clear Hinv sh sh'. revert w.
    induction ops as [|op ops IH]; intros w; [apply shelvesEvolve_refl|].
    simpl in Hops. apply andb_prop in Hops as [Hop Hops]. simpl.
    eapply shelvesEvolve_trans; [by apply shelvesEvolve_stepOp|by apply IH]. }
  destruct (Hev s) as [sops Hs]. fold sh sh' in Hs.
  split; [by exists sops|].
  destruct (runShelf_shelfInv sops sh Hinv) as [Hn Hc].
  destruct (runShelf_static sops sh) as (H1 & H2 & H3).
  rewrite Hs. rewrite runShelf_capacity in *. done.
Qed.

Lemma kitchen_shelves_bounded_witness :
  let ops := [OpCreateOrder 0%nat; OpCreateOrder 1%nat; OpCreateOrder 2%nat;
              OpSetOrderEnroute 0%nat; OpSetOrderPickedUp 0%nat] in
  let sh' := getS (runOps ops placementStart).2 2%nat in
  Z.of_nat (size (orders sh')) ≤ capacity sh'.
Proof.
  intros ops.
  refine (proj1 (proj2 (kitchen_shelves_bounded ops placementStart 2%nat _ _))).
  - vm_compute. reflexivity.
  - split; vm_compute; [reflexivity|discriminate].
Defined.

(** ** No order is on two shelves *)

Lemma shelved_allocated st q s : shelf (getO st q) = Some s → allocated st q.
Proof.
  unfold getO, allocated. destruct (order_heap st !! q); [by eexists|done].
Qed.

Lemma allocated_setO st p o q :
  allocated st p → (allocated (setO p o st) q ↔ allocated st q).
Proof.
  unfold allocated, setO; simpl. intros Hp.
  destruct (decide (p = q)) as [->|Hne].
  - rewrite lookup_insert_eq. split; [done|by eexists].
  - by rewrite lookup_insert_ne.
Qed.

Lemma allocated_setS st s sh q : allocated (setS s sh st) q ↔ allocated st q.
Proof. done. Qed.

Lemma allocated_removeOrder st p q :
  allocated st p → (allocated (removeOrder p st) q ↔ allocated st q).
Proof.
  intros Hp. unfold removeOrder. destruct (shelf (getO st p)); [|done].
  rewrite allocated_setO by (by apply allocated_setS).
  apply allocated_setS.
Qed.

(** The id of an order is in no map but that of its own shelf. *)
Lemma consistent_absent st p x :
  consistent st → allocated st p →
  shelf (getO st p) ≠ Some x →
  orders (getS st x) !! order_id (getO st p) = None.
Proof.
  intros (W1 & W2 & U) Hp Hne.
  destruct (orders (getS st x) !! order_id (getO st p)) as [q|] eqn:E; [|done].
  destruct (W1 _ _ _ E) as [Hid Hsh].
  assert (q = p) as ->.
  { apply U; [by eapply shelved_allocated|done|done]. }
  done.
Qed.

Lemma relocates_consistent p st st' :
  consistent st → allocated st p → relocates p st st' → consistent st'.
Proof.
  intros (W1 & W2 & U) Hp (HA & HB & HC & HD).
  split; [|split].
  - intros x oid q. rewrite HD. case_decide as Hx.
    + destruct (decide (oid = order_id (getO st p))) as [->|Hne].
      * rewrite lookup_insert_eq. intros [= <-]. by rewrite HB.
      * rewrite lookup_insert_ne by done. intros E.
        destruct (W1 _ _ _ E) as [Hid Hsh].
        assert (q ≠ p) by (intros ->; done).
        by rewrite HB, HC.
    + destruct (decide (oid = order_id (getO st p))) as [->|Hne].
      * by rewrite lookup_delete_eq.
      * rewrite lookup_delete_ne by done. intros E.
        destruct (W1 _ _ _ E) as [Hid Hsh].
        assert (q ≠ p) by (intros ->; done).
        by rewrite HB, HC.
  - intros q x Hq. rewrite HD, HB.
    destruct (decide (q = p)) as [->|Hne].
    + rewrite decide_True by done. by rewrite lookup_insert_eq.
    + rewrite HC in Hq by done.
      assert (order_id (getO st p) ≠ order_id (getO st q)).
      { intros Heq. apply Hne. symmetry.
        apply U; [done|by eapply shelved_allocated|done]. }
      case_decide.
      * rewrite lookup_insert_ne by done. by apply W2.
      * rewrite lookup_delete_ne by done. by apply W2.
  - intros q q' Hq Hq'. rewrite !HB. apply U; by apply HA.
Qed.

(** A step that keeps the id and the shelf reference of [p] and
    touches neither the other orders nor the shelves. *)
Lemma relocates_stamp p st o :
  consistent st → allocated st p →
  order_id o = order_id (getO st p) → shelf o = shelf (getO st p) →
  relocates p st (setO p o st).
Proof.
  intros Hc Hp Hid Hsh. split; [|split; [|split]].
  - intros q. by apply allocated_setO.
  - intros q. destruct (decide (p = q)) as [->|Hne].
    + by rewrite getO_setO.
    + by rewrite getO_setO_ne.
  - intros q Hne. by rewrite getO_setO_ne.
  - intros x. rewrite getO_setO, getS_setO, Hsh. case_decide as Hx.
    + rewrite insert_id; [done|]. by apply Hc.
    + rewrite delete_id; [done|]. by apply consistent_absent.
Qed.

Lemma relocates_refl p st :
  consistent st → allocated st p → relocates p st st.
Proof.
  intros Hc Hp.
  assert (E : st = setO p (getO st p) st).
  { destruct st as [oh sh]. unfold setO; simpl. f_equal.
    destruct Hp as [o Ho]. simpl in Ho.
    unfold getO; simpl. rewrite Ho; simpl. by rewrite insert_id. }
  rewrite E at 2. by apply relocates_stamp.
Qed.

Lemma relocates_removeOrder p st :
  consistent st → allocated st p → relocates p st (removeOrder p st).
Proof.
  intros Hc Hp. destruct (shelf (getO st p)) as [c|] eqn:Ec.
  2:{ rewrite removeOrder_unshelved by done. by apply relocates_refl. }
  assert (Hd : shelf (getO (removeOrder p st) p) = None ∧
               order_id (getO (removeOrder p st) p) = order_id (getO st p)).
  { rewrite removeOrder_order.
    by destruct (detached_fields st (getO st p)) as (-> & _ & -> & _). }
  destruct Hd as [Hd1 Hd2].
  split; [|split; [|split]].
  - intros q. by apply allocated_removeOrder.
  - intros q. destruct (decide (p = q)) as [->|Hne]; [done|].
    by rewrite removeOrder_other.
  - intros q Hne. by rewrite removeOrder_other.
  - intros x. rewrite Hd1. rewrite decide_False by done.
    destruct (decide (c = x)) as [->|Hne].
    + rewrite removeOrder_shelf by done. apply Remove_orders.
    + rewrite removeOrder_shelf_ne by congruence.
      rewrite delete_id; [done|]. apply consistent_absent; [done..|congruence].
Qed.

Lemma relocates_SetShelf p s st :
  consistent st → allocated st p →
  shelf (getO st p) ≠ Some s →
  relocates p st (SetShelf p s st).2.
Proof.
  intros Hc Hp Hguard.
  destruct (Put p (order_id (getO st p)) (getS st s)).1 as [e|] eqn:EP.
  { rewrite (SetShelf_error _ _ _ _ EP). by apply relocates_refl. }
  assert (Hfresh : orders (getS st s) !! order_id (getO st p) = None)
    by (by apply consistent_absent).
  assert (Hput : orders (Put p (order_id (getO st p)) (getS st s)).2
                 = <[order_id (getO st p) := p]> (orders (getS st s))).
  { revert EP. unfold Put. rewrite Hfresh.
    by destruct (capacity (getS st s) <=? numOrders (getS st s)). }
  rewrite (SetShelf_ok _ _ _ EP). simpl.
  set (sh' := (Put p (order_id (getO st p)) (getS st s)).2) in *.
  set (st1 := setS s sh' st).
  assert (Hg : getO st1 p = getO st p) by done.
  destruct (detached_fields st1 (getO st p)) as (_ & _ & Hdid & _).
  split; [|split; [|split]].
  - intros q.
    assert (Hp1 : allocated st1 p) by (by apply allocated_setS).
    rewrite allocated_setO by (by apply allocated_removeOrder).
    rewrite allocated_removeOrder by done. apply allocated_setS.
  - intros q. destruct (decide (p = q)) as [->|Hne].
    + by rewrite getO_setO.
    + by rewrite getO_setO_ne, removeOrder_other.
  - intros q Hne. by rewrite getO_setO_ne, removeOrder_other.
  - intros x. rewrite getO_setO, getS_setO. simpl.
    destruct (decide (s = x)) as [->|Hsx].
    + rewrite decide_True by done.
      rewrite removeOrder_shelf_ne by (by rewrite Hg).
      unfold st1. by rewrite getS_setS.
    + rewrite decide_False by congruence.
      destruct (decide (shelf (getO st p) = Some x)) as [Hcx|Hcx].
      * rewrite removeOrder_shelf by (by rewrite Hg).
        rewrite Hg, Remove_orders. unfold st1. by rewrite getS_setS_ne.
      * rewrite removeOrder_shelf_ne by (by rewrite Hg).
        unfold st1. rewrite getS_setS_ne by done.
        rewrite delete_id; [done|]. by apply consistent_absent.
Qed.

Lemma keeps_of_relocates p st st' :
  (consistent st → allocated st p → relocates p st st') →
  keepsConsistent p st st'.
Proof.
  intros H Hc Hp. specialize (H Hc Hp).
  split; [by eapply relocates_consistent|]. by apply H.
Qed.

Lemma keeps_trans p st1 st2 st3 :
  keepsConsistent p st1 st2 → keepsConsistent p st2 st3 →
  keepsConsistent p st1 st3.
Proof.
  intros H12 H23 Hc Hp. destruct (H12 Hc Hp) as [Hc2 Ha2].
  destruct (H23 Hc2 (proj2 (Ha2 p) Hp)) as [Hc3 Ha3].
  split; [done|]. intros q. by rewrite Ha3, Ha2.
Qed.

Lemma keeps_refl p st : keepsConsistent p st st.
Proof. intros ? ?. split; done. Qed.

Lemma keeps_stamp p st (f : Order → Order) :
  (∀ o, order_id (f o) = order_id o ∧ shelf (f o) = shelf o) →
  keepsConsistent p st (setO p (f (getO st p)) st).
Proof.
  intros Hf. apply keeps_of_relocates. intros Hc Hp.
  apply relocates_stamp; [done|done|apply Hf|apply Hf].
Qed.

Lemma keeps_removeOrder p st : keepsConsistent p st (removeOrder p st).
Proof. apply keeps_of_relocates. apply relocates_removeOrder. Qed.

Lemma keeps_SetShelf p s st :
  shelf (getO st p) ≠ Some s → keepsConsistent p st (SetShelf p s st).2.
Proof.
  intros Hg. apply keeps_of_relocates. intros ? ?.
  by apply relocates_SetShelf.
Qed.

Lemma keeps_TransitionOrder p e n eff st :
  (∀ s0, keepsConsistent p s0 (eff p s0).2) →
  keepsConsistent p st (TransitionOrder p e n eff st).2.
Proof.
  intros Heff.
  destruct (TransitionOrder_cases p e n eff st)
    as [[_ ->]|[(_ & _ & ->)|[(_ & _ & ->)|(_ & _ & _ & ->)]]]; simpl.
  - apply keeps_refl.
  - apply keeps_refl.
  - eapply keeps_trans; [|apply keeps_removeOrder].
    by apply (keeps_stamp p st
                (λ o, set_trashedAt (now (getO st p)) (set_state Trashed o))).
  - eapply keeps_trans; [|apply Heff].
    by apply (keeps_stamp p st (set_state n)).
Qed.

Lemma keeps_optimizePlacement p cands st :
  keepsConsistent p st (optimizePlacement p cands st).2.
Proof.
  destruct (optimizePlacement_cases p cands st)
    as [[_ ->]|[[_ ->]|(_ & s & st' & -> & _ & _ & [Hg _] & HS)]]; simpl.
  - eapply keeps_trans; [|apply keeps_removeOrder].
    by apply (keeps_stamp p st
                (λ o, set_trashedAt (now (getO st p)) (set_state Trashed o))).
  - apply keeps_refl.
  - replace st' with (SetShelf p s st).2 by (by rewrite HS).
    by apply keeps_SetShelf.
Qed.

Lemma keeps_stamp_effect p s0 (f : Order → Order) :
  (∀ o, order_id (f o) = order_id o ∧ shelf (f o) = shelf o) →
  keepsConsistent p s0 (setO p (f (getO s0 p)) s0).
Proof. apply keeps_stamp. Qed.

Lemma keeps_detach_effect p s0 (f : Order → Order) :
  (∀ o, order_id (f o) = order_id o ∧ shelf (f o) = shelf o) →
  keepsConsistent p s0 (removeOrder p (setO p (f (getO s0 p)) s0)).
Proof.
  intros Hf. eapply keeps_trans; [by apply keeps_stamp|].
  apply keeps_removeOrder.
Qed.

Lemma keeps_SetOrderReady k p st :
  keepsConsistent p st (SetOrderReady k p st).2.
Proof.
  unfold SetOrderReady.
  destruct (supportedIndex k !! temp (getO st p)) as [cands|]; simpl.
  - set (sorted := sort_Slice _ cands).
    pose proof (keeps_optimizePlacement p sorted st) as Ho.
    destruct (optimizePlacement p sorted st) as [[|] st1]; simpl in *.
    + eapply keeps_trans; [exact Ho|].
      apply keeps_TransitionOrder. intros s0.
      by apply (keeps_stamp_effect p s0 (set_readyAt (k_now k))).
    + eapply keeps_trans; [exact Ho|].
      apply keeps_TransitionOrder. intros s0.
      by apply (keeps_detach_effect p s0 (set_trashedAt (k_now k))).
  - apply keeps_TransitionOrder. intros s0.
    by apply (keeps_detach_effect p s0
                (λ o0, set_trashedAt (k_now k) (set_state Trashed o0))).
Qed.

Lemma keeps_stepOp op w :
  isLifecycleOp op = true →
  keepsConsistent (opOrder op) w.2 (stepOp op w).2.
Proof.
  destruct w as [k st]. intros Hop.
  destruct op as [q|q|q|q|q e n eff|q s]; simpl in *; try done.
  - unfold CreateOrder.
    eapply keeps_trans; [|apply keeps_SetOrderReady].
    apply keeps_TransitionOrder. intros s0.
    by apply (keeps_stamp_effect q s0 (set_createdAt (k_now k))).
  - apply keeps_SetOrderReady.
  - apply keeps_TransitionOrder. intros s0.
    by apply (keeps_stamp_effect q s0 (set_enrouteAt (k_now k))).
  - apply keeps_TransitionOrder. intros s0.
    by apply (keeps_detach_effect q s0 (set_pickedUpAt (k_now k))).
Qed.

Lemma runOps_keeps_consistent ops w :
  forallb isLifecycleOp ops = true →
  (∀ op, op ∈ ops → allocated w.2 (opOrder op)) →
  consistent w.2 →
  consistent (runOps ops w).2 ∧
  ∀ q, allocated (runOps ops w).2 q ↔ allocated w.2 q.
Proof.
  revert w. induction ops as [|op ops IH]; intros w Hops Hal Hc; [done|].
  simpl in Hops. apply andb_prop in Hops as [Hop Hops]. simpl.
  destruct (keeps_stepOp op w Hop Hc) as [Hc1 Ha1]; [apply Hal; by left|].
  destruct (IH (stepOp op w) Hops) as [Hc2 Ha2]; [|done|].
  { intros op' Hin. apply Ha1. apply Hal. by right. }
  split; [done|]. intros q. by rewrite Ha2, Ha1.
Qed.

(** A store in which no order is on a shelf and no shelf holds an order
    is consistent as soon as the ids are distinct. *)
Lemma unshelved_consistent st :
  (∀ q, shelf (getO st q) = None) →
  (∀ s, orders (getS st s) = ∅) →
  (∀ q q', allocated st q → allocated st q' →
           order_id (getO st q) = order_id (getO st q') → q = q') →
  consistent st.
Proof.
  intros Hq Hs HU. split; [|split; [|done]].
  - intros s oid q. by rewrite Hs, lookup_empty.
  - intros q s. by rewrite Hq.
Qed.

(** X16.  Along every history of the four kitchen operations applied to
    allocated orders, starting from a consistent store, the store stays
    consistent: every entry of a shelf's map is filed under the id of
    the order it points to and that order refers back to that shelf, and
    every order that refers to a shelf is in that shelf's map.  So no
    order is ever on two shelves, or twice on one. *)
Theorem lifecycle_keeps_consistent (ops : list KitchenOp)
    (w : Kitchen * Store) :
  forallb isLifecycleOp ops = true →
  (∀ op, op ∈ ops → allocated w.2 (opOrder op)) →
  consistent w.2 →
  let st' := (runOps ops w).2 in
  consistent st' ∧
  (∀ s1 s2 id1 id2 q,
     orders (getS st' s1) !! id1 = Some q →
     orders (getS st' s2) !! id2 = Some q → s1 = s2 ∧ id1 = id2) ∧
  (∀ q s, shelf (getO st' q) = Some s →
          orders (getS st' s) !! order_id (getO st' q) = Some q).
Proof.
  intros Hops Hal Hc st'.
  destruct (runOps_keeps_consistent ops w Hops Hal Hc) as [Hc' _].
  fold st' in Hc'. split; [done|]. destruct Hc' as (W1 & W2 & U).
  split; [|done].
  intros s1 s2 id1 id2 q H1 H2.
  destruct (W1 _ _ _ H1) as [<- E1], (W1 _ _ _ H2) as [<- E2].
  split; congruence.
Qed.

Lemma placementStart_heap q :
  order_heap placementStart.2 !! S (S (S q)) = None.
Proof.
  unfold placementStart; cbn [snd]. unfold setO; cbn [order_heap].
  rewrite !lookup_insert_ne by done.
  assert (order_heap placementKitchen.2 = ∅) as -> by (vm_compute; reflexivity).
  apply lookup_empty.
Qed.

Lemma placementStart_consistent : consistent placementStart.2.
Proof.
  apply unshelved_consistent.
  - intros q. destruct q as [|[|[|q]]]; [vm_compute; reflexivity..|].
    unfold getO. by rewrite placementStart_heap.
  - intros s. unfold getS.
    assert (E : shelf_heap placementStart.2 = shelf_heap placementKitchen.2)
      by done.
    rewrite E. destruct s as [|[|[|s]]]; [vm_compute; reflexivity..|].
    assert (shelf_heap placementKitchen.2 !! S (S (S s)) = None) as ->; [|done].
    assert (Hd : dom (shelf_heap placementKitchen.2) = {[0; 1; 2]}%nat)
      by (vm_compute; reflexivity).
    apply not_elem_of_dom. rewrite Hd.
    rewrite !elem_of_union, !elem_of_singleton. lia.
  - intros q q' [o Ho] [o' Ho'].
    destruct q as [|[|[|q]]]; [..|by rewrite placementStart_heap in Ho];
      (destruct q' as [|[|[|q']]]; [..|by rewrite placementStart_heap in Ho']);
      vm_compute; done.
Qed.

Lemma lifecycle_keeps_consistent_witness :
  let ops := [OpCreateOrder 0%nat; OpCreateOrder 1%nat; OpCreateOrder 2%nat;
              OpSetOrderEnroute 0%nat; OpSetOrderPickedUp 0%nat;
              OpSetOrderReady 0%nat; OpSetOrderReady 1%nat] in
  consistent (runOps ops placementStart).2.
Proof.
  intros ops.
  refine (proj1 (lifecycle_keeps_consistent ops placementStart _ _ _)).
  - vm_compute. reflexivity.
  - intros op Hop. each_member Hop; vm_compute; by eexists.
  - apply placementStart_consistent.
Defined.

(** ** Listing and finding orders *)

Lemma elem_of_Orders sh q :
  q ∈ Orders sh ↔ ∃ oid, orders sh !! oid = Some q.
Proof.
  unfold Orders. rewrite list_elem_of_fmap. split.
  - intros ([oid x] & -> & Hin). exists oid. by apply elem_of_map_to_list.
  - intros (oid & Hin). exists (oid, q). split; [done|].
    by apply elem_of_map_to_list.
Qed.

Lemma elem_of_GetOrders k st q :
  q ∈ GetOrders k st ↔
  ∃ s oid, s ∈ shelvesAsc k ∧ orders (getS st s) !! oid = Some q.
Proof.
  unfold GetOrders. rewrite list_elem_of_In, in_concat. split.
  - intros (l & Hl & Hq). apply in_map_iff in Hl as (s & <- & Hs).
    apply list_elem_of_In, elem_of_Orders in Hq as [oid Hq].
    exists s, oid. split; [by apply list_elem_of_In|done].
  - intros (s & oid & Hs & Hq). exists (Orders (getS st s)). split.
    + apply in_map_iff. exists s. split; [done|by apply list_elem_of_In].
    + apply list_elem_of_In, elem_of_Orders. by exists oid.
Qed.

Lemma NoDup_Orders st s : consistent st → NoDup (Orders (getS st s)).
Proof.
  intros (W1 & _ & _). unfold Orders.
  apply NoDup_fmap_2_strong; [|apply NoDup_map_to_list].
  intros [i x] [j y] Hi Hj Heq. simpl in Heq. subst y.
  apply elem_of_map_to_list in Hi, Hj.
  destruct (W1 _ _ _ Hi) as [<- _], (W1 _ _ _ Hj) as [<- _]. done.
Qed.

Lemma NoDup_concat_Orders st (l : list sref) :
  consistent st → NoDup l →
  NoDup (concat (map (λ s, Orders (getS st s)) l)).
Proof.
  intros Hc Hnd. induction Hnd as [|s l Hs Hnd IH]; simpl; [constructor|].
  apply NoDup_app. split; [by apply NoDup_Orders|]. split; [|exact IH].
  intros q Hq Hq'. apply elem_of_Orders in Hq as [oid Hq].
  apply list_elem_of_In, in_concat in Hq' as (l' & Hl' & Hq').
  apply in_map_iff in Hl' as (s' & <- & Hs').
  apply list_elem_of_In, elem_of_Orders in Hq' as [oid' Hq'].
  destruct Hc as (W1 & _ & _).
  destruct (W1 _ _ _ Hq) as [_ E1], (W1 _ _ _ Hq') as [_ E2].
  assert (s = s') as -> by congruence.
  apply Hs. by apply list_elem_of_In.
Qed.

(** X17.  In a consistent store [GetOrders] lists exactly the orders
    that refer to a shelf of the kitchen, each of them once (the shelves
    of [shelvesAsc] being distinct, as they are in a new kitchen); when
    moreover every order has a shelf only while [Ready] or [Enroute], no
    picked-up or trashed order is listed. *)
Theorem GetOrders_lists_shelved (k : Kitchen) (st : Store) :
  consistent st →
  NoDup (shelvesAsc k) →
  (∀ q, q ∈ GetOrders k st ↔
        ∃ s, s ∈ shelvesAsc k ∧ shelf (getO st q) = Some s) ∧
  NoDup (GetOrders k st) ∧
  ((∀ q, shelfIffActive (getO st q) = true) →
   ∀ q, q ∈ GetOrders k st → isActive (state (getO st q)) = true).
Proof.
  intros Hc Hnd.
  assert (Hmem : ∀ q, q ∈ GetOrders k st ↔
                      ∃ s, s ∈ shelvesAsc k ∧ shelf (getO st q) = Some s).
  { intros q. rewrite elem_of_GetOrders. destruct Hc as (W1 & W2 & _). split.
    - intros (s & oid & Hs & Hq). exists s. split; [done|]. by apply (W1 _ _ _ Hq).
    - intros (s & Hs & Hq). exists s, (order_id (getO st q)).
      split; [done|by apply W2]. }
  split; [done|]. split.
  - unfold GetOrders. by apply NoDup_concat_Orders.
  - intros Hact q Hq. apply Hmem in Hq as (s & _ & Hs).
    specialize (Hact q). unfold shelfIffActive in Hact. rewrite Hs in Hact.
    rewrite bool_decide_eq_true_2 in Hact by (by eexists).
    by destruct (isActive (state (getO st q))).
Qed.

Lemma GetOrders_lists_shelved_witness :
  NoDup (GetOrders placementStart.1 placementStart.2).
Proof.
  refine (proj1 (proj2 (GetOrders_lists_shelved placementStart.1
                          placementStart.2 _ _))).
  - apply placementStart_consistent.
  - assert (shelvesAsc placementStart.1 = [2; 1; 0]%nat) as ->
      by (vm_compute; reflexivity).
    apply NoDup_ListNoDup. repeat constructor; simpl; lia.
Defined.

Lemma GetOrder_found arrival oid st q :
  GetOrder arrival oid st = Some q →
  ∃ s, s ∈ arrival ∧ orders (getS st s) !! oid = Some q.
Proof.
  induction arrival as [|s arrival IH]; simpl; [done|]. unfold Get.
  destruct (orders (getS st s) !! oid) as [x|] eqn:E; simpl.
  - intros [= <-]. exists s. split; [by left|done].
  - intros H. destruct (IH H) as (s' & ? & ?). exists s'. split; [by right|done].
Qed.




(** ** The kitchen behind the HTTP handlers *)

Lemma shelvesEvolve_shelfInv st st' :
  shelvesEvolve st st' →
  (∀ s, shelfInv (getS st s)) → ∀ s, shelfInv (getS st' s).
Proof.
  intros Hev Hinv s. destruct (Hev s) as [sops ->].
  by apply runShelf_shelfInv.
Qed.

Lemma sound_step p st st' :
  sound st → allocated st p →
  keepsConsistent p st st' → shelvesEvolve st st' →
  shelfIffActive (getO st' p) = true ∧
    (∀ q, p ≠ q → getO st' q = getO st q) →
  sound st'.
Proof.
  intros (Hc & Hact & Hsh) Hp Hk Hev [Hpi Hfr].
  split; [by apply Hk|]. split; [|by eapply shelvesEvolve_shelfInv].
  intros q. destruct (decide (p = q)) as [<-|Hne]; [done|by rewrite Hfr].
Qed.

Lemma getO_advance d st q :
  shelf (getO (advance d st) q) = shelf (getO st q) ∧
  state (getO (advance d st) q) = state (getO st q) ∧
  order_id (getO (advance d st) q) = order_id (getO st q) ∧
  (allocated (advance d st) q ↔ allocated st q).
Proof.
  unfold getO, allocated, advance; simpl. rewrite lookup_fmap.
  destruct (order_heap st !! q); simpl; [|done].
  repeat split; by eexists.
Qed.

Lemma sound_advance d st : sound st → sound (advance d st).
Proof.
  intros ((W1 & W2 & U) & Hact & Hsh). split; [split; [|split]|split].
  - intros s oid q Hq.
    destruct (getO_advance d st q) as (-> & _ & -> & _). by apply (W1 s).
  - intros q s.
    destruct (getO_advance d st q) as (-> & _ & -> & _). apply W2.
  - intros q q' Hq Hq'.
    destruct (getO_advance d st q) as (_ & _ & -> & Ha).
    destruct (getO_advance d st q') as (_ & _ & -> & Ha').
    apply U; [by apply Ha|by apply Ha'].
  - intros q. specialize (Hact q). unfold shelfIffActive in *.
    by destruct (getO_advance d st q) as (-> & -> & _).
  - done.
Qed.

Lemma sound_found arrival id st q :
  sound st → GetOrder arrival id st = Some q →
  allocated st q ∧ isActive (state (getO st q)) = true.
Proof.
  intros ((W1 & _) & Hact & _) (s & _ & Hq)%GetOrder_found.
  destruct (W1 _ _ _ Hq) as [_ Hsh].
  split; [by eapply shelved_allocated|].
  specialize (Hact q). unfold shelfIffActive in Hact. rewrite Hsh in Hact.
  rewrite bool_decide_eq_true_2 in Hact by (by eexists).
  by destruct (isActive (state (getO st q))).
Qed.

Lemma sound_UpdateOrderHandler arrival k id body st :
  sound st → sound (UpdateOrderHandler arrival k id body st).2.
Proof.
  intros Hs. unfold UpdateOrderHandler.
  destruct body as [reqState|]; [|done].
  destruct (GetOrder arrival id st) as [q|] eqn:EG; [|done].
  destruct (sound_found _ _ _ _ Hs EG) as [Hal Hact].
  destruct (String.eqb (ToLower reqState) "ready").
  { assert (sound (SetOrderReady k q st).2).
    { apply (sound_step q st); [done|done|apply keeps_SetOrderReady
                               |apply shelvesEvolve_SetOrderReady|].
      apply SetOrderReady_keeps_invariant; [apply Hs|by right]. }
    simpl. by destruct (SetOrderReady k q st).1.1. }
  destruct (String.eqb (ToLower reqState) "enroute").
  { assert (sound (SetOrderEnroute k q st).2).
    { apply (sound_step q st); [done|done| | |].
      - apply (keeps_stepOp (OpSetOrderEnroute q) (k, st) eq_refl).
      - apply (shelvesEvolve_stepOp (OpSetOrderEnroute q) (k, st) eq_refl).
      - apply SetOrderEnroute_keeps_invariant. apply Hs. }
    simpl. by destruct (SetOrderEnroute k q st).1. }
  destruct (String.eqb (ToLower reqState) "pickedup"); [|done].
  assert (sound (SetOrderPickedUp k q st).2).
  { apply (sound_step q st); [done|done| | |].
    - apply (keeps_stepOp (OpSetOrderPickedUp q) (k, st) eq_refl).
    - apply (shelvesEvolve_stepOp (OpSetOrderPickedUp q) (k, st) eq_refl).
    - apply SetOrderPickedUp_keeps_invariant. apply Hs. }
  simpl. by destruct (SetOrderPickedUp k q st).1.
Qed.

(** Allocating a new order with an unused id. *)
Lemma sound_allocate st o :
  let p := fresh (dom (order_heap st)) in
  sound st →
  state o = Uninit → shelf o = None →
  (∀ q, allocated st q → order_id (getO st q) ≠ order_id o) →
  sound (setO p o st) ∧ allocated (setO p o st) p ∧ ¬ allocated st p.
Proof.
  intros p ((W1 & W2 & U) & Hact & Hsh) Hst Hno Hid.
  assert (Hp : ¬ allocated st p).
  { unfold allocated. intros [x Hx].
    assert (order_heap st !! p = None) as E
      by (apply not_elem_of_dom, is_fresh).
    congruence. }
  assert (Hother : ∀ q, allocated st q → getO (setO p o st) q = getO st q).
  { intros q Hq. apply getO_setO_ne. by intros ->. }
  split; [|split; [|done]].
  2:{ unfold allocated, setO; simpl. rewrite lookup_insert_eq. by eexists. }
  split; [split; [|split]|split].
  - intros s oid q Hq. rewrite getS_setO in Hq.
    destruct (W1 _ _ _ Hq) as [? Hs]. rewrite Hother; [done|].
    by eapply shelved_allocated.
  - intros q s. destruct (decide (p = q)) as [<-|Hne].
    + rewrite getO_setO. congruence.
    + rewrite getO_setO_ne by done. apply W2.
  - intros q q' Hq Hq'.
    assert (Hcases : ∀ x, allocated (setO p o st) x → x = p ∨ allocated st x).
    { intros x. unfold allocated, setO; simpl.
      destruct (decide (p = x)) as [->|Hne]; [by left|].
      rewrite lookup_insert_ne by done. by right. }
    destruct (Hcases q Hq) as [->|Hq0], (Hcases q' Hq') as [->|Hq0']; [done|..].
    + rewrite getO_setO, Hother by done. intros E. symmetry in E.
      by apply Hid in E.
    + rewrite getO_setO, Hother by done. intros E. by apply Hid in E.
    + rewrite !Hother by done. by apply U.
  - intros q. destruct (decide (p = q)) as [<-|Hne].
    + rewrite getO_setO. apply shelfIffActive_unshelved; [done|by rewrite Hst].
    + by rewrite getO_setO_ne.
  - done.
Qed.

Lemma sound_CreateOrderHandler conv k body uuid st :
  sound st →
  (∀ q, allocated st q → order_id (getO st q) ≠ uuid) →
  sound (CreateOrderHandler conv k body uuid st).2.
Proof.
  intros Hs Hid. unfold CreateOrderHandler.
  destruct body as [req|]; [|done].
  set (p := fresh (dom (order_heap st))).
  set (o := NewOrder uuid _ _ _ _ _).
  destruct (sound_allocate st o Hs) as (Hs0 & Hp0 & _); [done|done|done|].
  fold p in Hs0, Hp0.
  assert (sound (CreateOrder k p (setO p o st)).2).
  { apply (sound_step p (setO p o st)); [done|done| | |].
    - apply (keeps_stepOp (OpCreateOrder p) (k, setO p o st) eq_refl).
    - apply (shelvesEvolve_stepOp (OpCreateOrder p) (k, setO p o st) eq_refl).
    - apply CreateOrder_keeps_invariant; [apply Hs0|].
      by rewrite getO_setO. }
  simpl. by destruct (CreateOrder k p (setO p o st)).1.1.
Qed.

(** X19.  Whatever sequence of create and update requests the server
    receives, with time passing in between, provided each created order
    gets an id no allocated order has: a store that is sound (the
    back-references and the shelves' maps agree, an order has a shelf
    exactly while [Ready] or [Enroute], every shelf holds at most its
    capacity) stays sound.  In particular an update request never
    reaches an order that was picked up or trashed, since [GetOrder]
    only finds orders on shelves. *)
Theorem served_store_sound (conv : float → Z) (evs : list Event)
    (w : Kitchen * Store) :
  sound w.2 →
  freshIds conv evs w →
  sound (serveAll conv evs w).2 ∧
  (∀ arrival id q,
     GetOrder arrival id (serveAll conv evs w).2 = Some q →
     isActive (state (getO (serveAll conv evs w).2 q)) = true).
Proof.
  intros Hs Hf.
  assert (H : sound (serveAll conv evs w).2).
  { revert w Hs Hf. induction evs as [|ev evs IH]; intros w Hs Hf; [done|].
    simpl in Hf. destruct Hf as [Hev Hf]. simpl. apply IH; [|done].
    destruct ev as [body uuid|arrival id body|d]; simpl.
    - by apply sound_CreateOrderHandler.
    - by apply sound_UpdateOrderHandler.
    - by apply sound_advance. }
  split; [done|]. intros arrival id q Hq.
  by destruct (sound_found _ _ _ _ H Hq).
Qed.

Lemma placementKitchen_sound : sound placementKitchen.2.
Proof.
  assert (Hheap : order_heap placementKitchen.2 = ∅)
    by (vm_compute; reflexivity).
  assert (HgetO : ∀ q, getO placementKitchen.2 q = zeroOrder).
  { intros q. unfold getO. by rewrite Hheap, lookup_empty. }
  assert (HgetS : ∀ s, orders (getS placementKitchen.2 s) = ∅ ∧
                       shelfInv (getS placementKitchen.2 s)).
  { intros s. destruct s as [|[|[|s]]];
      [split; [vm_compute; reflexivity|split; vm_compute; [reflexivity|discriminate]]..|].
    assert (shelf_heap placementKitchen.2 !! S (S (S s)) = None) as E.
    { assert (Hd : dom (shelf_heap placementKitchen.2) = {[0; 1; 2]}%nat)
        by (vm_compute; reflexivity).
      apply not_elem_of_dom. rewrite Hd.
      rewrite !elem_of_union, !elem_of_singleton. lia. }
    unfold getS. rewrite E. simpl. split; [done|].
    split; simpl; rewrite map_size_empty; lia. }
  split; [|split].
  - apply unshelved_consistent.
    + intros q. by rewrite HgetO.
    + intros s. apply HgetS.
    + intros q q' [x Hx]. by rewrite Hheap, lookup_empty in Hx.
  - intros q. by rewrite HgetO.
  - intros s. apply HgetS.
Qed.

Lemma served_store_sound_witness :
  let hot := mkCreateOrderRequest "tacos" "hot" 100%float 0.25%float in
  let evs := [EvCreate (Some hot) "u1"; EvTick (5 * second);
              EvUpdate [2; 1; 0]%nat "u1" (Some "enroute");
              EvUpdate [0; 1; 2]%nat "u1" (Some "pickedup");
              EvUpdate [2; 1; 0]%nat "u1" (Some "ready")] in
  sound (serveAll (λ _, 100) evs placementKitchen).2.
Proof.
  intros hot evs.
  refine (proj1 (served_store_sound (λ _, 100) evs placementKitchen _ _)).
  - apply placementKitchen_sound.
  - split.
    + intros q [x Hx]. exfalso. revert Hx.
      assert (order_heap placementKitchen.2 = ∅) as ->
        by (vm_compute; reflexivity).
      by rewrite lookup_empty.
    + simpl. done.
Defined.

(** X20.  A kitchen built on the empty store from descriptors of
    non-negative capacity starts sound, and [GetOrders] lists no
    order. *)
Theorem NewKitchen_sound (cfg : kitchenConfig) (clock : Time) :
  (∀ c, c ∈ Topology cfg → 0 ≤ cfg_Capacity c) →
  sound (NewKitchen cfg clock emptyStore).2 ∧
  GetOrders (NewKitchen cfg clock emptyStore).1
    (NewKitchen cfg clock emptyStore).2 = [].
Proof.
  intros Hcap. unfold NewKitchen, buildTopology.
  pose proof (buildTopologyLoop_exact (Topology cfg) [] ∅ emptyStore) as H.
  destruct (buildTopologyLoop (Topology cfg) [] ∅ emptyStore)
    as [[shelves index] st'] eqn:E.
  simpl in *. destruct H as (new & -> & H1 & H2 & H3 & H4 & H5).
  assert (HgetO : ∀ q, getO st' q = zeroOrder).
  { intros q. unfold getO. by rewrite H5, lookup_empty. }
  assert (HgetS : ∀ s, orders (getS st' s) = ∅ ∧ shelfInv (getS st' s)).
  { intros s. destruct (decide (s ∈ new)) as [Hin|Hnin].
    - assert (Hm : getS st' s ∈ getS st' <$> new)
        by (apply list_elem_of_fmap; by exists s).
      rewrite H1 in Hm. apply list_elem_of_fmap in Hm as (c & -> & Hc).
      apply list_elem_of_filter in Hc as [_ Hc].
      split; [done|]. apply NewStaticShelf_shelfInv. by apply Hcap.
    - unfold getS. rewrite (H4 s Hnin). simpl. rewrite lookup_empty. simpl.
      split; [done|]. split; simpl; rewrite map_size_empty; lia. }
  split.
  - split; [|split].
    + apply unshelved_consistent.
      * intros q. by rewrite HgetO.
      * intros s. apply HgetS.
      * intros q q' [x Hx]. by rewrite H5, lookup_empty in Hx.
    + intros q. by rewrite HgetO.
    + intros s. apply HgetS.
  - unfold GetOrders; simpl.
    induction (sort_Slice _ new) as [|s l IH]; simpl; [done|].
    rewrite IH, app_nil_r. unfold Orders.
    destruct (HgetS s) as [-> _]. by rewrite map_to_list_empty.
Qed.

Lemma NewKitchen_sound_witness :
  sound (NewKitchen placementConfig clock0 emptyStore).2.
Proof.
  refine (proj1 (NewKitchen_sound placementConfig clock0 _)).
  intros c Hc. unfold placementConfig in Hc; simpl in Hc.
  each_member Hc; simpl; lia.
Defined.

(** X21.  [SetOrderReady] on an order that is already [Ready] or
    [Enroute] and whose temperature is indexed is an attempt to move it:
    if the order is expired it is trashed and detached and the result is
    [NoShelf]; otherwise, if some indexed shelf is eligible, the order
    moves to one, keeps its state, and the result is ok; and if none is,
    the result is [NoShelf] although the store is exactly as before. *)
Theorem SetOrderReady_active (k : Kitchen) (p : oref) (o : Order)
    (cands : list sref) (st : Store) :
  order_heap st !! p = Some o →
  isActive (state o) = true →
  supportedIndex k !! temp o = Some cands →
  let r := SetOrderReady k p st in
  let o' := getO r.2 p in
  (isExpired st o = true ∧ r.1.1 = Some NoShelf ∧
   state o' = Trashed ∧ shelf o' = None) ∨
  (isExpired st o = false ∧ r.1.1 = None ∧ state o' = state o ∧
   ∃ s, s ∈ cands ∧ eligible st p s ∧ r.2 = (SetShelf p s st).2 ∧
        shelf o' = Some s) ∨
  (isExpired st o = false ∧ r.1.1 = Some NoShelf ∧ r.2 = st ∧
   ∀ s, s ∈ cands → ¬ eligible st p s).
Proof.
  intros Ho Hact Hix r o'. apply getO_Some in Ho.
  unfold o', r, SetOrderReady. rewrite Ho, Hix.
  set (sorted := sort_Slice _ cands).
  set (k' := mkKitchen _ _ _ _).
  assert (Hmis : ∀ st1 n eff, state (getO st1 p) = state o ∨
                              state (getO st1 p) = Trashed →
            TransitionOrder p Created n eff st1 = (Some WrongState, st1)).
  { intros st1 n eff Hs. apply TransitionOrder_mismatch.
    destruct Hs as [-> | ->]; [|done]. by destruct (state o). }
  unfold optimizePlacement. rewrite Ho.
  destruct (isExpired st o) eqn:He.
  - left. split; [done|].
    pose proof (TransitionOrder_hijack p Trashed noEffect st) as HT.
    rewrite Ho in HT. rewrite (HT He).
    pose proof (hijacked_order st p) as HH. cbv zeta in HH.
    rewrite Ho in HH. destruct HH as (Hs & Hh & _).
    cbn [fst snd]. rewrite Hmis by (by right). cbn [fst snd]. done.
  - right.
    destruct (placeLoop_first p sorted st)
      as [[E Hno]|(l1 & s & l2 & Hc & Hl1 & Hel & E & Hok)];
      cbv zeta in E; rewrite Ho in E; rewrite E.
    + right. split; [done|]. rewrite Hmis by (left; by rewrite Ho).
      cbn [fst snd]. do 2 (split; [done|]). intros s Hs. apply Hno.
      by apply elem_of_sort_Slice.
    + left. split; [done|].
      destruct (SetShelf_cases st p s)
        as [[e Ee]|(st' & Ee & Hsh & Hst & _)]; [by rewrite Ee in Hok|].
      rewrite Ee. cbn [fst snd].
      rewrite Hmis by (left; by rewrite Hst, Ho). cbn [fst snd].
      split; [done|]. split; [by rewrite Hst, Ho|].
      exists s. split; [|split; [exact Hel|split; [by rewrite Ee|exact Hsh]]].
      apply (elem_of_sort_Slice
               (λ a b, PrimFloat.ltb (Decay st a) (Decay st b)) cands).
      fold sorted. rewrite Hc. apply elem_of_app. right. by left.
Qed.

Lemma SetOrderReady_active_witness :
  (SetOrderReady placementReady.1 0%nat placementReady.2).1.1 = Some NoShelf ∧
  (SetOrderReady placementReady.1 0%nat placementReady.2).2 = placementReady.2.
Proof.
  destruct (SetOrderReady_active placementReady.1 0%nat
              (getO placementReady.2 0%nat) [2; 1; 0]%nat placementReady.2)
    as [(He & _)|[(_ & Hr & _)|(_ & H1 & H2 & _)]].
  - vm_compute. reflexivity.
  - vm_compute. reflexivity.
  - vm_compute. reflexivity.
  - exfalso. revert He. vm_compute. discriminate.
  - exfalso. revert Hr. vm_compute. discriminate.
  - split; [exact H1|exact H2].
Defined.

(** ** Orders without shelf life *)

Lemma div_zero_not_finite (x : float) :
  PrimFloat.is_finite (PrimFloat.div x (float64_of_int64 0)) = false.
Proof.
  assert (Hz : float64_of_int64 0 = PrimFloat.zero) by (vm_compute; reflexivity).
  rewrite Hz. set (r := PrimFloat.div x PrimFloat.zero).
  assert (Hr : Prim2SF r = S754_nan ∨ ∃ b, Prim2SF r = S754_infinity b).
  { unfold r. rewrite FloatAxioms.div_spec.
    assert (Prim2SF PrimFloat.zero = S754_zero false) as ->
      by (vm_compute; reflexivity).
    destruct (Prim2SF x) as [b|b| |b m e]; simpl; eauto. }
  unfold PrimFloat.is_finite, PrimFloat.is_nan, PrimFloat.is_infinity.
  rewrite !FloatAxioms.eqb_spec, FloatAxioms.abs_spec.
  assert (Prim2SF PrimFloat.infinity = S754_infinity false) as ->
    by (vm_compute; reflexivity).
  destruct Hr as [-> | [b ->]]; [reflexivity|by destruct b].
Qed.

(** X22.  An order whose shelf life is zero has no normalized value:
    the quotient by its shelf life is NaN or infinite, the response does
    not marshal, and [GetOrderHandler] answers 500 for it whenever it is
    found. *)
Theorem GetOrderHandler_zero_shelfLife (arrival : list sref) (id : string)
    (st : Store) (p : oref) :
  GetOrder arrival id st = Some p →
  shelfLife (getO st p) = 0 →
  PrimFloat.is_finite (NormalizedValue st (getO st p)) = false ∧
  GetOrderHandler arrival id st = 500%nat.
Proof.
  intros Hg Hz.
  assert (Hn : PrimFloat.is_finite (NormalizedValue st (getO st p)) = false).
  { unfold NormalizedValue. rewrite Hz. apply div_zero_not_finite. }
  split; [exact Hn|].
  unfold GetOrderHandler, writeOrderResponse, marshals. rewrite Hg.
  unfold orderToOrderResponse; cbn [resp_ShelfLife resp_Value resp_NormalValue
                                   resp_Decay resp_Age].
  rewrite Hn. by rewrite !andb_false_r.
Qed.

Lemma GetOrderHandler_zero_shelfLife_witness :
  let req := mkCreateOrderRequest "soup" "hot" 0.5%float 0.25%float in
  let w := serve (λ _, 0) (EvCreate (Some req) "u1") placementKitchen in
  GetOrderHandler [0; 1; 2]%nat "u1" w.2 = 500%nat.
Proof.
  intros req w.
  refine (proj2 (GetOrderHandler_zero_shelfLife [0; 1; 2]%nat "u1" w.2
                   0%nat _ _)).
  - vm_compute. reflexivity.
  - vm_compute. reflexivity.
Defined.

(** ** The background optimizer *)

(** One call on an order that is [Ready] or [Enroute] keeps the store
    sound and touches no other order. *)
Lemma optimizePlacement_sound p cands st :
  sound st → isActive (state (getO st p)) = true →
  sound (optimizePlacement p cands st).2 ∧
  (∀ q, p ≠ q → getO (optimizePlacement p cands st).2 q = getO st q) ∧
  (state (getO (optimizePlacement p cands st).2 p) = state (getO st p) ∨
   state (getO (optimizePlacement p cands st).2 p) = Trashed).
Proof.
  intros Hs Hact.
  destruct (optimizePlacement_order p cands st) as [Hfr Hcases].
  assert (Hal : allocated st p).
  { destruct Hs as (_ & Hia & _). specialize (Hia p).
    unfold shelfIffActive in Hia. rewrite Hact in Hia.
    destruct (shelf (getO st p)) as [s|] eqn:E; [|done].
    by apply (shelved_allocated st p s). }
  split; [|split; [exact Hfr|]].
  - apply (sound_step p st); [done|done| | |].
    + apply keeps_optimizePlacement.
    + apply shelvesEvolve_optimizePlacement.
    + split; [|exact Hfr].
      destruct Hcases as [[_ ->]|[(_ & _ & H1 & H2)|(_ & H1 & H2)]].
      * destruct Hs as (_ & Hia & _). apply Hia.
      * by apply shelfIffActive_trashed.
      * unfold shelfIffActive. rewrite H1, Hact.
        by rewrite bool_decide_eq_true_2.
  - destruct Hcases as [[_ ->]|[(_ & _ & H1 & _)|(_ & H1 & _)]];
      [by left|by right|by left].
Qed.

Lemma wave_sound k l st :
  sound st → NoDup l →
  (∀ q, q ∈ l → isActive (state (getO st q)) = true) →
  sound (wave k l st) ∧
  (∀ q, q ∉ l → getO (wave k l st) q = getO st q) ∧
  (∀ q, state (getO (wave k l st) q) = state (getO st q) ∨
        state (getO (wave k l st) q) = Trashed).
Proof.
  revert st. induction l as [|p l IH]; intros st Hs Hnd Hact; simpl.
  { split; [done|]. split; [done|]. by left. }
  apply NoDup_cons in Hnd as [Hp Hnd].
  destruct (optimizePlacement_sound p (shelvesAsc k) st Hs) as (Hs1 & Hfr & Hst).
  { apply Hact. by left. }
  set (st1 := (optimizePlacement p (shelvesAsc k) st).2) in *.
  destruct (IH st1 Hs1 Hnd) as (Hs2 & Hfr2 & Hst2).
  { intros q Hq. rewrite Hfr by (by intros ->). apply Hact. by right. }
  fold (wave k l st1). split; [done|]. split.
  - intros q Hq. apply not_elem_of_cons in Hq as [Hqp Hq].
    rewrite Hfr2 by done. by apply Hfr.
  - intros q. destruct (Hst2 q) as [-> | ->]; [|by right].
    destruct (decide (p = q)) as [<-|Hne]; [done|].
    left. by rewrite Hfr.
Qed.

(** X23.  A pass of [decayMinimizer], in whatever order the calls
    started for a shelf take their step, keeps a sound store sound; it
    changes no state except to [Trashed], and does not touch an order
    that is not [Ready] or [Enroute]. *)
Theorem decayMinimizer_sound (sched : list oref → list oref) (k : Kitchen)
    (st : Store) :
  (∀ l, sched l ≡ₚ l) →
  sound st →
  sound (decayMinimizer sched k st) ∧
  (∀ q, state (getO (decayMinimizer sched k st) q) = state (getO st q) ∨
        state (getO (decayMinimizer sched k st) q) = Trashed) ∧
  (∀ q, isActive (state (getO st q)) = false →
        getO (decayMinimizer sched k st) q = getO st q).
Proof.
  intros Hsched. unfold decayMinimizer.
  generalize (shelvesDesc k) as shelves. intros shelves. revert st.
  induction shelves as [|s shelves IH]; intros st Hs; simpl.
  { split; [done|]. split; [by left|done]. }
  set (orders := sched (sort_Slice _ (Orders (getS st s)))).
  assert (Hin : ∀ q, q ∈ orders → q ∈ Orders (getS st s)).
  { intros q Hq. unfold orders in Hq. rewrite (Hsched _) in Hq.
    by apply elem_of_sort_Slice in Hq. }
  assert (Hact : ∀ q, q ∈ orders → isActive (state (getO st q)) = true).
  { intros q Hq. apply Hin, elem_of_Orders in Hq as [oid Hq].
    destruct Hs as ((W1 & _) & Hia & _).
    destruct (W1 _ _ _ Hq) as [_ Hsh]. specialize (Hia q).
    unfold shelfIffActive in Hia. rewrite Hsh in Hia.
    rewrite bool_decide_eq_true_2 in Hia by (by eexists).
    by destruct (isActive (state (getO st q))). }
  assert (Hnd : NoDup orders).
  { unfold orders. rewrite (Hsched _), sort_Slice_Permutation.
    apply NoDup_Orders, Hs. }
  destruct (wave_sound k orders st Hs Hnd Hact) as (Hs1 & Hfr & Hst).
  destruct (IH (wave k orders st) Hs1) as (Hs2 & Hst2 & Hfr2).
  split; [done|]. split.
  - intros q. destruct (Hst2 q) as [-> | ->]; [apply Hst|by right].
  - intros q Hq.
    assert (Hq1 : getO (wave k orders st) q = getO st q).
    { apply Hfr. intros Hin'. apply Hact in Hin'. congruence. }
    rewrite Hfr2 by (by rewrite Hq1). done.
Qed.

Lemma decayMinimizer_sound_witness :
  let req := mkCreateOrderRequest "tacos" "hot" 100%float 0.25%float in
  let w := placementKitchen in
  let st := (CreateOrderHandler (λ _, 100) w.1 (Some req) "u1" w.2).2 in
  sound (decayMinimizer (λ l, l) w.1 st).
Proof.
  intros req w st.
  refine (proj1 (decayMinimizer_sound (λ l, l) w.1 st _ _)).
  - intros l. reflexivity.
  - apply sound_CreateOrderHandler; [apply placementKitchen_sound|].
    intros q [x Hx]. exfalso. revert Hx.
    assert (order_heap w.2 = ∅) as -> by (vm_compute; reflexivity).
    by rewrite lookup_empty.
Defined.
